(** * fscad: the component composition model

    A verification development for [src/fscad.py]: the tree of geometric
    nodes with lazily composed affine transforms, cached derived geometry
    and eagerly folded CSG results.

    Python objects are mutable and shared by reference, so nodes live in a
    store and are named by their index; every method is a computation in a
    state-and-exception monad over that store.  The host geometry library
    ([adsk.core], [adsk.fusion]) is not part of the repository: it is the
    interface [Kernel] below. *)

From Stdlib Require Import ZArith Lia.
From stdpp Require Import base option list strings relations.

Set Default Proof Using "Type".

(** * Values of the host library

    [adsk.core.Point3D], [Vector3D], [BoundingBox3D] and
    [OrientedBoundingBox3D], over a type of numbers. *)
Section Values.
Context {S : Type}.

Record Point3D_of := Point3D_create { p_x : S; p_y : S; p_z : S }.
Record Vector3D_of := Vector3D_create { v_x : S; v_y : S; v_z : S }.

Definition asVector (p : Point3D_of) : Vector3D_of :=
  Vector3D_create (p_x p) (p_y p) (p_z p).
Definition asPoint (v : Vector3D_of) : Point3D_of :=
  Point3D_create (v_x v) (v_y v) (v_z v).

Record BoundingBox3D_of := BoundingBox3D_create {
  minPoint : Point3D_of;
  maxPoint : Point3D_of
}.

Record OrientedBoundingBox3D_of := OrientedBoundingBox3D_create {
  centerPoint : Point3D_of;
  lengthDirection : Vector3D_of;
  widthDirection : Vector3D_of;
  length_ : S;
  width_ : S;
  height_ : S
}.
End Values.
Arguments Point3D_of : clear implicits.
Arguments Vector3D_of : clear implicits.
Arguments BoundingBox3D_of : clear implicits.
Arguments OrientedBoundingBox3D_of : clear implicits.

(** * Numbers of the host language *)

(** Python numbers (float or int), idealised: equality is decidable and
    [==] is that equality. *)
Class Number := {
  Scalar : Type;
  #[global] Scalar_eq_dec :: EqDecision Scalar;
  s_zero : Scalar;
  s_one : Scalar;
  s_two : Scalar;
  s_add : Scalar → Scalar → Scalar;
  s_sub : Scalar → Scalar → Scalar;
  s_mul : Scalar → Scalar → Scalar;
  s_div : Scalar → Scalar → Scalar;
  s_abs : Scalar → Scalar;
  radians : Scalar → Scalar
}.

Abbreviation Point3D := (Point3D_of Scalar).
Abbreviation Vector3D := (Vector3D_of Scalar).
Abbreviation BoundingBox3D := (BoundingBox3D_of Scalar).
Abbreviation OrientedBoundingBox3D := (OrientedBoundingBox3D_of Scalar).

Section Geometry.
Context `{Number}.

Definition vectorTo (p q : Point3D) : Vector3D :=
  Vector3D_create (s_sub (p_x q) (p_x p)) (s_sub (p_y q) (p_y p))
                  (s_sub (p_z q) (p_z p)).

(** Class attributes of [Component]. *)
Definition _origin : Point3D := Point3D_create s_zero s_zero s_zero.
Definition _null_vector : Vector3D := Vector3D_create s_zero s_zero s_zero.
Definition _pos_x : Vector3D := Vector3D_create s_one s_zero s_zero.
Definition _pos_y : Vector3D := Vector3D_create s_zero s_one s_zero.
Definition _pos_z : Vector3D := Vector3D_create s_zero s_zero s_one.

Definition _oriented_bounding_box_to_bounding_box
    (oriented : OrientedBoundingBox3D) : BoundingBox3D :=
  BoundingBox3D_create
    (Point3D_create
       (s_sub (p_x (centerPoint oriented)) (s_div (length_ oriented) s_two))
       (s_sub (p_y (centerPoint oriented)) (s_div (width_ oriented) s_two))
       (s_sub (p_z (centerPoint oriented)) (s_div (height_ oriented) s_two)))
    (Point3D_create
       (s_add (p_x (centerPoint oriented)) (s_div (length_ oriented) s_two))
       (s_add (p_y (centerPoint oriented)) (s_div (width_ oriented) s_two))
       (s_add (p_z (centerPoint oriented)) (s_div (height_ oriented) s_two))).
End Geometry.

Inductive BooleanTypes :=
  | UnionBooleanType
  | DifferenceBooleanType
  | IntersectionBooleanType.

(** * The geometry kernel

    [Matrix3D] values are 4x4 affine matrices; a matrix is always copied
    before it is handed out or mutated by the code below, so matrices are
    modelled by value and [copy()] on a matrix is the identity.
    [m_transformBy a b] is the value of [a] after [a.transformBy(b)].
    Bodies are modelled by value too: the code only transforms or folds
    into bodies it has just copied or that it owns. *)
Class Kernel `{Number} := {
  Matrix3D : Type;
  Body : Type;
  Plane : Type;
  m_create : Matrix3D;
  m_transformBy : Matrix3D → Matrix3D → Matrix3D;
  m_invert : Matrix3D → Matrix3D;
  m_set_translation : Matrix3D → Vector3D → Matrix3D;
  m_setCell : Matrix3D → nat → nat → Scalar → Matrix3D;
  m_setToRotation : Matrix3D → Scalar → Vector3D → Point3D → Matrix3D;
  brep_copy : Body → Body;
  brep_copy_face : Body → nat → Body;
  brep_transform : Body → Matrix3D → Body;
  brep_booleanOperation : Body → Body → BooleanTypes → option Body;
  brep_createBox : OrientedBoundingBox3D → Body;
  brep_createCylinderOrCone : Point3D → Scalar → Point3D → Scalar → Body;
  brep_createSphere : Point3D → Scalar → Body;
  face0_geometry : Body → Plane;
  isCoPlanarTo : Plane → Plane → bool;
  getOrientedBoundingBox : Body → OrientedBoundingBox3D;
  bb_combine : BoundingBox3D → BoundingBox3D → BoundingBox3D
}.

(** * Nodes and the store *)

(** The concrete classes of [Component]. *)
Inductive cls :=
  | CBox | CCylinder | CSphere | CRect | CCircle
  | CUnion | CDifference | CIntersection | CLoft.

#[global] Instance cls_eq_dec : EqDecision cls.
Proof. solve_decision. Defined.

(** Subclasses of [ComponentWithChildren]. *)
Definition is_composite (c : cls) : bool :=
  match c with
  | CUnion | CDifference | CIntersection | CLoft => true
  | _ => false
  end.

(** Subclasses of [PlanarShape]. *)
Definition is_planar_shape (c : cls) : bool :=
  match c with
  | CRect | CCircle => true
  | _ => false
  end.

(** A reference to a node object. *)
Abbreviation id := nat.

Inductive exn :=
  | ValueError (msg : string)
  | TypeError (msg : string)
  | NotImplementedError
  | RuntimeError (msg : string)
  | InvalidReference.

Inductive outcome (A : Type) :=
  | Ok (a : A)
  | Raise (e : exn)
  | OutOfFuel.
Arguments Ok {A} a.
Arguments Raise {A} e.
Arguments OutOfFuel {A}.

Section Node.
Context {S M B P : Type}.

(** The attributes of a node object.  An attribute a class does not use
    keeps its initial value. *)
Record Node_of := mkNode {
  class_ : cls;
  name : option string;
  _parent : option id;
  _local_transform : M;
  _cached_bounding_box : option (BoundingBox3D_of S);
  _cached_bodies : option (list B);
  _cached_world_transform : option M;
  _children : list id;
  _cached_inverse_transform : option M;
  _body : option B;
  _bodies : option (list B);
  _plane : option P;
  _cached_plane : option P;
  _cached_plane_populated : bool;
  _bottom_index : option nat;
  _top_index : option nat
}.

Definition set_class (c : cls) (n : Node_of) : Node_of :=
  mkNode c (name n) (_parent n) (_local_transform n)
    (_cached_bounding_box n) (_cached_bodies n) (_cached_world_transform n)
    (_children n) (_cached_inverse_transform n) (_body n) (_bodies n)
    (_plane n) (_cached_plane n) (_cached_plane_populated n)
    (_bottom_index n) (_top_index n).
Definition set_name (v : option string) (n : Node_of) : Node_of :=
  mkNode (class_ n) v (_parent n) (_local_transform n)
    (_cached_bounding_box n) (_cached_bodies n) (_cached_world_transform n)
    (_children n) (_cached_inverse_transform n) (_body n) (_bodies n)
    (_plane n) (_cached_plane n) (_cached_plane_populated n)
    (_bottom_index n) (_top_index n).
Definition set_parent (v : option id) (n : Node_of) : Node_of :=
  mkNode (class_ n) (name n) v (_local_transform n)
    (_cached_bounding_box n) (_cached_bodies n) (_cached_world_transform n)
    (_children n) (_cached_inverse_transform n) (_body n) (_bodies n)
    (_plane n) (_cached_plane n) (_cached_plane_populated n)
    (_bottom_index n) (_top_index n).
Definition set_local_transform (v : M) (n : Node_of) : Node_of :=
  mkNode (class_ n) (name n) (_parent n) v
    (_cached_bounding_box n) (_cached_bodies n) (_cached_world_transform n)
    (_children n) (_cached_inverse_transform n) (_body n) (_bodies n)
    (_plane n) (_cached_plane n) (_cached_plane_populated n)
    (_bottom_index n) (_top_index n).
Definition set_cached_bounding_box (v : option (BoundingBox3D_of S)) (n : Node_of) : Node_of :=
  mkNode (class_ n) (name n) (_parent n) (_local_transform n)
    v (_cached_bodies n) (_cached_world_transform n)
    (_children n) (_cached_inverse_transform n) (_body n) (_bodies n)
    (_plane n) (_cached_plane n) (_cached_plane_populated n)
    (_bottom_index n) (_top_index n).
Definition set_cached_bodies (v : option (list B)) (n : Node_of) : Node_of :=
  mkNode (class_ n) (name n) (_parent n) (_local_transform n)
    (_cached_bounding_box n) v (_cached_world_transform n)
    (_children n) (_cached_inverse_transform n) (_body n) (_bodies n)
    (_plane n) (_cached_plane n) (_cached_plane_populated n)
    (_bottom_index n) (_top_index n).
Definition set_cached_world_transform (v : option M) (n : Node_of) : Node_of :=
  mkNode (class_ n) (name n) (_parent n) (_local_transform n)
    (_cached_bounding_box n) (_cached_bodies n) v
    (_children n) (_cached_inverse_transform n) (_body n) (_bodies n)
    (_plane n) (_cached_plane n) (_cached_plane_populated n)
    (_bottom_index n) (_top_index n).
Definition set_children (v : list id) (n : Node_of) : Node_of :=
  mkNode (class_ n) (name n) (_parent n) (_local_transform n)
    (_cached_bounding_box n) (_cached_bodies n) (_cached_world_transform n)
    v (_cached_inverse_transform n) (_body n) (_bodies n)
    (_plane n) (_cached_plane n) (_cached_plane_populated n)
    (_bottom_index n) (_top_index n).
Definition set_cached_inverse_transform (v : option M) (n : Node_of) : Node_of :=
  mkNode (class_ n) (name n) (_parent n) (_local_transform n)
    (_cached_bounding_box n) (_cached_bodies n) (_cached_world_transform n)
    (_children n) v (_body n) (_bodies n)
    (_plane n) (_cached_plane n) (_cached_plane_populated n)
    (_bottom_index n) (_top_index n).
Definition set_body (v : option B) (n : Node_of) : Node_of :=
  mkNode (class_ n) (name n) (_parent n) (_local_transform n)
    (_cached_bounding_box n) (_cached_bodies n) (_cached_world_transform n)
    (_children n) (_cached_inverse_transform n) v (_bodies n)
    (_plane n) (_cached_plane n) (_cached_plane_populated n)
    (_bottom_index n) (_top_index n).
Definition set_bodies (v : option (list B)) (n : Node_of) : Node_of :=
  mkNode (class_ n) (name n) (_parent n) (_local_transform n)
    (_cached_bounding_box n) (_cached_bodies n) (_cached_world_transform n)
    (_children n) (_cached_inverse_transform n) (_body n) v
    (_plane n) (_cached_plane n) (_cached_plane_populated n)
    (_bottom_index n) (_top_index n).
Definition set_plane (v : option P) (n : Node_of) : Node_of :=
  mkNode (class_ n) (name n) (_parent n) (_local_transform n)
    (_cached_bounding_box n) (_cached_bodies n) (_cached_world_transform n)
    (_children n) (_cached_inverse_transform n) (_body n) (_bodies n)
    v (_cached_plane n) (_cached_plane_populated n)
    (_bottom_index n) (_top_index n).
Definition set_cached_plane (v : option P) (b : bool) (n : Node_of) : Node_of :=
  mkNode (class_ n) (name n) (_parent n) (_local_transform n)
    (_cached_bounding_box n) (_cached_bodies n) (_cached_world_transform n)
    (_children n) (_cached_inverse_transform n) (_body n) (_bodies n)
    (_plane n) v b
    (_bottom_index n) (_top_index n).
Definition set_indices (b t : option nat) (n : Node_of) : Node_of :=
  mkNode (class_ n) (name n) (_parent n) (_local_transform n)
    (_cached_bounding_box n) (_cached_bodies n) (_cached_world_transform n)
    (_children n) (_cached_inverse_transform n) (_body n) (_bodies n)
    (_plane n) (_cached_plane n) (_cached_plane_populated n)
    b t.

(** The three assignments that open [Component._reset_cache]. *)
Definition clear_caches (n : Node_of) : Node_of :=
  set_cached_world_transform None
    (set_cached_bounding_box None (set_cached_bodies None n)).

(** [Component.children] returns [()]; [ComponentWithChildren.children]
    returns a tuple of the list. *)
Definition children (n : Node_of) : list id :=
  if is_composite (class_ n) then _children n else [].

End Node.
Arguments Node_of : clear implicits.

Abbreviation Node := (Node_of Scalar Matrix3D Body Plane).

Section Model.
Context `{Kernel}.

(** ** The monad: a store of nodes, exceptions, and fuel for recursion

    A raised exception keeps the store as it was at the point of the
    raise: Python does not roll back. *)
#[local] Abbreviation store := (list Node).
Definition M (A : Type) : Type := store → outcome A * store.

Definition ret {A} (a : A) : M A := fun σ => (Ok a, σ).
Definition bind {A B} (m : M A) (k : A → M B) : M B :=
  fun σ => match m σ with
           | (Ok a, σ') => k a σ'
           | (Raise e, σ') => (Raise e, σ')
           | (OutOfFuel, σ') => (OutOfFuel, σ')
           end.
Definition raise {A} (e : exn) : M A := fun σ => (Raise e, σ).
Definition out_of_fuel {A} : M A := fun σ => (OutOfFuel, σ).

Definition get_node (self : id) : M Node :=
  fun σ => match σ !! self with
           | Some n => (Ok n, σ)
           | None => (Raise InvalidReference, σ)
           end.
Definition modify (self : id) (f : Node → Node) : M unit :=
  fun σ => match σ !! self with
           | Some n => (Ok tt, <[self := f n]> σ)
           | None => (Raise InvalidReference, σ)
           end.
(** Object creation: the new object is the next index of the store. *)
Definition alloc (n : Node) : M id :=
  fun σ => (Ok (length σ), σ ++ [n]).
End Model.

Abbreviation store := (list Node).

#[global] Instance M_ret `{Kernel} : MRet M := @ret _ _.
#[global] Instance M_bind `{Kernel} : MBind M := λ A B k m, bind m k.

Section Component.
Context `{Kernel}.

Fixpoint for_each {A} (l : list A) (f : A → M unit) : M unit :=
  match l with
  | [] => ret tt
  | a :: l' => f a;; for_each l' f
  end.

Definition when (b : bool) (m : M unit) : M unit :=
  if b then m else ret tt.

(** [Component.__init__], with the class already set. *)
Definition new_component (c : cls) (nm : option string) : Node :=
  mkNode c nm None m_create None None None [] None None None None None false
         None None.

(** [_reset_cache], with the overrides of [ComponentWithChildren] and
    [Intersection] dispatched on the class: each override first runs its
    parent's body. *)
Fixpoint _reset_cache (fuel : nat) (self : id) : M unit :=
  match fuel with
  | 0 => out_of_fuel
  | S fuel =>
    modify self clear_caches;;
    nd ← get_node self;
    for_each (children nd) (_reset_cache fuel);;
    when (is_composite (class_ nd))
         (modify self (set_cached_inverse_transform None));;
    when (bool_decide (class_ nd = CIntersection))
         (modify self (set_cached_plane None false))
  end.

Fixpoint _get_world_transform (fuel : nat) (self : id) : M Matrix3D :=
  match fuel with
  | 0 => out_of_fuel
  | S fuel =>
    nd ← get_node self;
    match _cached_world_transform nd with
    | Some w => ret w
    | None =>
      transform ←
        match _parent nd with
        | Some parent =>
          pw ← _get_world_transform fuel parent;
          ret (m_transformBy (_local_transform nd) pw)
        | None => ret (_local_transform nd)
        end;
      modify self (set_cached_world_transform (Some transform));;
      ret transform
    end
  end.

(** The [center] argument of [rotate] and [scale]: absent, a point, or
    an iterable of numbers. *)
Inductive center_arg :=
  | CenterNone
  | CenterPoint (p : Point3D)
  | CenterCoordinates (l : list Scalar).

(** [list(center)[0:3]], padded with zeros to three coordinates. *)
Definition center_point_of (center : center_arg) : Point3D :=
  match center with
  | CenterNone => _origin
  | CenterPoint p => p
  | CenterCoordinates l =>
    let center_coordinates := take 3 l in
    let center_coordinates :=
      center_coordinates ++ replicate (3 - length center_coordinates) s_zero in
    Point3D_create (nth 0 center_coordinates s_zero)
                   (nth 1 center_coordinates s_zero)
                   (nth 2 center_coordinates s_zero)
  end.

Definition transform_local (self : id) (t : Matrix3D) : M unit :=
  modify self (fun nd => set_local_transform (m_transformBy (_local_transform nd) t) nd).

Definition place (fuel : nat) (self : id) (x y z : Vector3D) : M id :=
  let transform := m_set_translation m_create (Vector3D_create (v_x x) (v_y y) (v_z z)) in
  transform_local self transform;;
  _reset_cache fuel self;;
  ret self.

Definition rotate (fuel : nat) (self : id) (rx ry rz : Scalar) (center : center_arg)
    : M id :=
  let center_point := center_point_of center in
  when (bool_decide (rx ≠ s_zero))
       (transform_local self
          (m_setToRotation m_create (radians rx) _pos_x center_point));;
  when (bool_decide (ry ≠ s_zero))
       (transform_local self
          (m_setToRotation m_create (radians ry) _pos_y center_point));;
  when (bool_decide (rz ≠ s_zero))
       (transform_local self
          (m_setToRotation m_create (radians rz) _pos_z center_point));;
  _reset_cache fuel self;;
  ret self.

Definition rx (fuel : nat) (self : id) (angle : Scalar) (center : center_arg) : M id :=
  rotate fuel self angle s_zero s_zero center.
Definition ry (fuel : nat) (self : id) (angle : Scalar) (center : center_arg) : M id :=
  rotate fuel self s_zero angle s_zero center.
Definition rz (fuel : nat) (self : id) (angle : Scalar) (center : center_arg) : M id :=
  rotate fuel self s_zero s_zero angle center.

Definition translate (fuel : nat) (self : id) (tx ty tz : Scalar) : M id :=
  let translation := m_set_translation m_create (Vector3D_create tx ty tz) in
  transform_local self translation;;
  _reset_cache fuel self;;
  ret self.

Definition tx (fuel : nat) (self : id) (v : Scalar) : M id :=
  translate fuel self v s_zero s_zero.
Definition ty (fuel : nat) (self : id) (v : Scalar) : M id :=
  translate fuel self s_zero v s_zero.
Definition tz (fuel : nat) (self : id) (v : Scalar) : M id :=
  translate fuel self s_zero s_zero v.

Definition scale_message : string :=
  "Non-uniform scaling is not currently supported".

Definition scale (fuel : nat) (self : id) (sx sy sz : Scalar) (center : center_arg)
    : M id :=
  let scale := m_create in
  let translation := m_create in
  if bool_decide (s_abs sx ≠ s_abs sy) || bool_decide (s_abs sy ≠ s_abs sz)
  then raise (ValueError scale_message)
  else
    let center_point := center_point_of center in
    let translation := m_set_translation translation (asVector center_point) in
    let translation := m_invert translation in
    transform_local self translation;;
    let scale := m_setCell scale 0 0 sx in
    let scale := m_setCell scale 1 1 sy in
    let scale := m_setCell scale 2 2 sz in
    transform_local self scale;;
    let translation := m_invert translation in
    transform_local self translation;;
    _reset_cache fuel self;;
    ret self.

(** ** Bodies, bounding boxes and planes *)

Fixpoint mapM {A B} (f : A → M B) (l : list A) : M (list B) :=
  match l with
  | [] => ret []
  | a :: l' => b ← f a; bs ← mapM f l'; ret (b :: bs)
  end.

(** [_raw_bodies]: [Shape], [Union] and [Loft] return the one [_body]
    (which is [None] in a [Union] that has folded nothing yet);
    [Difference] and [Intersection] return [tuple(self._bodies)]. *)
Definition _raw_bodies (self : id) : M (list (option Body)) :=
  nd ← get_node self;
  match class_ nd with
  | CDifference | CIntersection =>
    match _bodies nd with
    | Some bs => ret (Some <$> bs)
    | None => raise (TypeError "'NoneType' object is not iterable")
    end
  | _ => ret [_body nd]
  end.

(** [brep().copy(body)]; the kernel rejects [None]. *)
Definition copy_body (body : option Body) : M Body :=
  match body with
  | Some b => ret (brep_copy b)
  | None => raise (TypeError "copy: body is None")
  end.

Definition bodies (fuel : nat) (self : id) : M (list Body) :=
  nd ← get_node self;
  match _cached_bodies nd with
  | Some bs => ret bs
  | None =>
    world_transform ← _get_world_transform fuel self;
    raw ← _raw_bodies self;
    bodies_copy ← mapM copy_body raw;
    let bodies_copy := (λ body, brep_transform body world_transform) <$> bodies_copy in
    modify self (set_cached_bodies (Some bodies_copy));;
    ret bodies_copy
  end.

(** [_get_exact_bounding_box] on the bodies of a component: every body
    is a BRep entity, measured along the X and Y axes. *)
Fixpoint combine_boxes (bounding_box : option BoundingBox3D) (entities : list Body)
    : option BoundingBox3D :=
  match entities with
  | [] => bounding_box
  | entity :: rest =>
    let entity_bounding_box :=
      _oriented_bounding_box_to_bounding_box (getOrientedBoundingBox entity) in
    match bounding_box with
    | None => combine_boxes (Some entity_bounding_box) rest
    | Some bb => combine_boxes (Some (bb_combine bb entity_bounding_box)) rest
    end
  end.

Definition _get_exact_bounding_box (fuel : nat) (self : id) : M (option BoundingBox3D) :=
  entities ← bodies fuel self;
  ret (combine_boxes None entities).

(** The common prefix of [size], [min], [max] and [mid]. *)
Definition bounding_box (fuel : nat) (self : id) : M BoundingBox3D :=
  nd ← get_node self;
  bb ← match _cached_bounding_box nd with
       | Some bb => ret (Some bb)
       | None =>
         bb ← _get_exact_bounding_box fuel self;
         modify self (set_cached_bounding_box bb);;
         ret bb
       end;
  match bb with
  | Some bb => ret bb
  | None => raise (TypeError "'NoneType' object has no attribute")
  end.

Definition size (fuel : nat) (self : id) : M Point3D :=
  bb ← bounding_box fuel self;
  ret (asPoint (vectorTo (minPoint bb) (maxPoint bb))).
Definition min (fuel : nat) (self : id) : M Point3D :=
  bb ← bounding_box fuel self; ret (minPoint bb).
Definition max (fuel : nat) (self : id) : M Point3D :=
  bb ← bounding_box fuel self; ret (maxPoint bb).
Definition mid (fuel : nat) (self : id) : M Point3D :=
  bb ← bounding_box fuel self;
  ret (Point3D_create
         (s_div (s_add (p_x (minPoint bb)) (p_x (maxPoint bb))) s_two)
         (s_div (s_add (p_y (minPoint bb)) (p_y (maxPoint bb))) s_two)
         (s_div (s_add (p_z (minPoint bb)) (p_z (maxPoint bb))) s_two)).

(** [_cached_body]: [next(iter(self.bodies()))]. *)
Definition _cached_body (fuel : nat) (self : id) : M Body :=
  bs ← bodies fuel self;
  match bs with
  | b :: _ => ret b
  | [] => raise (RuntimeError "StopIteration")
  end.

(** The loop of [Intersection.get_plane]: the first plane that is not
    [None], else the last value assigned, which is [None]. *)
Fixpoint first_plane (get : id → M (option Plane)) (cs : list id) : M (option Plane) :=
  match cs with
  | [] => ret None
  | child :: rest =>
    plane ← get child;
    match plane with
    | Some _ => ret plane
    | None => first_plane get rest
    end
  end.

(** [get_plane], dispatched on the class.  [Component.get_plane] is
    [None]; [Rect] and [Circle] read the plane of their one face;
    [Union] and [Difference] ask their first child; [Intersection]
    caches the first plane among its children. *)
Fixpoint get_plane (fuel : nat) (self : id) : M (option Plane) :=
  match fuel with
  | 0 => out_of_fuel
  | S fuel =>
    nd ← get_node self;
    match class_ nd with
    | CRect | CCircle =>
      body ← _cached_body fuel self;
      ret (Some (face0_geometry body))
    | CUnion | CDifference =>
      match children nd with
      | child :: _ => get_plane fuel child
      | [] => ret None
      end
    | CIntersection =>
      if _cached_plane_populated nd then ret (_cached_plane nd)
      else
        plane ← first_plane (get_plane fuel) (children nd);
        modify self (set_cached_plane plane true);;
        ret plane
    | _ => ret None
    end
  end.

(** ** Composites *)

Definition _inverse_transform (fuel : nat) (self : id) : M Matrix3D :=
  nd ← get_node self;
  match _cached_inverse_transform nd with
  | Some inverse => ret inverse
  | None =>
    world ← _get_world_transform fuel self;
    modify self (set_cached_inverse_transform (Some (m_invert world)));;
    ret (m_invert world)
  end.

(** [_add_children].  [func] is a closure; the variables it rebinds with
    [nonlocal] are threaded through the loop as [captured]. *)
Section AddChildren.
Context {St : Type}.
Variable copy : id → M id.
Variable fuel : nat.
Variable self : id.
Variable func : option (id → St → M St).

(** One iteration of the loop. *)
Definition _add_child (child : id) (captured : St) : M St :=
  cnd ← get_node child;
  child ← (if _parent cnd is Some _ then copy child else ret child);
  inverse ← _inverse_transform fuel self;
  transform_local child inverse;;
  _reset_cache fuel child;;
  captured ← (if func is Some f then f child captured else ret captured);
  modify child (set_parent (Some self));;
  modify self (λ nd, set_children (_children nd ++ [child]) nd);;
  ret captured.

Fixpoint _add_children_loop (children : list id) (captured : St) : M St :=
  match children with
  | [] => ret captured
  | child :: rest =>
    captured ← _add_child child captured;
    _add_children_loop rest captured
  end.

Definition _add_children_with (children : list id) (captured : St) : M St :=
  captured ← _add_children_loop children captured;
  _reset_cache fuel self;;
  ret captured.
End AddChildren.

(** [_copy_to], in the order of the [super()] calls: the class's own
    assignments first, then those of [ComponentWithChildren]. *)
Definition _copy_to_own (fuel : nat) (self copy : id) : M unit :=
  nd ← get_node self;
  match class_ nd with
  | CBox | CSphere | CRect | CCircle | CUnion | CLoft =>
    body ← copy_body (_body nd);
    modify copy (set_body (Some body))
  | CCylinder =>
    body ← copy_body (_body nd);
    modify copy (set_body (Some body));;
    modify copy (set_indices (_bottom_index nd) (_top_index nd))
  | CDifference =>
    bs ← bodies fuel self;
    modify copy (set_bodies (Some (brep_copy <$> bs)))
  | CIntersection =>
    bs ← bodies fuel self;
    modify copy (set_bodies (Some (brep_copy <$> bs)));;
    modify copy (set_cached_plane None false)
  end.

Fixpoint copy (fuel : nat) (self : id) : M id :=
  match fuel with
  | 0 => out_of_fuel
  | S fuel =>
    nd ← get_node self;
    copy_id ← alloc (new_component (class_ nd) None);
    world ← _get_world_transform fuel self;
    modify copy_id (set_local_transform world);;
    modify copy_id clear_caches;;
    modify copy_id (set_name (name nd));;
    _copy_to_own fuel self copy_id;;
    (if is_composite (class_ nd) then
       modify copy_id (set_cached_inverse_transform None);;
       modify copy_id (set_children []);;
       nd ← get_node self;
       clones ← mapM (copy fuel) (_children nd);
       _add_children_with (copy fuel) fuel copy_id None clones tt
     else ret tt);;
    ret copy_id
  end.

Definition _add_children {St} (fuel : nat) (self : id) (children : list id)
    (func : option (id → St → M St)) (captured : St) : M St :=
  _add_children_with (copy fuel) fuel self func children captured.

Definition _first_child (self : id) : M (option id) :=
  nd ← get_node self;
  ret (head (children nd)).

(** [brep().booleanOperation(target, tool, op)] on the [_body] of
    [self], which the kernel mutates in place; it rejects a target that
    is [None] and fails on incompatible bodies. *)
Definition boolean_into_body (self : id) (tool : Body) (op : BooleanTypes) : M unit :=
  nd ← get_node self;
  match _body nd with
  | None => raise (TypeError "booleanOperation: targetBody is None")
  | Some target =>
    match brep_booleanOperation target tool op with
    | Some result => modify self (set_body (Some result))
    | None => raise (RuntimeError "booleanOperation failed")
    end
  end.

(** The same call on the [i]-th body of [_bodies]. *)
Definition boolean_into_bodies (self : id) (i : nat) (tool : Body) (op : BooleanTypes)
    : M unit :=
  nd ← get_node self;
  match _bodies nd with
  | None => raise (TypeError "'NoneType' object is not iterable")
  | Some targets =>
    match targets !! i with
    | None => raise (RuntimeError "IndexError")
    | Some target =>
      match brep_booleanOperation target tool op with
      | Some result => modify self (set_bodies (Some (<[i := result]> targets)))
      | None => raise (RuntimeError "booleanOperation failed")
      end
    end
  end.

(** The two nested loops of [Difference] and [Intersection]:
    [for target_body in self._bodies: for tool_body in child.bodies()]. *)
Definition boolean_each_target (fuel : nat) (self child : id) (op : BooleanTypes)
    : M unit :=
  nd ← get_node self;
  match _bodies nd with
  | None => raise (TypeError "'NoneType' object is not iterable")
  | Some targets =>
    for_each (seq 0 (length targets))
      (λ i, tools ← bodies fuel child;
            for_each tools (λ tool_body, boolean_into_bodies self i tool_body op))
  end.

Definition is_none {A} (o : option A) : bool :=
  match o with None => true | Some _ => false end.

(** ** Union *)

Definition Union_check_coplanarity (fuel : nat) (self child : id) : M unit :=
  nd ← get_node self;
  if is_none (_body nd) then ret tt
  else
    plane ← get_plane fuel self;
    child_plane ← get_plane fuel child;
    if xorb (is_none child_plane) (is_none plane)
    then raise (ValueError "Cannot union a planar entity with a 3d entity")
    else
      match plane, child_plane with
      | Some plane, Some child_plane =>
        if negb (isCoPlanarTo plane child_plane)
        then raise (ValueError "Cannot union planar entities that are non-coplanar")
        else ret tt
      | _, _ => ret tt
      end.

(** [process_child] of [Union.__init__]. *)
Definition Union_init_process_child (fuel : nat) (self child : id) : M unit :=
  Union_check_coplanarity fuel self child;;
  child_bodies ← bodies fuel child;
  for_each child_bodies (λ body,
    nd ← get_node self;
    if is_none (_body nd) then
      modify self (set_body (Some (brep_copy body)));;
      plane ← get_plane fuel child;
      modify self (set_plane plane)
    else boolean_into_body self body UnionBooleanType).

Definition Union_init (fuel : nat) (components : list id) (nm : option string) : M id :=
  self ← alloc (new_component CUnion nm);
  _add_children fuel self components
    (Some (λ child _, Union_init_process_child fuel self child)) tt;;
  ret self.

(** [process_child] of [Union.add]. *)
Definition Union_add_process_child (fuel : nat) (self child : id) : M unit :=
  Union_check_coplanarity fuel self child;;
  child_bodies ← bodies fuel child;
  for_each child_bodies (λ body, boolean_into_body self body UnionBooleanType).

Definition Union_add (fuel : nat) (self : id) (components : list id) : M id :=
  _add_children fuel self components
    (Some (λ child _, Union_add_process_child fuel self child)) tt;;
  ret self.

(** ** Difference *)

Definition has_bodies (nd : Node) : bool :=
  match _bodies nd with
  | Some (_ :: _) => true
  | _ => false
  end.

Definition Difference_check_coplanarity (fuel : nat) (self child : id) : M unit :=
  nd ← get_node self;
  if has_bodies nd then
    plane ← get_plane fuel self;
    child_plane ← get_plane fuel child;
    match plane with
    | None =>
      if is_none child_plane then ret tt
      else raise (ValueError "Cannot subtract a planar entity from a 3d entity")
    | Some plane =>
      match child_plane with
      | Some child_plane =>
        if negb (isCoPlanarTo plane child_plane)
        then raise (ValueError "Cannot subtract planar entities that are non-coplanar")
        else ret tt
      | None => ret tt
      end
    end
  else ret tt.

(** The body shared by [process_child] of [Difference.__init__] and of
    [Intersection.__init__], after the coplanarity check. *)
Definition seed_or_fold (fuel : nat) (self child : id) (op : BooleanTypes) : M unit :=
  nd ← get_node self;
  if is_none (_bodies nd) then
    child_bodies ← bodies fuel child;
    modify self (set_bodies (Some (brep_copy <$> child_bodies)))
  else boolean_each_target fuel self child op.

Definition Difference_init_process_child (fuel : nat) (self child : id) : M unit :=
  Difference_check_coplanarity fuel self child;;
  seed_or_fold fuel self child DifferenceBooleanType.

Definition Difference_init (fuel : nat) (components : list id) (nm : option string)
    : M id :=
  self ← alloc (new_component CDifference nm);
  _add_children fuel self components
    (Some (λ child _, Difference_init_process_child fuel self child)) tt;;
  ret self.

Definition Difference_add_process_child (fuel : nat) (self child : id) : M unit :=
  Difference_check_coplanarity fuel self child;;
  boolean_each_target fuel self child DifferenceBooleanType.

Definition Difference_add (fuel : nat) (self : id) (components : list id) : M id :=
  _add_children fuel self components
    (Some (λ child _, Difference_add_process_child fuel self child)) tt;;
  ret self.

(** ** Intersection *)

(** [_check_coplanarity(child, plane)]: the branch in which bodies are
    present, no plane is established and the child has none falls off
    the end of the function, which returns [None]. *)
Definition Intersection_check_coplanarity (fuel : nat) (self child : id)
    (plane : option Plane) : M (option Plane) :=
  nd ← get_node self;
  if has_bodies nd then
    child_plane ← get_plane fuel child;
    match plane with
    | Some established =>
      match child_plane with
      | Some child_plane =>
        if negb (isCoPlanarTo established child_plane)
        then raise (ValueError "Cannot intersect planar entities that are non-coplanar")
        else ret plane
      | None => ret plane
      end
    | None =>
      match child_plane with
      | Some _ => ret child_plane
      | None => ret None
      end
    end
  else get_plane fuel child.

Definition Intersection_init_process_child (fuel : nat) (self child : id)
    (plane : option Plane) : M (option Plane) :=
  plane ← Intersection_check_coplanarity fuel self child plane;
  seed_or_fold fuel self child IntersectionBooleanType;;
  ret plane.

Definition Intersection_init (fuel : nat) (components : list id) (nm : option string)
    : M id :=
  self ← alloc (new_component CIntersection nm);
  _add_children fuel self components
    (Some (Intersection_init_process_child fuel self)) None;;
  ret self.

Definition Intersection_add_process_child (fuel : nat) (self child : id)
    (plane : option Plane) : M (option Plane) :=
  plane ← Intersection_check_coplanarity fuel self child plane;
  boolean_each_target fuel self child IntersectionBooleanType;;
  ret plane.

Definition Intersection_add (fuel : nat) (self : id) (components : list id) : M id :=
  plane ← get_plane fuel self;
  _add_children fuel self components
    (Some (Intersection_add_process_child fuel self)) plane;;
  ret self.

(** [Loft.__init__] drives the document collaborator (a scratch occurrence
    and a loft feature) and is not modelled; the class [CLoft] takes part
    in the dispatch of [children], [_reset_cache], [get_plane] and
    [_copy_to]. *)

(** ** Leaf shapes *)

Definition new_shape (c : cls) (body : Body) (nm : option string) : Node :=
  set_body (Some body) (new_component c nm).

Definition Box (x y z : Scalar) (nm : option string) : M id :=
  let body := brep_createBox (OrientedBoundingBox3D_create
                (Point3D_create (s_div x s_two) (s_div y s_two) (s_div z s_two))
                _pos_x _pos_y x y z) in
  alloc (new_shape CBox body nm).

Definition Sphere (radius : Scalar) (nm : option string) : M id :=
  alloc (new_shape CSphere (brep_createSphere _origin radius) nm).

(** [Cylinder]: the kernel cannot build a cone whose base radius is zero,
    so that cone is built upside down and turned over: a half turn about
    the x axis (the cells (1,1) and (2,2) set to -1), then a translation
    by the height.  The face indices of the two ends follow. *)
Definition Cylinder (height radius : Scalar) (top_radius : option Scalar)
    (nm : option string) : M id :=
  let minus_one := s_sub s_zero s_one in
  let apex := Point3D_create s_zero s_zero height in
  if bool_decide (radius = s_zero) then
    match top_radius with
    | None => raise (TypeError "createCylinderOrCone: radius is None")
    | Some top =>
      let body := brep_createCylinderOrCone _origin top apex radius in
      let rotation := m_setCell (m_setCell m_create 1 1 minus_one) 2 2 minus_one in
      let translation :=
        m_set_translation m_create (Vector3D_create s_zero s_zero height) in
      let rotation := m_transformBy rotation translation in
      let body := brep_transform body rotation in
      alloc (set_indices None (Some 1) (new_shape CCylinder body nm))
    end
  else
    let body := brep_createCylinderOrCone _origin radius apex
                  (default radius top_radius) in
    if bool_decide (top_radius = Some s_zero)
    then alloc (set_indices (Some 1) None (new_shape CCylinder body nm))
    else alloc (set_indices (Some 1) (Some 2) (new_shape CCylinder body nm)).

Definition Box_bottom_index : nat := 1.
Definition Circle_top_index : nat := 2.

(** [Rect] takes the bottom face of a box of height 1 centred at
    height [.5]. *)
Definition Rect (x y : Scalar) (nm : option string) : M id :=
  let box := brep_createBox (OrientedBoundingBox3D_create
               (Point3D_create (s_div x s_two) (s_div y s_two) (s_div s_one s_two))
               _pos_x _pos_y x y s_one) in
  alloc (new_shape CRect (brep_copy_face box Box_bottom_index) nm).

Definition Circle (radius : Scalar) (nm : option string) : M id :=
  let cylinder := brep_createCylinderOrCone
                    (Point3D_create s_zero s_zero (s_sub s_zero s_one)) radius
                    _origin radius in
  alloc (new_shape CCircle (brep_copy_face cylinder Circle_top_index) nm).

(** ** Mutations of the local transform, as data *)

Inductive mutation :=
  | Translate (tx ty tz : Scalar)
  | Tx (v : Scalar) | Ty (v : Scalar) | Tz (v : Scalar)
  | Rotate (rx ry rz : Scalar) (center : center_arg)
  | Rx (angle : Scalar) (center : center_arg)
  | Ry (angle : Scalar) (center : center_arg)
  | Rz (angle : Scalar) (center : center_arg)
  | Scale (sx sy sz : Scalar) (center : center_arg)
  | Place (x y z : Vector3D).

Definition mutate (fuel : nat) (self : id) (m : mutation) : M id :=
  match m with
  | Translate a b c => translate fuel self a b c
  | Tx v => tx fuel self v
  | Ty v => ty fuel self v
  | Tz v => tz fuel self v
  | Rotate a b c center => rotate fuel self a b c center
  | Rx a center => rx fuel self a center
  | Ry a center => ry fuel self a center
  | Rz a center => rz fuel self a center
  | Scale a b c center => scale fuel self a b c center
  | Place x y z => place fuel self x y z
  end.

(** What a client can do to a tree without adding nodes: mutate a node,
    invalidate its caches, or query its world transform. *)
Inductive action :=
  | Mutate (self : id) (m : mutation)
  | ResetCache (self : id)
  | GetWorldTransform (self : id).

Definition perform (fuel : nat) (a : action) (σ : store) : store :=
  match a with
  | Mutate self m => (mutate fuel self m σ).2
  | ResetCache self => (_reset_cache fuel self σ).2
  | GetWorldTransform self => (_get_world_transform fuel self σ).2
  end.

Definition perform_all (fuel : nat) (actions : list action) (σ : store) : store :=
  foldl (λ σ a, perform fuel a σ) σ actions.
End Component.


(** * Alignment: [Place] and [Translation]

    A [Translation] wraps a [Vector3D] object and mutates it in place, so
    vectors and translations are objects of a heap of their own.  A method
    that ends without a [return] evaluates to [None]. *)
Module Alignment.
Section Alignment.
Context `{Number}.

Record heap := mkHeap {
vectors : list Vector3D;          (* the Vector3D objects *)
translations : list nat           (* the Translation objects: their [_vector] *)
}.

Inductive value :=
| PyNone
| PyTranslation (t : nat).

(** [Translation(vector)]. *)
Definition Translation (vector : nat) (h : heap) : nat * heap :=
(length (translations h), mkHeap (vectors h) (translations h ++ [vector])).

(** [self._vector.setWithArray((f(x), f(y), f(z)))]: [None] when [self]
  is not a translation of the heap. *)
Definition setWithArray_map (f : Scalar → Scalar) (self : nat) (h : heap) : option heap :=
vector ← translations h !! self;
v ← vectors h !! vector;
Some (mkHeap (<[vector := Vector3D_create (f (v_x v)) (f (v_y v)) (f (v_z v))]> (vectors h))
             (translations h)).

Definition __add__ (self : nat) (other : Scalar) (h : heap) : option (value * heap) :=
h' ← setWithArray_map (λ c, s_add c other) self h;
Some (PyTranslation self, h').

Definition __sub__ (self : nat) (other : Scalar) (h : heap) : option (value * heap) :=
h' ← setWithArray_map (λ c, s_sub c other) self h;
Some (PyNone, h').

Definition __mul__ (self : nat) (other : Scalar) (h : heap) : option (value * heap) :=
h' ← setWithArray_map (λ c, s_mul c other) self h;
Some (PyNone, h').

Definition __div__ (self : nat) (other : Scalar) (h : heap) : option (value * heap) :=
h' ← setWithArray_map (λ c, s_div c other) self h;
Some (PyNone, h').

(** The properties [x], [y] and [z] read through to the vector. *)
Definition components (self : nat) (h : heap) : option Vector3D :=
vector ← translations h !! self;
vectors h !! vector.

(** [Place(point)] holds a point and is never mutated. *)
Record Place := Place_create { _point : Point3D }.

Inductive operand :=
| OfPoint (p : Point3D)
| OfNumber (n : Scalar)
| OfPlace (p : Place)
| OfOther.

(** [Place.__eq__]: the vector from this place to the operand, in a
  fresh [Translation]; [None] stands for the [ValueError] on an
  unsupported operand. *)
Definition Place___eq__ (self : Place) (other : operand) (h : heap)
  : option (nat * heap) :=
point ← match other with
        | OfPoint p => Some p
        | OfNumber n => Some (Point3D_create n n n)
        | OfPlace p => Some (_point p)
        | OfOther => None
        end;
let vector := length (vectors h) in
let h := mkHeap (vectors h ++ [vectorTo (_point self) point]) (translations h) in
Some (Translation vector h).
End Alignment.
End Alignment.


(** * A reference kernel

    An executable instance of the interface, used to run the model on
    concrete scenes: integer arithmetic, 4x4 integer matrices, and bodies
    as the terms of the kernel operations that built them. *)
Module Reference.
#[local] Open Scope Z_scope.

#[export] Instance Z_Number : Number := {|
  Scalar := Z;
  s_zero := 0; s_one := 1; s_two := 2;
  s_add := Z.add; s_sub := Z.sub; s_mul := Z.mul; s_div := Z.div;
  s_abs := Z.abs;
  radians := λ degrees, degrees
|}.

Definition matrix := list (list Z).

Definition identity : matrix :=
  [[1; 0; 0; 0]; [0; 1; 0; 0]; [0; 0; 1; 0]; [0; 0; 0; 1]].

Definition cell (m : matrix) (r c : nat) : Z := (m !!! r) !!! c.

Definition build (f : nat → nat → Z) : matrix :=
  (λ r, (λ c, f r c) <$> seq 0 4) <$> seq 0 4.

Definition sumZ (l : list Z) : Z := foldr Z.add 0 l.

Definition mul (a b : matrix) : matrix :=
  build (λ r c, sumZ ((λ k, cell a r k * cell b k c) <$> seq 0 4)).

(** [a.transformBy(b)]: [a] is applied first, then [b]. *)
Definition transformBy (a b : matrix) : matrix := mul b a.

Definition setCell (m : matrix) (r c : nat) (v : Z) : matrix :=
  build (λ r' c', if decide (r' = r ∧ c' = c) then v else cell m r' c').

Definition set_translation (m : matrix) (v : Vector3D) : matrix :=
  setCell (setCell (setCell m 0 3 (v_x v)) 1 3 (v_y v)) 2 3 (v_z v).

Definition minor (i j : nat) (m : matrix) : matrix := delete j <$> delete i m.

Definition sign (k : nat) : Z := if Nat.even k then 1 else -1.

Fixpoint det (n : nat) (m : matrix) : Z :=
  match n with
  | O => 1
  | S n' =>
    sumZ ((λ j, sign j * ((m !!! O) !!! j) * det n' (minor 0 j m)) <$> seq 0 n)
  end.

(** The inverse of a matrix of determinant 1 or -1; any other matrix is
    left as it is, as a failed [invert()] leaves it. *)
Definition invert (m : matrix) : matrix :=
  let d := det 4 m in
  if decide (Z.abs d = 1)
  then build (λ r c, d * sign (r + c) * det 3 (minor c r m))
  else m.

(** Rotations by a multiple of a quarter turn about a coordinate axis
    through [origin]; any other rotation is not representable and
    yields the identity. *)
Definition quarter_turns (degrees : Z) : option (Z * Z) :=
  match degrees mod 360 with
  | 0 => Some (1, 0)
  | 90 => Some (0, 1)
  | 180 => Some (-1, 0)
  | 270 => Some (0, -1)
  | _ => None
  end.

Definition axis_rotation (cs : Z * Z) (axis : Vector3D) : option matrix :=
  let '(c, s) := cs in
  match axis with
  | Vector3D_create 1 0 0 => Some [[1; 0; 0; 0]; [0; c; -s; 0]; [0; s; c; 0]; [0; 0; 0; 1]]
  | Vector3D_create 0 1 0 => Some [[c; 0; s; 0]; [0; 1; 0; 0]; [-s; 0; c; 0]; [0; 0; 0; 1]]
  | Vector3D_create 0 0 1 => Some [[c; -s; 0; 0]; [s; c; 0; 0]; [0; 0; 1; 0]; [0; 0; 0; 1]]
  | _ => None
  end.

Definition setToRotation (_ : matrix) (angle : Z) (axis : Vector3D) (origin : Point3D)
    : matrix :=
  match cs ← quarter_turns angle; axis_rotation cs axis with
  | Some r =>
    let to_origin := set_translation identity
                       (Vector3D_create (- p_x origin) (- p_y origin) (- p_z origin)) in
    let back := set_translation identity (asVector origin) in
    transformBy (transformBy to_origin r) back
  | None => identity
  end.

(** Bodies: the history of kernel calls. *)
Inductive shape :=
  | BoxOf (box : OrientedBoundingBox3D)
  | ConeOf (base : Point3D) (base_radius : Z) (apex : Point3D) (apex_radius : Z)
  | SphereOf (center : Point3D) (radius : Z)
  | FaceOf (body : shape) (index : nat)
  | Transformed (body : shape) (m : matrix)
  | Boolean (op : BooleanTypes) (target tool : shape).

(** Planes: a point and a normal. *)
Definition plane : Type := (Z * Z * Z) * (Z * Z * Z).

Definition apply_point (m : matrix) (p : Z * Z * Z) : Z * Z * Z :=
  let '(x, y, z) := p in
  (cell m 0 0 * x + cell m 0 1 * y + cell m 0 2 * z + cell m 0 3,
   cell m 1 0 * x + cell m 1 1 * y + cell m 1 2 * z + cell m 1 3,
   cell m 2 0 * x + cell m 2 1 * y + cell m 2 2 * z + cell m 2 3).

Definition apply_vector (m : matrix) (p : Z * Z * Z) : Z * Z * Z :=
  let '(x, y, z) := p in
  (cell m 0 0 * x + cell m 0 1 * y + cell m 0 2 * z,
   cell m 1 0 * x + cell m 1 1 * y + cell m 1 2 * z,
   cell m 2 0 * x + cell m 2 1 * y + cell m 2 2 * z).

(** The plane of the first face: the faces this development takes
    ([Rect]'s and [Circle]'s) lie in the plane z = 0 before placement. *)
Fixpoint geometry (body : shape) : plane :=
  match body with
  | Transformed b m =>
    let '(point, normal) := geometry b in
    (apply_point m point, apply_vector m normal)
  | Boolean _ target _ => geometry target
  | _ => ((0, 0, 0), (0, 0, 1))
  end.

Definition coplanar (p q : plane) : bool :=
  let '((px, py, pz), (nx, ny, nz)) := p in
  let '((qx, qy, qz), (mx, my, mz)) := q in
  bool_decide (ny * mz - nz * my = 0 ∧ nz * mx - nx * mz = 0 ∧ nx * my - ny * mx = 0
               ∧ (qx - px) * nx + (qy - py) * ny + (qz - pz) * nz = 0).

(** A crude measure: the box of the first primitive, its centre moved
    by the transforms applied since. *)
Fixpoint measure (body : shape) : OrientedBoundingBox3D :=
  match body with
  | BoxOf box => box
  | ConeOf base r apex r' =>
    OrientedBoundingBox3D_create base _pos_x _pos_y (2 * r) (2 * r) (p_z apex - p_z base)
  | SphereOf c r => OrientedBoundingBox3D_create c _pos_x _pos_y (2 * r) (2 * r) (2 * r)
  | FaceOf b _ => measure b
  | Transformed b m =>
    let box := measure b in
    let '(x, y, z) := apply_point m (p_x (centerPoint box), p_y (centerPoint box),
                                     p_z (centerPoint box)) in
    OrientedBoundingBox3D_create (Point3D_create x y z) (lengthDirection box)
      (widthDirection box) (length_ box) (width_ box) (height_ box)
  | Boolean _ target _ => measure target
  end.

Definition combine (a b : BoundingBox3D) : BoundingBox3D :=
  BoundingBox3D_create
    (Point3D_create (Z.min (p_x (minPoint a)) (p_x (minPoint b)))
                    (Z.min (p_y (minPoint a)) (p_y (minPoint b)))
                    (Z.min (p_z (minPoint a)) (p_z (minPoint b))))
    (Point3D_create (Z.max (p_x (maxPoint a)) (p_x (maxPoint b)))
                    (Z.max (p_y (maxPoint a)) (p_y (maxPoint b)))
                    (Z.max (p_z (maxPoint a)) (p_z (maxPoint b)))).

#[export] Instance kernel : Kernel := {|
  Matrix3D := matrix;
  Body := shape;
  Plane := plane;
  m_create := identity;
  m_transformBy := transformBy;
  m_invert := invert;
  m_set_translation := set_translation;
  m_setCell := setCell;
  m_setToRotation := setToRotation;
  brep_copy := λ body, body;
  brep_copy_face := FaceOf;
  brep_transform := Transformed;
  brep_booleanOperation := λ target tool op, Some (Boolean op target tool);
  brep_createBox := BoxOf;
  brep_createCylinderOrCone := ConeOf;
  brep_createSphere := SphereOf;
  face0_geometry := geometry;
  isCoPlanarTo := coplanar;
  getOrientedBoundingBox := measure;
  bb_combine := combine
|}.

(** Running a computation from the empty store. *)
Definition run {A} (m : M A) : outcome A * store := m [].
Definition translation_matrix (x y z : Z) : matrix :=
  set_translation identity (Vector3D_create x y z).
End Reference.

(** * Specification vocabulary *)
Section Vocabulary.
Context `{Kernel}.

(** What [_reset_cache] does to one node. *)
Definition reset_node (nd : Node) : Node :=
  let nd := clear_caches nd in
  let nd := if is_composite (class_ nd)
            then set_cached_inverse_transform None nd else nd in
  if bool_decide (class_ nd = CIntersection)
  then set_cached_plane None false nd else nd.

(** The children lists of a store, and the parent and local transform of
    each node: the part of the store that the caches are derived from. *)
Definition skeleton (σ : store) : list (list id) := children <$> σ.
Definition frame (σ : store) : list (option id * Matrix3D) :=
  (λ nd, (_parent nd, _local_transform nd)) <$> σ.

Definition child_of (sk : list (list id)) (p c : id) : Prop :=
  ∃ cs, sk !! p = Some cs ∧ c ∈ cs.

(** [descendant σ n m]: [m] is [n] or is reached from [n] through
    [children()]. *)
Definition descendant (σ : store) : id → id → Prop := rtc (child_of (skeleton σ)).

(** The children relation is well founded and closed: the recursion of
    [_reset_cache] terminates on every node. *)
Definition ranked (sk : list (list id)) (h : id → nat) : Prop :=
  ∀ p cs c, sk !! p = Some cs → c ∈ cs → c < length sk ∧ h c < h p.

(** [reset_on P σ σ']: [σ'] is [σ] with exactly the nodes in [P] reset. *)
Definition reset_on (P : id → Prop) (σ σ' : store) : Prop :=
  ∀ m, (P m ∧ σ' !! m = reset_node <$> σ !! m) ∨ (¬ P m ∧ σ' !! m = σ !! m).

(** The world transform of a node as the specification defines it: the
    local transform, composed with the world transform of the parent. *)
Inductive World (fr : list (option id * Matrix3D)) : id → Matrix3D → Prop :=
  | World_root n L :
      fr !! n = Some (None, L) → World fr n L
  | World_child n p L w :
      fr !! n = Some (Some p, L) → World fr p w →
      World fr n (m_transformBy L w).

(** A well-formed store: a forest whose parent links and children lists
    agree, and whose cached world transforms are the specified ones. *)
Record wf_with (h d : id → nat) (σ : store) : Prop := {
  wf_ranked : ranked (skeleton σ) h;
  wf_parent : ∀ n p L, frame σ !! n = Some (Some p, L) →
              d p < d n ∧ child_of (skeleton σ) p n;
  wf_cache : ∀ n nd w, σ !! n = Some nd → _cached_world_transform nd = Some w →
             World (frame σ) n w
}.

Definition wf (σ : store) : Prop := ∃ h d, wf_with h d σ.

(** The matrix of [translate(tx, ty, tz)]. *)
Definition translation_of (v : Vector3D) : Matrix3D :=
  m_set_translation m_create v.

(** The matrix of a rotation by [angle] degrees about [axis] through
    [center], applied only when the angle is not zero. *)
Definition rotated (L : Matrix3D) (angle : Scalar) (axis : Vector3D) (center : Point3D)
    : Matrix3D :=
  if bool_decide (angle ≠ s_zero)
  then m_transformBy L (m_setToRotation m_create (radians angle) axis center)
  else L.

(** The diagonal matrix of [scale(sx, sy, sz)]. *)
Definition scaling_of (sx sy sz : Scalar) : Matrix3D :=
  m_setCell (m_setCell (m_setCell m_create 0 0 sx) 1 1 sy) 2 2 sz.

Definition uniform (sx sy sz : Scalar) : Prop :=
  s_abs sx = s_abs sy ∧ s_abs sy = s_abs sz.

(** The point a [center] argument of [rotate] or [scale] stands for: the
    origin when it is absent, the point when it is one, and for numbers
    the point of the first three, with zero for each one missing. *)
Inductive centered_at : center_arg → Point3D → Prop :=
  | centered_at_none :
      centered_at CenterNone (Point3D_create s_zero s_zero s_zero)
  | centered_at_point p : centered_at (CenterPoint p) p
  | centered_at_no_number :
      centered_at (CenterCoordinates []) (Point3D_create s_zero s_zero s_zero)
  | centered_at_one_number x :
      centered_at (CenterCoordinates [x]) (Point3D_create x s_zero s_zero)
  | centered_at_two_numbers x y :
      centered_at (CenterCoordinates [x; y]) (Point3D_create x y s_zero)
  | centered_at_numbers x y z rest :
      centered_at (CenterCoordinates (x :: y :: z :: rest)) (Point3D_create x y z).

#[global] Instance uniform_dec sx sy sz : Decision (uniform sx sy sz).
Proof. unfold uniform. apply _. Defined.

(** The local transform a mutation leaves in a node whose local transform
    was [L]; [None] when the mutation is refused. *)
Definition mutated_local (mu : mutation) (L : Matrix3D) : option Matrix3D :=
  match mu with
  | Translate a b c => Some (m_transformBy L (translation_of (Vector3D_create a b c)))
  | Tx v => Some (m_transformBy L (translation_of (Vector3D_create v s_zero s_zero)))
  | Ty v => Some (m_transformBy L (translation_of (Vector3D_create s_zero v s_zero)))
  | Tz v => Some (m_transformBy L (translation_of (Vector3D_create s_zero s_zero v)))
  | Rotate a b c center =>
    let p := center_point_of center in
    Some (rotated (rotated (rotated L a _pos_x p) b _pos_y p) c _pos_z p)
  | Rx a center => Some (rotated L a _pos_x (center_point_of center))
  | Ry a center => Some (rotated L a _pos_y (center_point_of center))
  | Rz a center => Some (rotated L a _pos_z (center_point_of center))
  | Scale sx sy sz center =>
    if decide (uniform sx sy sz) then
      let to_center := m_invert (translation_of (asVector (center_point_of center))) in
      Some (m_transformBy
              (m_transformBy (m_transformBy L to_center) (scaling_of sx sy sz))
              (m_invert to_center))
    else None
  | Place x y z =>
    Some (m_transformBy L (translation_of (Vector3D_create (v_x x) (v_y y) (v_z z))))
  end.

(** The invariant that actions maintain: well-formedness, with the same
    ranks, over the same set of nodes. *)
Definition Inv (h d : id → nat) (len : nat) (σ : store) : Prop :=
  wf_with h d σ ∧ length σ = len.

(** The mutations that are carried out: all but a non-uniform [scale]. *)
Definition accepted (mu : mutation) : Prop :=
  match mu with
  | Scale sx sy sz _ => uniform sx sy sz
  | _ => True
  end.

(** A computation whose only exception is the one for a dangling
    reference. *)
Definition only_invalid {A} (m : M A) : Prop :=
  ∀ σ e σ', m σ = (Raise e, σ') → e = InvalidReference.

(** A computation that neither creates nor removes nodes. *)
Definition keeps_length {A} (m : M A) : Prop :=
  ∀ σ r σ', m σ = (r, σ') → length σ' = length σ.

(** [asked_none get σ cs σ']: asked in order from [σ], every child of
    [cs] answered that it has no plane, leaving [σ']. *)
Inductive asked_none (get : id → M (option Plane)) : store → list id → store → Prop :=
  | asked_nil σ : asked_none get σ [] σ
  | asked_cons σ c σ1 cs σ2 :
      get c σ = (Ok None, σ1) → asked_none get σ1 cs σ2 →
      asked_none get σ (c :: cs) σ2.

(** The errors of the coplanarity checks. *)
Definition union_mixed : exn :=
  ValueError "Cannot union a planar entity with a 3d entity".
Definition union_non_coplanar : exn :=
  ValueError "Cannot union planar entities that are non-coplanar".

(** The [_body] attribute of a node of the store. *)
Definition body_of (σ : store) (n : id) : option Body :=
  nd ← σ !! n; _body nd.

(** The body [Box(x, y, z)] asks the kernel for. *)
Definition box_body (x y z : Scalar) : Body :=
  brep_createBox (OrientedBoundingBox3D_create
    (Point3D_create (s_div x s_two) (s_div y s_two) (s_div z s_two))
    _pos_x _pos_y x y z).
End Vocabulary.

Section AlignmentVocabulary.
Context `{Number}.

(** The vector a [Translation] operator leaves behind. *)
Definition map_vector (f : Scalar → Scalar) (v : Vector3D) : Vector3D :=
  Vector3D_create (f (v_x v)) (f (v_y v)) (f (v_z v)).
End AlignmentVocabulary.

(** * Vocabulary of the queries, copies and caches *)
Section QueryVocabulary.
Context `{Kernel}.

(** The attributes of a node that are not caches: its class and name, its
    links, its local transform and the geometry it owns. *)
Definition persistent (nd : Node)
    : cls * option string * option id * Matrix3D * list id
      * option Body * option (list Body) * option Plane
      * option nat * option nat :=
  (class_ nd, name nd, _parent nd, _local_transform nd, _children nd,
   _body nd, _bodies nd, _plane nd, _bottom_index nd, _top_index nd).

(** A computation that writes nothing but caches, whatever its outcome. *)
Definition cache_only {A} (m : M A) : Prop :=
  ∀ σ r σ', m σ = (r, σ') → persistent <$> σ' = persistent <$> σ.

(** What [_raw_bodies] hands to the kernel when every body is there. *)
Definition raw_bodies (nd : Node) : option (list Body) :=
  match class_ nd with
  | CDifference | CIntersection => _bodies nd
  | _ => b ← _body nd; Some [b]
  end.

(** [bodies()] places a copy of each raw body by the world transform. *)
Definition placed (W : Matrix3D) (bs : list Body) : list Body :=
  (λ b, brep_transform (brep_copy b) W) <$> bs.

(** The box [_get_exact_bounding_box] folds from the placed bodies. *)
Definition measured (bs : list Body) : option BoundingBox3D := combine_boxes None bs.

(** The axis-aligned box of a body: the kernel measures its oriented box
    along the X and Y axes, and the corners are the center of that box
    minus and plus half its length, width and height. *)
Definition aligned_box (b : Body) : BoundingBox3D :=
  let oriented := getOrientedBoundingBox b in
  let half (extent : Scalar) := s_div extent s_two in
  BoundingBox3D_create
    (Point3D_create
       (s_sub (p_x (centerPoint oriented)) (half (length_ oriented)))
       (s_sub (p_y (centerPoint oriented)) (half (width_ oriented)))
       (s_sub (p_z (centerPoint oriented)) (half (height_ oriented))))
    (Point3D_create
       (s_add (p_x (centerPoint oriented)) (half (length_ oriented)))
       (s_add (p_y (centerPoint oriented)) (half (width_ oriented)))
       (s_add (p_z (centerPoint oriented)) (half (height_ oriented)))).

(** The box of a list of bodies: none for no body, else the box of the
    first combined in turn with the box of each of the others. *)
Definition combined_box (bs : list Body) : option BoundingBox3D :=
  match bs with
  | [] => None
  | b :: rest => Some (foldl (λ bb e, bb_combine bb (aligned_box e)) (aligned_box b) rest)
  end.

(** The node [copy()] creates for a leaf shape whose world transform is
    [W] and whose body is [b]: a root with that transform as its local
    transform, empty caches, a copy of the body and, for a [Cylinder], the
    face indices of the original. *)
Definition leaf_copy (nd : Node) (W : Matrix3D) (b : Body) : Node :=
  mkNode (class_ nd) (name nd) None W None None None [] None
         (Some (brep_copy b)) None None None false
         (if decide (class_ nd = CCylinder) then _bottom_index nd else None)
         (if decide (class_ nd = CCylinder) then _top_index nd else None).

(** The error of iterating over [None]. *)
Definition not_iterable : exn := TypeError "'NoneType' object is not iterable".

(** A coherent store: a well-formed tree in which every cache that is
    filled holds what a fresh computation would give.  Cached bodies are
    the raw bodies placed by the world transform, a cached bounding box is
    the measure of those, and the cached inverse of a composite is the
    inverse of its world transform. *)
Record coherent (h d : id → nat) (σ : store) : Prop := {
  coh_wf : wf_with h d σ;
  coh_bodies : ∀ n nd bs, σ !! n = Some nd → _cached_bodies nd = Some bs →
    ∃ W raw, World (frame σ) n W ∧ raw_bodies nd = Some raw ∧ bs = placed W raw;
  coh_box : ∀ n nd bb, σ !! n = Some nd → _cached_bounding_box nd = Some bb →
    ∃ W raw, World (frame σ) n W ∧ raw_bodies nd = Some raw
             ∧ measured (placed W raw) = Some bb;
  coh_inverse : ∀ n nd inv, σ !! n = Some nd → is_composite (class_ nd) = true →
    _cached_inverse_transform nd = Some inv →
    ∃ W, World (frame σ) n W ∧ inv = m_invert W
}.

(** What a client can ask of a tree without adding nodes or folding
    bodies: the actions above, and the queries that fill the other
    caches. *)
Inductive request :=
  | Do (a : action)
  | AskBodies (self : id)
  | AskSize (self : id)
  | AskMin (self : id)
  | AskMax (self : id)
  | AskMid (self : id)
  | AskInverseTransform (self : id).

Definition serve (fuel : nat) (r : request) (σ : store) : store :=
  match r with
  | Do a => perform fuel a σ
  | AskBodies self => (bodies fuel self σ).2
  | AskSize self => (size fuel self σ).2
  | AskMin self => (min fuel self σ).2
  | AskMax self => (max fuel self σ).2
  | AskMid self => (mid fuel self σ).2
  | AskInverseTransform self => (_inverse_transform fuel self σ).2
  end.

Definition serve_all (fuel : nat) (requests : list request) (σ : store) : store :=
  foldl (λ σ r, serve fuel r σ) σ requests.

(** The attributes that place a node in the tree, with its cached
    inverse transform. *)
Definition shape_of (nd : Node)
    : option id * Matrix3D * cls * list id * option Matrix3D :=
  (_parent nd, _local_transform nd, class_ nd, _children nd,
   _cached_inverse_transform nd).

(** A tree that is well formed but for the cached world transforms of
    the nodes in [X], which are childless: the state of a composite while
    [_add_children] runs, [X] being the children attached so far. *)
Record wf_but (X : id → Prop) (h d : id → nat) (σ : store) : Prop := {
  wfb_ranked : ranked (skeleton σ) h;
  wfb_parent : ∀ n p L, frame σ !! n = Some (Some p, L) →
               d p < d n ∧ child_of (skeleton σ) p n;
  wfb_cache : ∀ n nd w, ¬ X n → σ !! n = Some nd →
              _cached_world_transform nd = Some w → World (frame σ) n w;
  wfb_leaves : ∀ x, X x → skeleton σ !! x = Some []
}.

(** A computation that may fill caches and fold bodies, but leaves the
    tree as it is and every cached world transform it writes valid. *)
Definition safe {A} (m : M A) : Prop :=
  ∀ X h d σ r σ', wf_but X h d σ → m σ = (r, σ') →
    wf_but X h d σ' ∧ shape_of <$> σ' = shape_of <$> σ.

(** What [_add_children] does to the parent link and the local transform
    of a child it attaches to [u], and of a child its callback rejects. *)
Definition attach (u : id) (inverse : Matrix3D) (fr : list (option id * Matrix3D))
    (c : id) : list (option id * Matrix3D) :=
  alter (λ pl, (Some u, m_transformBy pl.2 inverse)) c fr.
Definition displace (inverse : Matrix3D) (fr : list (option id * Matrix3D))
    (c : id) : list (option id * Matrix3D) :=
  alter (λ pl, (pl.1, m_transformBy pl.2 inverse)) c fr.

(** The composite that receives the children: its cached inverse
    transform, if any, is the inverse of its world transform [W]. *)
Definition host (u : id) (W : Matrix3D) (σ : store) : Prop :=
  ∃ nd, σ !! u = Some nd ∧ is_composite (class_ nd) = true
        ∧ ∀ inv, _cached_inverse_transform nd = Some inv → inv = m_invert W.

(** A node that can be attached as it is: it has no parent and no
    child. *)
Definition detached_leaf (σ : store) (c : id) : Prop :=
  ∃ nd, σ !! c = Some nd ∧ _parent nd = None ∧ children nd = [].

(** The leaf shapes that are not planar: [get_plane] is not overridden
    for them and answers [None]. *)
Definition is_solid (c : cls) : bool :=
  match c with
  | CBox | CCylinder | CSphere => true
  | _ => false
  end.

(** The kernel operation a composite folds its components with. *)
Definition operation (k : cls) : BooleanTypes :=
  match k with
  | CUnion => UnionBooleanType
  | CDifference => DifferenceBooleanType
  | _ => IntersectionBooleanType
  end.

(** The geometry a composite has accumulated: nothing yet, or one body.
    A [Union] keeps it in [_body], a [Difference] and an [Intersection]
    in [_bodies]. *)
Definition accumulated (nd : Node) : option (option Body) :=
  match class_ nd with
  | CUnion => Some (_body nd)
  | CDifference | CIntersection =>
    match _bodies nd with
    | None => Some None
    | Some [t] => Some (Some t)
    | Some _ => None
    end
  | _ => None
  end.

(** One component folded into the accumulated geometry: the first is
    copied, the others are tools of the kernel operation, which may
    fail. *)
Definition fold_step (op : BooleanTypes) (acc : option Body) (tool : Body)
    : option Body :=
  match acc with
  | None => Some (brep_copy tool)
  | Some target => brep_booleanOperation target tool op
  end.

Fixpoint fold_from (op : BooleanTypes) (acc : option Body) (tools : list Body)
    : option (option Body) :=
  match tools with
  | [] => Some acc
  | tool :: rest => acc' ← fold_step op acc tool; fold_from op (Some acc') rest
  end.

(** A solid leaf without a parent, and its body as its new parent will
    see it: copied and placed by its local transform composed with the
    inverse transform of that parent. *)
Definition placed_leaf (σ : store) (inverse : Matrix3D) (c : id) (p : Body) : Prop :=
  ∃ nd b, σ !! c = Some nd ∧ _parent nd = None ∧ is_solid (class_ nd) = true
          ∧ _body nd = Some b
          ∧ p = brep_transform (brep_copy b)
                  (m_transformBy (_local_transform nd) inverse).

(** The composite [u] of class [k] while it folds: what it has
    accumulated, over children that are solid leaves. *)
Definition folding (k : cls) (u : id) (acc : option Body) (σ : store) : Prop :=
  ∃ nd, σ !! u = Some nd ∧ class_ nd = k ∧ accumulated nd = Some acc
        ∧ ∀ m, m ∈ _children nd →
            ∃ ndm, σ !! m = Some ndm ∧ is_solid (class_ ndm) = true.

(** What a callback of [_add_children] does when it folds the solid leaf
    [c] into the composite [u]: it returns its state unchanged, fills
    caches of [c], and replaces the geometry of [u].  The callbacks of
    [add] need a composite that has geometry already. *)
Definition folds {St} (seeded : bool) (k : cls) (u : id) (f : id → St → M St)
    (st : St) : Prop :=
  ∀ σ c ndc acc b t',
    folding k u acc σ → (seeded = true → is_Some acc) → c ≠ u →
    σ !! c = Some ndc →
    is_solid (class_ ndc) = true → _body ndc = Some b → _parent ndc = None →
    _cached_world_transform ndc = None → _cached_bodies ndc = None →
    fold_step (operation k) acc
      (brep_transform (brep_copy b) (_local_transform ndc)) = Some t' →
    ∃ ndu ndu' ndc',
      σ !! u = Some ndu
      ∧ f c st σ = (Ok st, <[u := ndu']> (<[c := ndc']> σ))
      ∧ shape_of ndu' = shape_of ndu ∧ accumulated ndu' = Some (Some t')
      ∧ shape_of ndc' = shape_of ndc ∧ persistent ndc' = persistent ndc.





End QueryVocabulary.

Section PlaceVocabulary.
Context `{Number}.
Import Alignment.

(** The point an operand of [Place.__eq__] stands for: a point is itself,
    a number is the point with that number for each coordinate, a place
    is its point. *)
Inductive denotes : operand → Point3D → Prop :=
  | denotes_point p : denotes (OfPoint p) p
  | denotes_number n : denotes (OfNumber n) (Point3D_create n n n)
  | denotes_place p : denotes (OfPlace p) (_point p).
End PlaceVocabulary.

(** * Example scenes in the reference kernel *)
Module Examples.
Import Reference.
#[local] Open Scope Z_scope.

(** Two boxes under a union, the second box and the union moved, and the
    bounding box of the first box queried so that caches are populated. *)
Definition scene : store := Eval vm_compute in
  (run (a ← Box 2 2 2 None;
        b ← Box 2 2 2 None;
        tx 5%nat b 3;;
        u ← Union_init 5%nat [a; b] None;
        tz 5%nat u 1;;
        min 5%nat a)).2.

Definition rank (n : id) : nat := if decide (n = 2%nat) then 1%nat else 0%nat.
Definition depth (n : id) : nat := if decide (n = 2%nat) then 0%nat else 1%nat.

Definition scene_actions : list action :=
  [ Mutate 2%nat (Rz 90 CenterNone);
    GetWorldTransform 1%nat;
    Mutate 1%nat (Scale 2 (-2) 2 (CenterCoordinates [1]));
    Mutate 1%nat (Scale 1 2 3 CenterNone);
    ResetCache 0%nat;
    Mutate 0%nat (Place (Vector3D_create 4 0 0) _null_vector _null_vector);
    GetWorldTransform 0%nat ].

Definition about_x1 : center_arg := CenterCoordinates [1].

Definition node_b : Node :=
  Eval vm_compute in default (new_component CBox None) (scene !! 1%nat).

Definition box222 : shape :=
  BoxOf (OrientedBoundingBox3D_create (Point3D_create 1 1 1) _pos_x _pos_y 2 2 2).

Definition ground : plane := ((0, 0, 0), (0, 0, 1)).

(** A Box and two coplanar Rects under an Intersection. *)
Definition crossing : store := Eval vm_compute in
  (run (b ← Box 2 2 2 None; r1 ← Rect 2 2 None; r2 ← Rect 2 2 None;
        tx 5%nat r2 1;;
        Intersection_init 5%nat [b; r1; r2] None)).2.
Definition crossing_asked : store := Eval vm_compute in
  (get_plane 4%nat 1%nat crossing).2.
Definition crossing_node : Node := Eval vm_compute in
  default (new_component CIntersection None) (crossing !! 3%nat).

(** The translation from the point (1, 2, 3) to the point (4, 6, 8). *)
Definition aligned : nat * Alignment.heap := Eval vm_compute in
  default (0%nat, Alignment.mkHeap [] [])
    (Alignment.Place___eq__
       (Alignment.Place_create (Point3D_create 1 2 3))
       (Alignment.OfPlace (Alignment.Place_create (Point3D_create 4 6 8)))
       (Alignment.mkHeap [] [])).
End Examples.

(** * Queries and copies on the example scene *)
Module SceneQueries.
Import Reference Examples.
#[local] Open Scope Z_scope.

(** The world transforms of the union and of its second box. *)
Definition world_u : matrix := translation_matrix 0 0 1.
Definition world_b : matrix := translation_matrix 3 0 1.

(** The scene after [min()] of the second box. *)
Definition scene_measured : store := Eval vm_compute in (min 5%nat 1%nat scene).2.

Definition node_u : Node :=
  Eval vm_compute in default (new_component CUnion None) (scene !! 2%nat).

Definition scene_requests : list request :=
  [ AskMin 1%nat;
    Do (Mutate 2%nat (Tx 4));
    AskBodies 0%nat;
    AskInverseTransform 2%nat;
    Do (Mutate 1%nat (Rz 90 CenterNone));
    AskSize 1%nat;
    Do (GetWorldTransform 0%nat) ].

Definition node_b_served : Node :=
  Eval vm_compute in
    default (new_component CBox None) (serve_all 5%nat scene_requests scene !! 1%nat).

(** A root that owns two bodies, as a Difference does whose first
    component had two, moved by 1 along z; and the box of its two placed
    bodies. *)
Definition twin : Node :=
  Eval vm_compute in
    set_local_transform (translation_matrix 0 0 1)
      (set_bodies (Some [box222; Transformed box222 (translation_matrix 3 0 0)])
         (new_component CDifference None)).
Definition twin_store : store := [twin].
Definition corners_twin : BoundingBox3D :=
  BoundingBox3D_create (Point3D_create 0 0 1) (Point3D_create 5 2 3).

(** Two translations, the second made by [Place.__eq__]. *)
Definition two_translations : Alignment.heap :=
  Alignment.mkHeap [Vector3D_create 1 1 1] [0%nat].
End SceneQueries.

(** * Attaching to the example scene *)
Module AttachScenes.
Import Reference Examples SceneQueries.
#[local] Open Scope Z_scope.

(** The scene with one more box, which has no parent yet. *)
Definition scene_with_box : store := Eval vm_compute in (Box 2 2 2 None scene).2.

(** That box added to the union of the scene. *)
Definition scene_joined : store :=
  Eval vm_compute in (Union_add 5%nat 2%nat [3%nat] scene_with_box).2.

(** A Difference built from that box. *)
Definition scene_cut : store :=
  Eval vm_compute in (Difference_init 5%nat [3%nat] None scene_with_box).2.

(** The scene with a rectangle, which the union of two boxes refuses. *)
Definition scene_with_rect : store := Eval vm_compute in (Rect 2 2 None scene).2.
Definition scene_refused : store :=
  Eval vm_compute in (Union_add 5%nat 2%nat [3%nat] scene_with_rect).2.
End AttachScenes.

(** * Folding bodies in the example scene *)
Module FoldScenes.
Import Reference Examples SceneQueries AttachScenes.
#[local] Open Scope Z_scope.

(** The scene with a box and a sphere that have no parent yet, the
    sphere moved. *)
Definition scene_with_solids : store :=
  Eval vm_compute in ((s ← Sphere 1 None; tx 5%nat s 1) scene_with_box).2.

(** The bodies of the box and of the sphere as a new root sees them. *)
Definition solids_placed : list shape :=
  Eval vm_compute in
    [Transformed box222 (m_transformBy identity (m_invert identity));
     Transformed (SphereOf (Point3D_create 0 0 0) 1)
       (m_transformBy (translation_matrix 1 0 0) (m_invert identity))].

(** The box as the union of the scene sees it, and the body of that
    union. *)
Definition box_placed : list shape :=
  Eval vm_compute in
    [Transformed box222 (m_transformBy identity (m_invert world_u))].
Definition body_u : shape :=
  Eval vm_compute in default box222 (_body node_u).
End FoldScenes.

(** * Differences of a planar and of a solid target *)
Module CheckScenes.
Import Reference Examples.
#[local] Open Scope Z_scope.




End CheckScenes.

(** * The monad *)
Section Monad.
Context `{Kernel}.
Lemma run_bind {A B} (m : M A) (k : A → M B) σ a σ' :
  m σ = (Ok a, σ') → (m ≫= k) σ = k a σ'.
Proof. intros E. unfold mbind, M_bind, bind. by rewrite E. Qed.

Lemma run_bind_raise {A B} (m : M A) (k : A → M B) σ e σ' :
  m σ = (Raise e, σ') → (m ≫= k) σ = (Raise e, σ').
Proof. intros E. unfold mbind, M_bind, bind. by rewrite E. Qed.

Lemma run_get_node σ n nd : σ !! n = Some nd → get_node n σ = (Ok nd, σ).
Proof. intros E. unfold get_node. by rewrite E. Qed.

Lemma run_modify σ n nd f :
  σ !! n = Some nd → modify n f σ = (Ok tt, <[n := f nd]> σ).
Proof. intros E. unfold modify. by rewrite E. Qed.

Lemma run_modify_invalid σ n f :
  σ !! n = None → modify n f σ = (Raise InvalidReference, σ).
Proof. intros E. unfold modify. by rewrite E. Qed.
End Monad.

(** * Cache invalidation *)
Section Reset.
Context `{Kernel}.
Implicit Types (σ : store) (nd : Node).

Lemma children_reset_node nd : children (reset_node nd) = children nd.
Proof. unfold reset_node. repeat case_match; reflexivity. Qed.

Lemma reset_node_idemp nd : reset_node (reset_node nd) = reset_node nd.
Proof. destruct nd as [c]. destruct c; reflexivity. Qed.

Lemma frame_reset_node nd :
  (_parent (reset_node nd), _local_transform (reset_node nd))
  = (_parent nd, _local_transform nd).
Proof. unfold reset_node. repeat case_match; reflexivity. Qed.

Lemma reset_node_caches nd :
  _cached_world_transform (reset_node nd) = None
  ∧ _cached_bounding_box (reset_node nd) = None
  ∧ _cached_bodies (reset_node nd) = None.
Proof. unfold reset_node. repeat case_match; done. Qed.

Lemma skeleton_lookup σ m : skeleton σ !! m = children <$> σ !! m.
Proof. apply list_lookup_fmap. Qed.

Lemma frame_lookup σ m :
  frame σ !! m = (λ nd, (_parent nd, _local_transform nd)) <$> σ !! m.
Proof. apply list_lookup_fmap. Qed.

Lemma reset_on_skeleton P σ σ' : reset_on P σ σ' → skeleton σ' = skeleton σ.
Proof.
  intros R. apply list_eq. intros m. rewrite !skeleton_lookup.
  destruct (R m) as [[_ ->]|[_ ->]]; [|done].
  destruct (σ !! m); simpl; [|done]. by rewrite children_reset_node.
Qed.

Lemma reset_on_frame P σ σ' : reset_on P σ σ' → frame σ' = frame σ.
Proof.
  intros R. apply list_eq. intros m. rewrite !frame_lookup.
  destruct (R m) as [[_ ->]|[_ ->]]; [|done].
  destruct (σ !! m); simpl; [|done]. by rewrite frame_reset_node.
Qed.

Lemma reset_on_refl (P : id → Prop) σ : (∀ m, ¬ P m) → reset_on P σ σ.
Proof. intros N m. right. split; [apply N | done]. Qed.

Lemma reset_on_trans (P Q : id → Prop) σ σ1 σ2 :
  reset_on P σ σ1 → reset_on Q σ1 σ2 → reset_on (λ m, P m ∨ Q m) σ σ2.
Proof.
  intros R1 R2 m.
  destruct (R1 m) as [[p E1]|[np E1]], (R2 m) as [[q E2]|[nq E2]];
    rewrite E2, E1.
  - left. split; [by left|]. destruct (σ !! m); simpl; [|done].
    by rewrite reset_node_idemp.
  - left. split; [by left | done].
  - left. split; [by right | done].
  - right. split; [tauto | done].
Qed.

Lemma reset_on_equiv (P Q : id → Prop) σ σ' :
  (∀ m, P m ↔ Q m) → reset_on P σ σ' → reset_on Q σ σ'.
Proof.
  intros E R m. destruct (R m) as [[p ?]|[np ?]]; [left | right];
    (split; [|done]); by rewrite <- E.
Qed.

Lemma descendant_rank sk h n m :
  ranked sk h → rtc (child_of sk) n m → h m ≤ h n ∧ (n < length sk → m < length sk).
Proof.
  intros R D. induction D as [|x y z [cs [E I]] _ IH]; [done|].
  destruct (R _ _ _ E I). split; [lia | tauto].
Qed.

Lemma for_each_reset fuel h cs : 
  (∀ σ n, ranked (skeleton σ) h → n < length σ → h n < fuel →
      ∃ σ', _reset_cache fuel n σ = (Ok tt, σ')
            ∧ reset_on (descendant σ n) σ σ') →
  ∀ σ, ranked (skeleton σ) h →
    (∀ c, c ∈ cs → c < length σ ∧ h c < fuel) →
    ∃ σ', for_each cs (_reset_cache fuel) σ = (Ok tt, σ')
          ∧ reset_on (λ m, ∃ c, c ∈ cs ∧ descendant σ c m) σ σ'.
Proof.
  intros IH. induction cs as [|c cs IHcs]; intros σ R V.
  - exists σ. split; [done|]. apply reset_on_refl. intros m [c [I _]].
    by apply elem_of_nil in I.
  - destruct (V c) as [Vc Hc]; [by left|].
    destruct (IH σ c R Vc Hc) as [σ1 [E1 R1]].
    pose proof (reset_on_skeleton _ _ _ R1) as S1.
    destruct (IHcs σ1) as [σ2 [E2 R2]].
    { by rewrite S1. }
    { intros c' I. destruct (V c') as [? ?]; [by right|]. split; [|done].
      rewrite <- (length_fmap children σ1). fold (skeleton σ1). rewrite S1.
      unfold skeleton. by rewrite length_fmap. }
    exists σ2. split.
    { simpl. by rewrite (run_bind _ _ _ _ _ E1). }
    eapply reset_on_equiv; [|eapply reset_on_trans; [exact R1 | exact R2]].
    intros m. simpl. unfold descendant. rewrite S1. split.
    + intros [?|[c' [I D]]]; [exists c; split; [by left | done]|].
      exists c'. split; [by right | done].
    + intros [c' [I D]]. apply elem_of_cons in I as [->|I]; [by left|].
      right. by exists c'.
Qed.


Lemma skeleton_insert σ n nd nd' :
  σ !! n = Some nd → children nd' = children nd →
  skeleton (<[n := nd']> σ) = skeleton σ.
Proof.
  intros E C. unfold skeleton. rewrite list_fmap_insert, C.
  apply list_insert_id. by rewrite list_lookup_fmap, E.
Qed.

Lemma frame_insert σ n nd nd' :
  σ !! n = Some nd → _parent nd' = _parent nd →
  _local_transform nd' = _local_transform nd →
  frame (<[n := nd']> σ) = frame σ.
Proof.
  intros E P L. unfold frame. rewrite list_fmap_insert, P, L.
  apply list_insert_id. by rewrite list_lookup_fmap, E.
Qed.

Lemma skeleton_length σ : length (skeleton σ) = length σ.
Proof. apply length_fmap. Qed.

(** The assignments that the overrides of [_reset_cache] add after the
    recursion. *)
Lemma reset_tail σ n nd :
  σ !! n = Some (clear_caches nd) →
  (when (is_composite (class_ (clear_caches nd)))
        (modify n (set_cached_inverse_transform None));;
   when (bool_decide (class_ (clear_caches nd) = CIntersection))
        (modify n (set_cached_plane None false))) σ
  = (Ok tt, <[n := reset_node nd]> σ).
Proof.
  intros E. pose proof (lookup_lt_Some _ _ _ E) as Hn.
  destruct nd as [c]. unfold reset_node.
  destruct c; simpl in *;
    unfold mbind, M_bind, bind, when, ret, modify; simpl;
    rewrite ?E; simpl; rewrite ?list_lookup_insert_eq by done; simpl;
    rewrite ?list_insert_insert_eq; try done;
    by rewrite list_insert_id.
Qed.

Lemma _reset_cache_spec h fuel : ∀ σ n,
  ranked (skeleton σ) h → n < length σ → h n < fuel →
  ∃ σ', _reset_cache fuel n σ = (Ok tt, σ') ∧ reset_on (descendant σ n) σ σ'.
Proof.
  induction fuel as [|fuel IH]; intros σ n R V Hf; [lia|].
  destruct (lookup_lt_is_Some_2 σ n V) as [nd E].
  set (σ1 := <[n := clear_caches nd]> σ).
  assert (S1 : skeleton σ1 = skeleton σ) by (by eapply skeleton_insert).
  assert (E1 : σ1 !! n = Some (clear_caches nd))
    by (by apply list_lookup_insert_eq).
  assert (C : skeleton σ !! n = Some (children nd))
    by (by rewrite skeleton_lookup, E).
  destruct (for_each_reset fuel h (children nd) IH σ1) as [σ2 [E2 R2]].
  { by rewrite S1. }
  { intros c I. destruct (R _ _ _ C I) as [? ?]. split; [|lia].
    unfold σ1. rewrite length_insert. by rewrite skeleton_length in *. }
  assert (N2 : ¬ ∃ c, c ∈ children nd ∧ descendant σ1 c n).
  { intros [c [I D]]. destruct (R _ _ _ C I) as [_ ?].
    unfold descendant in D. rewrite S1 in D.
    destruct (descendant_rank _ _ _ _ R D). lia. }
  assert (E2n : σ2 !! n = Some (clear_caches nd)).
  { destruct (R2 n) as [[? _]|[_ ->]]; [done | exact E1]. }
  exists (<[n := reset_node nd]> σ2). split.
  - simpl. rewrite (run_bind _ _ _ _ _ (run_modify _ _ _ _ E)).
    fold σ1. rewrite (run_bind _ _ _ _ _ (run_get_node _ _ _ E1)).
    change (children (clear_caches nd)) with (children nd).
    rewrite (run_bind _ _ _ _ _ E2). by apply reset_tail.
  - intros m. destruct (decide (m = n)) as [->|Hm].
    + left. split; [apply rtc_refl|].
      rewrite E. apply list_lookup_insert_eq. by eapply lookup_lt_Some.
    + rewrite list_lookup_insert_ne by done.
      assert (Em : σ1 !! m = σ !! m)
        by (unfold σ1; by rewrite list_lookup_insert_ne).
      destruct (R2 m) as [[[c [I D]] ->]|[N ->]]; rewrite Em.
      * left. split; [|done]. eapply rtc_l; [by exists (children nd)|].
        unfold descendant in D. by rewrite S1 in D.
      * right. split; [|done]. intros D. apply rtc_inv in D as [?|[c [[cs [? I]] D]]];
          [done|]. apply N. exists c. split; [congruence|].
        unfold descendant. by rewrite S1.
Qed.
End Reset.

(** * Mutations of the local transform *)
Section Mutate.
Context `{Kernel}.
Implicit Types (σ : store) (nd : Node).

Lemma set_local_transform_twice L1 L2 nd :
  set_local_transform L2 (set_local_transform L1 nd) = set_local_transform L2 nd.
Proof. reflexivity. Qed.

Lemma set_local_transform_same nd :
  set_local_transform (_local_transform nd) nd = nd.
Proof. by destruct nd. Qed.

Lemma run_transform_local σ n nd L t :
  σ !! n = Some nd →
  transform_local n t (<[n := set_local_transform L nd]> σ)
  = (Ok tt, <[n := set_local_transform (m_transformBy L t) nd]> σ).
Proof.
  intros E. unfold transform_local.
  erewrite run_modify
    by (apply list_lookup_insert_eq; by eapply lookup_lt_Some).
  by rewrite list_insert_insert_eq.
Qed.

Lemma run_when_transform_local σ n nd L angle axis center :
  σ !! n = Some nd →
  when (bool_decide (angle ≠ s_zero))
       (transform_local n (m_setToRotation m_create (radians angle) axis center))
       (<[n := set_local_transform L nd]> σ)
  = (Ok tt, <[n := set_local_transform (rotated L angle axis center) nd]> σ).
Proof.
  intros E. unfold when, rotated. case_bool_decide; [|done].
  by apply run_transform_local.
Qed.

Lemma rotated_zero L axis center : rotated L s_zero axis center = L.
Proof. unfold rotated. by rewrite bool_decide_false by (intros N; by apply N). Qed.

Lemma run_reset_relocated h fuel σ n nd L :
  ranked (skeleton σ) h → σ !! n = Some nd → h n < fuel →
  ∃ σ', _reset_cache fuel n (<[n := set_local_transform L nd]> σ) = (Ok tt, σ')
        ∧ reset_on (descendant σ n) (<[n := set_local_transform L nd]> σ) σ'.
Proof.
  intros R E Hf.
  assert (S1 : skeleton (<[n := set_local_transform L nd]> σ) = skeleton σ)
    by (by eapply skeleton_insert).
  destruct (_reset_cache_spec h fuel (<[n := set_local_transform L nd]> σ) n)
    as [σ' [E' R']].
  - by rewrite S1.
  - rewrite length_insert. by eapply lookup_lt_Some.
  - done.
  - exists σ'. split; [done|]. unfold descendant in *. by rewrite S1 in R'.
Qed.

(** Every mutation either is refused, leaving the store as it was, or
    replaces the local transform and then resets the subtree. *)
Lemma mutate_spec h fuel σ n nd mu :
  ranked (skeleton σ) h → σ !! n = Some nd → h n < fuel →
  match mutated_local mu (_local_transform nd) with
  | None => mutate fuel n mu σ = (Raise (ValueError scale_message), σ)
  | Some L =>
    ∃ σ', mutate fuel n mu σ = (Ok n, σ')
          ∧ reset_on (descendant σ n) (<[n := set_local_transform L nd]> σ) σ'
  end.
Proof.
  intros R E Hf.
  assert (Eσ : σ = <[n := set_local_transform (_local_transform nd) nd]> σ).
  { rewrite set_local_transform_same. symmetry. by apply list_insert_id. }
  assert (translate_ok : ∀ a b c, ∃ σ',
    translate fuel n a b c σ = (Ok n, σ')
    ∧ reset_on (descendant σ n)
        (<[n := set_local_transform
                  (m_transformBy (_local_transform nd)
                     (translation_of (Vector3D_create a b c))) nd]> σ) σ').
  { intros a b c.
    destruct (run_reset_relocated h fuel σ n nd
                (m_transformBy (_local_transform nd)
                   (translation_of (Vector3D_create a b c))) R E Hf)
      as [σ' [E' R']].
    exists σ'. split; [|done]. unfold translate.
    rewrite Eσ at 1. erewrite run_bind by (by apply run_transform_local).
    by erewrite run_bind by exact E'. }
  assert (rotate_ok : ∀ a b c center, ∃ σ',
    rotate fuel n a b c center σ = (Ok n, σ')
    ∧ reset_on (descendant σ n)
        (<[n := set_local_transform
                  (rotated (rotated (rotated (_local_transform nd) a _pos_x
                     (center_point_of center)) b _pos_y (center_point_of center))
                     c _pos_z (center_point_of center)) nd]> σ) σ').
  { intros a b c center.
    edestruct (run_reset_relocated h fuel σ n nd) as [σ' [E' R']]; [done..|].
    exists σ'. split; [|exact R']. unfold rotate.
    rewrite Eσ at 1.
    erewrite run_bind by (by apply run_when_transform_local).
    erewrite run_bind by (by apply run_when_transform_local).
    erewrite run_bind by (by apply run_when_transform_local).
    by erewrite run_bind by exact E'. }
  destruct mu as [a b c|v|v|v|a b c center|a center|a center|a center
                  |sx sy sz center|x y z]; simpl.
  - apply translate_ok.
  - apply translate_ok.
  - apply translate_ok.
  - apply translate_ok.
  - apply rotate_ok.
  - destruct (rotate_ok a s_zero s_zero center) as [σ' [E' R']].
    rewrite !rotated_zero in R'. by exists σ'.
  - destruct (rotate_ok s_zero a s_zero center) as [σ' [E' R']].
    rewrite !rotated_zero in R'. by exists σ'.
  - destruct (rotate_ok s_zero s_zero a center) as [σ' [E' R']].
    rewrite !rotated_zero in R'. by exists σ'.
  - unfold scale. destruct (decide (uniform sx sy sz)) as [[U1 U2]|N].
    + rewrite !bool_decide_false by (intros N; by apply N). simpl.
      edestruct (run_reset_relocated h fuel σ n nd) as [σ' [E' R']]; [done..|].
      exists σ'. split; [|exact R'].
      rewrite Eσ at 1.
      erewrite run_bind by (by apply run_transform_local).
      erewrite run_bind by (by apply run_transform_local).
      erewrite run_bind by (by apply run_transform_local).
      by erewrite run_bind by exact E'.
    + destruct (decide (s_abs sx = s_abs sy)) as [U1|U1].
      * rewrite (bool_decide_false _ (λ N', N' U1)).
        rewrite bool_decide_true; [done|]. intros U2. by apply N.
      * by rewrite bool_decide_true.
  - destruct (run_reset_relocated h fuel σ n nd
                (m_transformBy (_local_transform nd)
                   (translation_of (Vector3D_create (v_x x) (v_y y) (v_z z)))) R E Hf)
      as [σ' [E' R']].
    exists σ'. split; [|done]. unfold place.
    rewrite Eσ at 1. erewrite run_bind by (by apply run_transform_local).
    by erewrite run_bind by exact E'.
Qed.
End Mutate.

(** * World transforms *)
Section WorldTransform.
Context `{Kernel}.
Implicit Types (σ : store) (nd : Node).

Lemma frame_length σ : length (frame σ) = length σ.
Proof. apply length_fmap. Qed.

Lemma frame_lookup_Some σ n nd :
  σ !! n = Some nd → frame σ !! n = Some (_parent nd, _local_transform nd).
Proof. intros E. by rewrite frame_lookup, E. Qed.

Lemma World_det fr n w w' : World fr n w → World fr n w' → w = w'.
Proof.
  intros W. revert w'. induction W as [n L E|n p L w E W IH]; intros w' W';
    inversion W' as [n' L' E'|n' p' L' w'' E' W'']; subst;
    rewrite E in E'; simplify_eq; [done|].
  f_equal. by apply IH.
Qed.

Lemma wf_with_same_cache h d σ n nd w :
  wf_with h d σ → σ !! n = Some nd → World (frame σ) n w →
  wf_with h d (<[n := set_cached_world_transform (Some w) nd]> σ).
Proof.
  intros [R P C] E W.
  assert (S1 : skeleton (<[n := set_cached_world_transform (Some w) nd]> σ)
               = skeleton σ) by (by eapply skeleton_insert).
  assert (F1 : frame (<[n := set_cached_world_transform (Some w) nd]> σ)
               = frame σ) by (by eapply frame_insert).
  split; rewrite ?S1, ?F1; [done..|].
  intros m nd' w' E' Cw. destruct (decide (m = n)) as [->|Hm].
  - rewrite list_lookup_insert_eq in E' by (by eapply lookup_lt_Some).
    by simplify_eq/=.
  - rewrite list_lookup_insert_ne in E' by done. by eapply C.
Qed.

Lemma _get_world_transform_spec h d fuel : ∀ σ n,
  wf_with h d σ → n < length σ → d n < fuel →
  ∃ w σ', _get_world_transform fuel n σ = (Ok w, σ')
          ∧ World (frame σ) n w
          ∧ wf_with h d σ' ∧ frame σ' = frame σ ∧ skeleton σ' = skeleton σ.
Proof.
  induction fuel as [|fuel IH]; intros σ n W V Hf; [lia|].
  destruct (lookup_lt_is_Some_2 σ n V) as [nd E].
  simpl. rewrite (run_bind _ _ _ _ _ (run_get_node _ _ _ E)).
  destruct (_cached_world_transform nd) as [w|] eqn:Cw.
  { exists w, σ. split_and!; try done. by eapply (wf_cache _ _ _ W). }
  pose proof (frame_lookup_Some _ _ _ E) as Fn.
  destruct (_parent nd) as [p|] eqn:Pn.
  - destruct (wf_parent _ _ _ W _ _ _ Fn) as [Hd [cs [Ecs _]]].
    assert (Vp : p < length σ).
    { rewrite <- skeleton_length. by eapply lookup_lt_Some. }
    destruct (IH σ p W Vp ltac:(lia)) as (wp & σ1 & E1 & W1 & Wf1 & F1 & S1).
    assert (V1 : n < length σ1).
    { rewrite <- frame_length, F1, frame_length. done. }
    destruct (lookup_lt_is_Some_2 σ1 n V1) as [nd1 En1].
    assert (Wn : World (frame σ1) n (m_transformBy (_local_transform nd) wp)).
    { rewrite F1. by eapply World_child. }
    exists (m_transformBy (_local_transform nd) wp),
           (<[n := set_cached_world_transform
                     (Some (m_transformBy (_local_transform nd) wp)) nd1]> σ1).
    split_and!.
    + rewrite (run_bind _ _ _ _ _ (run_bind _ _ _ _ _ E1)).
      unfold mret, M_ret, ret at 1.
      by rewrite (run_bind _ _ _ _ _ (run_modify _ _ _ _ En1)).
    + by rewrite <- F1.
    + by apply wf_with_same_cache.
    + rewrite <- F1. by eapply frame_insert.
    + rewrite <- S1. by eapply skeleton_insert.
  - assert (Wn : World (frame σ) n (_local_transform nd)) by (by apply World_root).
    exists (_local_transform nd),
           (<[n := set_cached_world_transform (Some (_local_transform nd)) nd]> σ).
    split_and!.
    + unfold mret, M_ret.
      rewrite (run_bind _ (λ transform, _) σ (_local_transform nd) σ) by done.
      by rewrite (run_bind _ _ _ _ _ (run_modify _ _ _ _ E)).
    + done.
    + by apply wf_with_same_cache.
    + by eapply frame_insert.
    + by eapply skeleton_insert.
Qed.

Lemma reset_on_wf h d P σ σ' : wf_with h d σ → reset_on P σ σ' → wf_with h d σ'.
Proof.
  intros [R Pa C] Ro.
  split; rewrite ?(reset_on_skeleton _ _ _ Ro), ?(reset_on_frame _ _ _ Ro);
    [done..|].
  intros m nd' w E' Cw. destruct (Ro m) as [[_ Em]|[_ Em]]; rewrite E' in Em.
  - destruct (σ !! m) as [nd|]; simpl in Em; [|done].
    injection Em as ->.
    destruct (reset_node_caches nd) as [N _]. congruence.
  - by eapply C.
Qed.

(** A cached world transform outside the subtree of [n] does not depend
    on the local transform of [n]. *)
Lemma World_outside h d σ n nd L m w :
  wf_with h d σ → σ !! n = Some nd →
  World (frame σ) m w → ¬ descendant σ n m →
  World (<[n := (_parent nd, L)]> (frame σ)) m w.
Proof.
  intros W E Wm. induction Wm as [m Lm Em|m p Lm w Em Wp IH]; intros N.
  - apply World_root. rewrite list_lookup_insert_ne; [done|].
    intros ->. apply N, rtc_refl.
  - eapply World_child.
    + rewrite list_lookup_insert_ne; [done|]. intros ->. apply N, rtc_refl.
    + apply IH. intros D. apply N. eapply rtc_r; [exact D|].
      by destruct (wf_parent _ _ _ W _ _ _ Em).
Qed.

Lemma relocate_reset_wf h d σ n nd L σ' :
  wf_with h d σ → σ !! n = Some nd →
  reset_on (descendant σ n) (<[n := set_local_transform L nd]> σ) σ' →
  wf_with h d σ'.
Proof.
  intros W E Ro.
  assert (S1 : skeleton σ' = skeleton σ).
  { rewrite (reset_on_skeleton _ _ _ Ro). by eapply skeleton_insert. }
  assert (F1 : frame σ' = <[n := (_parent nd, L)]> (frame σ)).
  { rewrite (reset_on_frame _ _ _ Ro). unfold frame.
    by rewrite list_fmap_insert. }
  split; rewrite ?S1, ?F1.
  - apply W.
  - intros m p L' Em. destruct (decide (m = n)) as [->|Hm].
    + rewrite list_lookup_insert_eq in Em
        by (rewrite frame_length; by eapply lookup_lt_Some).
      assert (Hp : _parent nd = Some p) by congruence.
      eapply (wf_parent _ _ _ W).
      rewrite (frame_lookup_Some _ _ _ E). by rewrite Hp.
    + rewrite list_lookup_insert_ne in Em by done.
      by eapply (wf_parent _ _ _ W).
  - intros m nd' w E' Cw. destruct (Ro m) as [[_ Em]|[N Em]]; rewrite E' in Em.
    + destruct (<[n := set_local_transform L nd]> σ !! m) as [nd1|];
        simpl in Em; [|done].
      injection Em as ->.
      destruct (reset_node_caches nd1) as [N _]. congruence.
    + assert (Hm : n ≠ m) by (intros ->; apply N, rtc_refl).
      rewrite list_lookup_insert_ne in Em by done.
      eapply World_outside; [done..| |done]. by eapply (wf_cache _ _ _ W).
Qed.
End WorldTransform.

(** * Sequences of actions *)
Section Actions.
Context `{Kernel}.
Implicit Types (σ : store) (nd : Node).

Lemma _reset_cache_invalid fuel σ n :
  σ !! n = None → (_reset_cache fuel n σ).2 = σ.
Proof.
  intros E. destruct fuel; [done|]. simpl.
  by rewrite (run_bind_raise _ _ _ _ _ (run_modify_invalid _ _ _ E)).
Qed.

Lemma _get_world_transform_invalid fuel σ n :
  σ !! n = None → (_get_world_transform fuel n σ).2 = σ.
Proof.
  intros E. destruct fuel; [done|]. simpl.
  unfold mbind, M_bind, bind, get_node. by rewrite E.
Qed.

Lemma mutate_invalid fuel σ n mu :
  σ !! n = None → (mutate fuel n mu σ).2 = σ.
Proof.
  intros E. pose proof (_reset_cache_invalid fuel σ n E) as Er.
  destruct (_reset_cache fuel n σ) as [[[]|e|] σr] eqn:Eq; simpl in Er; subst σr;
  destruct mu as [a b c|v|v|v|a b c center|a center|a center|a center
                  |a b c center|x y z]; simpl;
    unfold tx, ty, tz, rx, ry, rz, translate, rotate, scale, place, when,
      transform_local, mbind, M_bind, bind, raise, modify;
    repeat case_bool_decide; simpl; rewrite ?E, ?Eq; try done.
Qed.

Lemma length_of_skeleton σ σ' : skeleton σ' = skeleton σ → length σ' = length σ.
Proof. intros S. by rewrite <- !skeleton_length, S. Qed.

Lemma perform_Inv h d len fuel a σ :
  (∀ m, m < len → h m < fuel ∧ d m < fuel) →
  Inv h d len σ → Inv h d len (perform fuel a σ).
Proof.
  intros B [W Len]. destruct a as [n mu|n|n]; simpl.
  - destruct (σ !! n) as [nd|] eqn:E; [|by rewrite mutate_invalid].
    assert (Hn : n < len) by (rewrite <- Len; by eapply lookup_lt_Some).
    pose proof (mutate_spec h fuel σ n nd mu (wf_ranked _ _ _ W) E
                  (proj1 (B n Hn))) as Sp.
    destruct (mutated_local mu (_local_transform nd)) as [L|].
    + destruct Sp as [σ' [-> Ro]]. simpl. split.
      * by eapply relocate_reset_wf.
      * rewrite <- Len. apply length_of_skeleton.
        rewrite (reset_on_skeleton _ _ _ Ro). by eapply skeleton_insert.
    + by rewrite Sp.
  - destruct (σ !! n) as [nd|] eqn:E; [|by rewrite _reset_cache_invalid].
    assert (Hn : n < len) by (rewrite <- Len; by eapply lookup_lt_Some).
    destruct (_reset_cache_spec h fuel σ n (wf_ranked _ _ _ W)) as [σ' [-> Ro]];
      [lia | by apply B |].
    simpl. split; [by eapply reset_on_wf|].
    rewrite <- Len. apply length_of_skeleton. by eapply reset_on_skeleton.
  - destruct (σ !! n) as [nd|] eqn:E; [|by rewrite _get_world_transform_invalid].
    assert (Hn : n < len) by (rewrite <- Len; by eapply lookup_lt_Some).
    destruct (_get_world_transform_spec h d fuel σ n W) as (w & σ' & -> & _ & W' & _ & S');
      [lia | by apply B |].
    simpl. split; [done|]. rewrite <- Len. by apply length_of_skeleton.
Qed.

Lemma perform_all_Inv h d len fuel actions : ∀ σ,
  (∀ m, m < len → h m < fuel ∧ d m < fuel) →
  Inv h d len σ → Inv h d len (perform_all fuel actions σ).
Proof.
  unfold perform_all. induction actions as [|a actions IH]; intros σ B I; [done|].
  simpl. apply IH; [done|]. by apply perform_Inv.
Qed.

Lemma bound_exists (f g : nat → nat) (len : nat) :
  ∃ B, ∀ m, m < len → f m < B ∧ g m < B.
Proof.
  induction len as [|len [B HB]]; [exists 0; lia|].
  exists (S (B + f len + g len)). intros m Hm.
  destruct (decide (m = len)) as [->|]; [lia|].
  destruct (HB m); lia.
Qed.

(** In a well-formed store the world transform satisfies its defining
    equations. *)
Lemma world_equations h d fuel σ N nd :
  wf_with h d σ → (∀ m, m < length σ → h m < fuel ∧ d m < fuel) →
  σ !! N = Some nd →
  match _parent nd with
  | None => (_get_world_transform fuel N σ).1 = Ok (_local_transform nd)
  | Some P =>
    ∃ wP, (_get_world_transform fuel P σ).1 = Ok wP
          ∧ (_get_world_transform fuel N σ).1
            = Ok (m_transformBy (_local_transform nd) wP)
  end.
Proof.
  intros W B E.
  assert (VN : N < length σ) by (by eapply lookup_lt_Some).
  destruct (_get_world_transform_spec h d fuel σ N W VN) as (w & σ1 & E1 & W1 & _);
    [by apply B|].
  pose proof (frame_lookup_Some _ _ _ E) as F.
  destruct (_parent nd) as [P|] eqn:Pn.
  - destruct (wf_parent _ _ _ W _ _ _ F) as [_ [cs [Ecs _]]].
    assert (VP : P < length σ).
    { rewrite <- skeleton_length. by eapply lookup_lt_Some. }
    destruct (_get_world_transform_spec h d fuel σ P W VP) as (wP & σ2 & E2 & W2 & _);
      [by apply B|].
    exists wP. rewrite E1, E2. split; [done|]. simpl. f_equal.
    eapply World_det; [exact W1|]. by eapply World_child.
  - rewrite E1. simpl. f_equal. eapply World_det; [exact W1|]. by apply World_root.
Qed.
End Actions.

(** * Construction *)
Section Construction.
Context `{Kernel}.
Implicit Types (σ : store) (nd : Node).

Lemma wf_empty : wf [].
Proof.
  exists (λ _, 0), (λ _, 0). split.
  - intros p cs c E. simpl in E. by rewrite lookup_nil in E.
  - intros n p L E. simpl in E. by rewrite lookup_nil in E.
  - intros n nd w E. by rewrite lookup_nil in E.
Qed.

Lemma World_grow fr extra n w : World fr n w → World (fr ++ extra) n w.
Proof.
  induction 1 as [n L E|n p L w E _ IH].
  - apply World_root. by apply lookup_app_l_Some.
  - eapply World_child; [by apply lookup_app_l_Some | done].
Qed.

(** A new node without parent, children or caches keeps the store well
    formed: this is the state every leaf constructor leaves. *)
Lemma wf_alloc_leaf σ nd :
  wf σ → _parent nd = None → children nd = [] →
  _cached_world_transform nd = None → wf (σ ++ [nd]).
Proof.
  intros (h & d & [R P C]) Pn Cn Wn. exists h, d.
  assert (S1 : skeleton (σ ++ [nd]) = skeleton σ ++ [[]]).
  { unfold skeleton. by rewrite fmap_app, <- Cn. }
  assert (F1 : frame (σ ++ [nd]) = frame σ ++ [(None, _local_transform nd)]).
  { unfold frame. by rewrite fmap_app, <- Pn. }
  split; rewrite ?S1, ?F1.
  - intros p cs c E I. rewrite length_app. simpl.
    apply lookup_app_Some in E as [E|[_ E]].
    + destruct (R _ _ _ E I). split; [lia | done].
    + apply list_lookup_singleton_Some in E as [_ <-]. by apply elem_of_nil in I.
  - intros n p L E. apply lookup_app_Some in E as [E|[_ E]].
    + destruct (P _ _ _ E) as [? [cs [Ecs I]]]. split; [done|].
      exists cs. split; [by apply lookup_app_l_Some | done].
    + by apply list_lookup_singleton_Some in E as [_ ?].
  - intros n nd' w E Cw. apply lookup_app_Some in E as [E|[_ E]].
    + apply World_grow. by eapply C.
    + apply list_lookup_singleton_Some in E as [_ <-]. congruence.
Qed.

Lemma wf_Box σ x y z nm : wf σ → wf (Box x y z nm σ).2.
Proof. intros W. by apply wf_alloc_leaf. Qed.

Lemma wf_Sphere σ r nm : wf σ → wf (Sphere r nm σ).2.
Proof. intros W. by apply wf_alloc_leaf. Qed.

Lemma wf_Rect σ x y nm : wf σ → wf (Rect x y nm σ).2.
Proof. intros W. by apply wf_alloc_leaf. Qed.

Lemma wf_Circle σ r nm : wf σ → wf (Circle r nm σ).2.
Proof. intros W. by apply wf_alloc_leaf. Qed.
End Construction.

(** * Transforms and caches: the main results *)
Section Transforms.
Context `{Kernel}.
Implicit Types (σ : store) (nd : Node).

Lemma accepted_mutated_local mu L : accepted mu → is_Some (mutated_local mu L).
Proof.
  destruct mu as [| | | | | | | |sx sy sz center|]; simpl; try by eexists.
  intros U. by rewrite decide_True.
Qed.

(** C1: in a well-formed tree, after any sequence of mutations
    (translate, rotate, scale, place and their single-axis forms), cache
    invalidations and world-transform queries, the world transform of
    every node with a parent is its local transform composed with the
    world transform of the parent, and the world transform of a node
    without a parent is its local transform. *)
Theorem world_transform_composes (σ0 : store) (actions : list action) :
  wf σ0 →
  ∃ fuel0, ∀ fuel, fuel0 ≤ fuel →
    ∀ N nd, perform_all fuel actions σ0 !! N = Some nd →
      match _parent nd with
      | None =>
        (_get_world_transform fuel N (perform_all fuel actions σ0)).1
        = Ok (_local_transform nd)
      | Some P =>
        ∃ wP,
          (_get_world_transform fuel P (perform_all fuel actions σ0)).1 = Ok wP
          ∧ (_get_world_transform fuel N (perform_all fuel actions σ0)).1
            = Ok (m_transformBy (_local_transform nd) wP)
      end.
Proof.
  intros (h & d & W).
  destruct (bound_exists h d (length σ0)) as [B HB].
  exists B. intros fuel Hf N nd E.
  assert (HB' : ∀ m, m < length σ0 → h m < fuel ∧ d m < fuel).
  { intros m Hm. destruct (HB m Hm). lia. }
  destruct (perform_all_Inv h d (length σ0) fuel actions σ0 HB') as [W' Len];
    [by split|].
  eapply world_equations; [exact W' | by rewrite Len | done].
Qed.


Lemma only_invalid_bind {A B} (m : M A) (k : A → M B) :
  only_invalid m → (∀ a, only_invalid (k a)) → only_invalid (m ≫= k).
Proof.
  intros Hm Hk σ e σ' E. unfold mbind, M_bind, bind in E.
  destruct (m σ) as [[a|e'|] σ1] eqn:E1; simplify_eq.
  - by eapply Hk.
  - by eapply Hm.
Qed.

Lemma only_invalid_ret {A} (a : A) : only_invalid (mret a).
Proof. intros σ e σ' E. discriminate E. Qed.

Lemma only_invalid_modify n f : only_invalid (modify n f).
Proof.
  intros σ e σ' E. unfold modify in E. destruct (σ !! n); by simplify_eq.
Qed.

Lemma only_invalid_get_node n : only_invalid (get_node n).
Proof.
  intros σ e σ' E. unfold get_node in E. destruct (σ !! n); by simplify_eq.
Qed.

Lemma only_invalid_when b (m : M unit) : only_invalid m → only_invalid (when b m).
Proof. destruct b; [done|]. intros _. apply (only_invalid_ret tt). Qed.

Lemma only_invalid_for_each {A} (f : A → M unit) l :
  (∀ a, only_invalid (f a)) → only_invalid (for_each l f).
Proof.
  intros Hf. induction l as [|a l IH]; [apply (only_invalid_ret tt)|].
  simpl. by apply only_invalid_bind.
Qed.

Lemma only_invalid_reset fuel : ∀ n, only_invalid (_reset_cache fuel n).
Proof.
  induction fuel as [|fuel IH]; intros n; [by intros σ e σ' E|].
  simpl. apply only_invalid_bind; [apply only_invalid_modify|]. intros _.
  apply only_invalid_bind; [apply only_invalid_get_node|]. intros nd.
  apply only_invalid_bind; [by apply only_invalid_for_each|]. intros _.
  apply only_invalid_bind; intros;
    apply only_invalid_when, only_invalid_modify.
Qed.

Lemma centered_at_point_of center p :
  centered_at center p → center_point_of center = p.
Proof. by destruct 1 as [|[]| | | |]. Qed.

(** C7: for every node and every center, [scale] raises the error for a
    non-uniform scale exactly when |sx|, |sy| and |sz| are not all equal,
    and then leaves the store as it was; otherwise, on a node of a tree,
    the local transform becomes the old one composed with the inverse of
    the translation to the center point, then with the diagonal scale,
    then with the translation to the center point, and the caches of the
    node are cleared.  The center point is the point given, the origin
    when none is given, and for a list of numbers the point of its first
    three, zero standing for each one missing; every center argument
    stands for a point. *)
Theorem scale_uniform_only (fuel : nat) σ (n : id) (sx sy sz : Scalar)
    (center : center_arg) :
  ((scale fuel n sx sy sz center σ).1 = Raise (ValueError scale_message)
   ↔ ¬ uniform sx sy sz)
  ∧ (¬ uniform sx sy sz → (scale fuel n sx sy sz center σ).2 = σ)
  ∧ (uniform sx sy sz →
     ∀ (h : id → nat) nd (p : Point3D),
       ranked (skeleton σ) h → σ !! n = Some nd → h n < fuel →
       centered_at center p →
       let T := translation_of (Vector3D_create (p_x p) (p_y p) (p_z p)) in
       m_invert (m_invert T) = T →
       ∃ σ' nd',
         scale fuel n sx sy sz center σ = (Ok n, σ')
         ∧ σ' !! n = Some nd'
         ∧ _local_transform nd'
           = m_transformBy
               (m_transformBy (m_transformBy (_local_transform nd) (m_invert T))
                              (scaling_of sx sy sz)) T
         ∧ _cached_world_transform nd' = None
         ∧ _cached_bounding_box nd' = None
         ∧ _cached_bodies nd' = None)
  ∧ ∃ p, centered_at center p.
Proof.
  assert (Refused : ¬ uniform sx sy sz →
            scale fuel n sx sy sz center σ = (Raise (ValueError scale_message), σ)).
  { intros N. unfold scale.
    destruct (decide (s_abs sx = s_abs sy)) as [U1|U1].
    - rewrite (bool_decide_false _ (λ N', N' U1)).
      rewrite bool_decide_true; [done|]. intros U2. by apply N.
    - by rewrite bool_decide_true. }
  split_and!.
  - split; [|intros N; by rewrite Refused].
    intros E [U1 U2].
    assert (OI : only_invalid (scale fuel n sx sy sz center)).
    { unfold scale. rewrite !bool_decide_false by (intros N; by apply N). simpl.
      unfold transform_local.
      repeat (apply only_invalid_bind; [apply only_invalid_modify|]; intros _).
      apply only_invalid_bind; [apply only_invalid_reset|]. intros _.
      apply (only_invalid_ret n). }
    destruct (scale fuel n sx sy sz center σ) as [[a|e|] σ'] eqn:Eq;
      simpl in E; try discriminate E.
    injection E as ->. by apply OI in Eq.
  - intros N. by rewrite Refused.
  - intros U h nd p R E Hf Cp T HT.
    pose proof (mutate_spec h fuel σ n nd (Scale sx sy sz center) R E Hf) as Sp.
    simpl in Sp. rewrite decide_True in Sp by done.
    rewrite (centered_at_point_of _ _ Cp) in Sp.
    change (asVector p) with (Vector3D_create (p_x p) (p_y p) (p_z p)) in Sp.
    destruct Sp as [σ' [Em Ro]].
    destruct (Ro n) as [[_ En]|[N _]]; [|destruct N; apply rtc_refl].
    rewrite list_lookup_insert_eq in En by (by eapply lookup_lt_Some).
    eexists σ', _. split_and!; [done | exact En | ..].
    + rewrite (f_equal snd (frame_reset_node _) : _local_transform (reset_node _) = _).
      simpl. subst T. by rewrite HT.
    + apply reset_node_caches.
    + apply reset_node_caches.
    + apply reset_node_caches.
  - destruct center as [|p|[|x [|y [|z rest]]]]; eexists; constructor.
Qed.
End Transforms.

(** * Planes *)
Section Planes.
Context `{Kernel}.
Implicit Types (σ : store) (nd : Node).

Lemma keeps_length_ret {A} (a : A) : keeps_length (mret a).
Proof. intros σ r σ' E. by injection E as _ <-. Qed.

Lemma keeps_length_raise {A} e : keeps_length (raise (A:=A) e).
Proof. intros σ r σ' E. by injection E as _ <-. Qed.

Lemma keeps_length_bind {A B} (m : M A) (k : A → M B) :
  keeps_length m → (∀ a, keeps_length (k a)) → keeps_length (m ≫= k).
Proof.
  intros Hm Hk σ r σ' E. unfold mbind, M_bind, bind in E.
  destruct (m σ) as [[a|e|] σ1] eqn:E1.
  - rewrite (Hk _ _ _ _ E). by eapply Hm.
  - injection E as _ <-. by eapply Hm.
  - injection E as _ <-. by eapply Hm.
Qed.

Lemma keeps_length_get_node n : keeps_length (get_node n).
Proof.
  intros σ r σ' E. unfold get_node in E.
  destruct (σ !! n); by injection E as _ <-.
Qed.

Lemma keeps_length_modify n f : keeps_length (modify n f).
Proof.
  intros σ r σ' E. unfold modify in E.
  destruct (σ !! n); injection E as _ <-; [apply length_insert | done].
Qed.

Lemma keeps_length_mapM {A B} (f : A → M B) l :
  (∀ a, keeps_length (f a)) → keeps_length (mapM f l).
Proof.
  intros Hf. induction l as [|a l IH]; simpl; [apply (keeps_length_ret [])|].
  apply keeps_length_bind; [done|]. intros b.
  apply keeps_length_bind; [done|]. intros bs. apply (keeps_length_ret (b :: bs)).
Qed.

Lemma keeps_length_get_world fuel : ∀ n, keeps_length (_get_world_transform fuel n).
Proof.
  induction fuel as [|fuel IH]; intros n; [by intros σ r σ' [= _ <-]|].
  simpl. apply keeps_length_bind; [apply keeps_length_get_node|]. intros nd.
  destruct (_cached_world_transform nd); [apply keeps_length_ret|].
  apply keeps_length_bind.
  - destruct (_parent nd); [|apply keeps_length_ret].
    apply keeps_length_bind; [apply IH|]. intros. apply keeps_length_ret.
  - intros w. apply keeps_length_bind; [apply keeps_length_modify|].
    intros. apply keeps_length_ret.
Qed.

Lemma keeps_length_bodies fuel n : keeps_length (bodies fuel n).
Proof.
  unfold bodies. apply keeps_length_bind; [apply keeps_length_get_node|].
  intros nd. destruct (_cached_bodies nd); [apply keeps_length_ret|].
  apply keeps_length_bind; [apply keeps_length_get_world|]. intros w.
  apply keeps_length_bind.
  { unfold _raw_bodies. apply keeps_length_bind; [apply keeps_length_get_node|].
    intros nd'. repeat case_match;
      first [apply keeps_length_ret | apply keeps_length_raise]. }
  intros raw. apply keeps_length_bind.
  { apply keeps_length_mapM. intros [b|]; simpl;
      [apply keeps_length_ret | apply keeps_length_raise]. }
  intros bs. apply keeps_length_bind; [apply keeps_length_modify|].
  intros. apply keeps_length_ret.
Qed.

Lemma keeps_length_first_plane get cs :
  (∀ c, keeps_length (get c)) → keeps_length (first_plane get cs).
Proof.
  intros Hg. induction cs as [|c cs IH]; simpl; [apply keeps_length_ret|].
  apply keeps_length_bind; [done|]. intros [p|]; [apply keeps_length_ret | done].
Qed.

Lemma keeps_length_get_plane fuel : ∀ n, keeps_length (get_plane fuel n).
Proof.
  induction fuel as [|fuel IH]; intros n; [by intros σ r σ' [= _ <-]|].
  simpl. apply keeps_length_bind; [apply keeps_length_get_node|]. intros nd.
  assert (Hb : keeps_length
                 (body ← _cached_body fuel n; mret (Some (face0_geometry body)))).
  { apply keeps_length_bind; [|intros; apply keeps_length_ret].
    unfold _cached_body. apply keeps_length_bind; [apply keeps_length_bodies|].
    intros [|b bs]; [apply keeps_length_raise | apply keeps_length_ret]. }
  assert (Hc : keeps_length
                 match children nd with
                 | [] => mret None
                 | child :: _ => get_plane fuel child
                 end).
  { destruct (children nd); [apply keeps_length_ret | apply IH]. }
  destruct (class_ nd); try done; try apply keeps_length_ret.
  destruct (_cached_plane_populated nd); [apply keeps_length_ret|].
  apply keeps_length_bind; [by apply keeps_length_first_plane|]. intros p.
  apply keeps_length_bind; [apply keeps_length_modify|].
  intros. apply keeps_length_ret.
Qed.

Lemma asked_none_length get σ cs σ' :
  (∀ c, keeps_length (get c)) → asked_none get σ cs σ' → length σ' = length σ.
Proof.
  intros Hg A. induction A as [|σ c σ1 cs σ2 E _ IH]; [done|].
  rewrite IH. by eapply Hg.
Qed.

Lemma first_plane_none get σ cs σ' :
  asked_none get σ cs σ' → first_plane get cs σ = (Ok None, σ').
Proof.
  induction 1 as [|σ c σ1 cs σ2 E _ IH]; [done|].
  simpl. by rewrite (run_bind _ _ _ _ _ E).
Qed.

Lemma first_plane_found get σ cs1 c cs2 σ1 σ2 p :
  asked_none get σ cs1 σ1 → get c σ1 = (Ok (Some p), σ2) →
  first_plane get (cs1 ++ c :: cs2) σ = (Ok (Some p), σ2).
Proof.
  intros A E. induction A as [|σ c' σ1 cs σ1' E' _ IH]; simpl.
  - by rewrite (run_bind _ _ _ _ _ E).
  - rewrite (run_bind _ _ _ _ _ E'). by apply IH.
Qed.

(** C6: [Intersection.get_plane] answers from its cache when the cache is
    populated; otherwise it asks the children in insertion order, answers
    with the first plane that is not null, or with null when every child
    answered null, and caches the answer.  The coplanarity check, run with
    no plane established on a child that has no plane, returns null and
    raises nothing.  Every [_reset_cache] of the Intersection, which ends
    its constructor, [add] and every mutation, empties that cache. *)
Theorem intersection_plane_is_first (fuel : nat) σ (self : id) nd :
  σ !! self = Some nd → class_ nd = CIntersection →
  (_cached_plane_populated nd = true →
     get_plane (S fuel) self σ = (Ok (_cached_plane nd), σ))
  ∧ (_cached_plane_populated nd = false →
     (∀ cs1 c cs2 σ1 σ2 p,
        _children nd = cs1 ++ c :: cs2 →
        asked_none (get_plane fuel) σ cs1 σ1 →
        get_plane fuel c σ1 = (Ok (Some p), σ2) →
        ∃ nd2, σ2 !! self = Some nd2
          ∧ get_plane (S fuel) self σ
            = (Ok (Some p), <[self := set_cached_plane (Some p) true nd2]> σ2))
     ∧ (∀ σ1,
        asked_none (get_plane fuel) σ (_children nd) σ1 →
        ∃ nd1, σ1 !! self = Some nd1
          ∧ get_plane (S fuel) self σ
            = (Ok None, <[self := set_cached_plane None true nd1]> σ1)))
  ∧ (∀ child σ1,
       get_plane fuel child σ = (Ok None, σ1) →
       Intersection_check_coplanarity fuel self child None σ = (Ok None, σ1))
  ∧ (∀ (h : id → nat) fuel',
       ranked (skeleton σ) h → h self < fuel' →
       ∃ σ' nd', _reset_cache fuel' self σ = (Ok tt, σ')
         ∧ σ' !! self = Some nd'
         ∧ _cached_plane_populated nd' = false
         ∧ _children nd' = _children nd).
Proof.
  intros E C. pose proof (lookup_lt_Some _ _ _ E) as V.
  assert (Ch : children nd = _children nd) by (unfold children; by rewrite C).
  split_and!; [| | |
    intros h fuel' R Hf;
    destruct (_reset_cache_spec h fuel' σ self R V Hf) as [σ' [Er Ro]];
    exists σ', (reset_node nd); split; [done|];
    split; [destruct (Ro self) as [[_ Es]|[N _]];
            [by rewrite Es, E | destruct N; apply rtc_refl]|];
    destruct nd as [c]; simpl in C; subst c; done].
  - intros P. simpl. rewrite (run_bind _ _ _ _ _ (run_get_node _ _ _ E)).
    by rewrite C, P.
  - intros P. split.
    + intros cs1 c cs2 σ1 σ2 p Ecs A Ec.
      assert (V2 : self < length σ2).
      { rewrite (keeps_length_get_plane _ _ _ _ _ Ec).
        by rewrite (asked_none_length _ _ _ _ (keeps_length_get_plane fuel) A). }
      destruct (lookup_lt_is_Some_2 _ _ V2) as [nd2 E2]. exists nd2.
      split; [done|]. simpl.
      rewrite (run_bind _ _ _ _ _ (run_get_node _ _ _ E)). rewrite C, P, Ch, Ecs.
      rewrite (run_bind _ _ _ _ _ (first_plane_found _ _ _ _ _ _ _ _ A Ec)).
      by rewrite (run_bind _ _ _ _ _ (run_modify _ _ _ _ E2)).
    + intros σ1 A.
      assert (V1 : self < length σ1).
      { by rewrite (asked_none_length _ _ _ _ (keeps_length_get_plane fuel) A). }
      destruct (lookup_lt_is_Some_2 _ _ V1) as [nd1 E1]. exists nd1.
      split; [done|]. simpl.
      rewrite (run_bind _ _ _ _ _ (run_get_node _ _ _ E)). rewrite C, P, Ch.
      rewrite (run_bind _ _ _ _ _ (first_plane_none _ _ _ _ A)).
      by rewrite (run_bind _ _ _ _ _ (run_modify _ _ _ _ E1)).
  - intros child σ1 Ec. unfold Intersection_check_coplanarity.
    rewrite (run_bind _ _ _ _ _ (run_get_node _ _ _ E)).
    destruct (has_bodies nd); [|done].
    by rewrite (run_bind _ _ _ _ _ Ec).
Qed.
End Planes.

(** * Coplanarity checks *)
Section Coplanarity.
Context `{Kernel}.
Implicit Types (σ : store) (nd : Node).

(** The check of [Union] once the two planes have been read: with an
    accumulated body it raises the mixed-dimension error exactly when one
    of the two planes is null and the other is not, the non-coplanar
    error when both are planes that are not coplanar, and nothing
    otherwise. *)
Lemma union_check_outcome (fuel : nat) σ (self child : id) nd b plane child_plane
    σ1 σ2 :
  σ !! self = Some nd → _body nd = Some b →
  get_plane fuel self σ = (Ok plane, σ1) →
  get_plane fuel child σ1 = (Ok child_plane, σ2) →
  Union_check_coplanarity fuel self child σ
  = match plane, child_plane with
    | Some p, Some q =>
      if isCoPlanarTo p q then (Ok tt, σ2) else (Raise union_non_coplanar, σ2)
    | None, None => (Ok tt, σ2)
    | _, _ => (Raise union_mixed, σ2)
    end.
Proof.
  intros E B Ep Ec. unfold Union_check_coplanarity.
  rewrite (run_bind _ _ _ _ _ (run_get_node _ _ _ E)). rewrite B. simpl.
  rewrite (run_bind _ _ _ _ _ Ep). rewrite (run_bind _ _ _ _ _ Ec).
  destruct plane as [p|], child_plane as [q|]; simpl; try done.
  by destruct (isCoPlanarTo p q).
Qed.

(** The Union of a Rect and a Box raises, in either order and for every
    kernel. *)
Lemma union_of_rect_and_box_raises x y bx by_ bz :
  ((r ← Rect x y None; b ← Box bx by_ bz None; Union_init 5 [r; b] None) []).1
  = Raise union_mixed
  ∧ ((r ← Rect x y None; b ← Box bx by_ bz None; Union_init 5 [b; r] None) []).1
    = Raise union_mixed.
Proof. split; reflexivity. Qed.

End Coplanarity.

(** * Alignment *)
Section AlignmentFacts.
Context `{Number}.
Import Alignment.

(** C10: on a translation [t] whose vector is [vec], [t + s] adds [s] to
    the three components of the vector in place and evaluates to [t]
    itself; [t - s] and [t * s] update the vector in place in the same way
    (subtracting, multiplying) and evaluate to [None]. *)
Theorem translation_operators (h : heap) (t vector : nat) (vec : Vector3D)
    (s : Scalar) :
  translations h !! t = Some vector → vectors h !! vector = Some vec →
  __add__ t s h
  = Some (PyTranslation t,
          mkHeap (<[vector := map_vector (λ c, s_add c s) vec]> (vectors h))
                 (translations h))
  ∧ __sub__ t s h
    = Some (PyNone,
            mkHeap (<[vector := map_vector (λ c, s_sub c s) vec]> (vectors h))
                   (translations h))
  ∧ __mul__ t s h
    = Some (PyNone,
            mkHeap (<[vector := map_vector (λ c, s_mul c s) vec]> (vectors h))
                   (translations h)).
Proof.
  intros Et Ev. unfold __add__, __sub__, __mul__, setWithArray_map.
  rewrite Et. simpl. rewrite Ev. done.
Qed.
End AlignmentFacts.

(** * Seeding of a Union *)
Section Seeding.
Context `{Kernel}.

(** C4 on the code: a Union built with one child is seeded with a copy of
    that child's placed body, but a Union built with no child and given
    its first child through [add] is not: [add] hands the empty [_body]
    to the kernel's boolean operation, which rejects it, and [_body]
    stays empty. *)
Theorem union_add_does_not_seed (x y z : Scalar) :
  let by_init := (b ← Box x y z None; Union_init 5 [b] None) [] in
  let by_add := (b ← Box x y z None; u ← Union_init 5 [] None;
                 Union_add 5 u [b]) [] in
  by_init.1 = Ok 1
  ∧ body_of by_init.2 1
    = Some (brep_copy
              (brep_transform (brep_copy (box_body x y z))
                 (m_transformBy m_create (m_invert m_create))))
  ∧ by_add.1 = Raise (TypeError "booleanOperation: targetBody is None")
  ∧ class_ <$> by_add.2 !! 1 = Some CUnion
  ∧ body_of by_add.2 1 = None.
Proof. vm_compute. split_and!; reflexivity. Qed.
End Seeding.

(** * Queries write only caches *)
Section Queries.
Context `{Kernel}.
Implicit Types (σ : store) (nd : Node).

Lemma cache_only_ret {A} (a : A) : cache_only (mret a).
Proof. intros σ r σ' E. by injection E as _ <-. Qed.

Lemma cache_only_raise {A} e : cache_only (raise (A:=A) e).
Proof. intros σ r σ' E. by injection E as _ <-. Qed.

Lemma cache_only_out_of_fuel {A} : cache_only (out_of_fuel (A:=A)).
Proof. intros σ r σ' E. by injection E as _ <-. Qed.

Lemma cache_only_bind {A B} (m : M A) (k : A → M B) :
  cache_only m → (∀ a, cache_only (k a)) → cache_only (m ≫= k).
Proof.
  intros Hm Hk σ r σ' E. unfold mbind, M_bind, bind in E.
  destruct (m σ) as [[a|e|] σ1] eqn:E1.
  - rewrite (Hk _ _ _ _ E). by eapply Hm.
  - injection E as _ <-. by eapply Hm.
  - injection E as _ <-. by eapply Hm.
Qed.

Lemma cache_only_get_node n : cache_only (get_node n).
Proof.
  intros σ r σ' E. unfold get_node in E.
  destruct (σ !! n); by injection E as _ <-.
Qed.

Lemma cache_only_modify n f :
  (∀ nd, persistent (f nd) = persistent nd) → cache_only (modify n f).
Proof.
  intros Hf σ r σ' E. unfold modify in E.
  destruct (σ !! n) as [nd|] eqn:En; injection E as _ <-; [|done].
  rewrite list_fmap_insert, Hf. apply list_insert_id.
  by rewrite list_lookup_fmap, En.
Qed.

Lemma cache_only_mapM {A B} (f : A → M B) l :
  (∀ a, cache_only (f a)) → cache_only (mapM f l).
Proof.
  intros Hf. induction l as [|a l IH]; simpl; [apply (cache_only_ret [])|].
  apply cache_only_bind; [done|]. intros b.
  apply cache_only_bind; [done|]. intros bs. apply (cache_only_ret (b :: bs)).
Qed.

Lemma cache_only_get_world fuel : ∀ n, cache_only (_get_world_transform fuel n).
Proof.
  induction fuel as [|fuel IH]; intros n; [apply cache_only_out_of_fuel|].
  simpl. apply cache_only_bind; [apply cache_only_get_node|]. intros nd.
  destruct (_cached_world_transform nd); [apply cache_only_ret|].
  apply cache_only_bind.
  - destruct (_parent nd); [|apply cache_only_ret].
    apply cache_only_bind; [apply IH|]. intros. apply cache_only_ret.
  - intros w. apply cache_only_bind; [by apply cache_only_modify|].
    intros. apply cache_only_ret.
Qed.

Lemma cache_only_raw_bodies n : cache_only (_raw_bodies n).
Proof.
  unfold _raw_bodies. apply cache_only_bind; [apply cache_only_get_node|].
  intros nd. repeat case_match;
    first [apply cache_only_ret | apply cache_only_raise].
Qed.

Lemma cache_only_bodies fuel n : cache_only (bodies fuel n).
Proof.
  unfold bodies. apply cache_only_bind; [apply cache_only_get_node|].
  intros nd. destruct (_cached_bodies nd); [apply cache_only_ret|].
  apply cache_only_bind; [apply cache_only_get_world|]. intros w.
  apply cache_only_bind; [apply cache_only_raw_bodies|].
  intros raw. apply cache_only_bind.
  { apply cache_only_mapM. intros [b|]; simpl;
      [apply cache_only_ret | apply cache_only_raise]. }
  intros bs. apply cache_only_bind; [by apply cache_only_modify|].
  intros. apply cache_only_ret.
Qed.

Lemma cache_only_bounding_box fuel n : cache_only (bounding_box fuel n).
Proof.
  unfold bounding_box. apply cache_only_bind; [apply cache_only_get_node|].
  intros nd. apply cache_only_bind.
  - destruct (_cached_bounding_box nd); [apply cache_only_ret|].
    apply cache_only_bind.
    + unfold _get_exact_bounding_box.
      apply cache_only_bind; [apply cache_only_bodies|].
      intros. apply cache_only_ret.
    + intros bb. apply cache_only_bind; [by apply cache_only_modify|].
      intros. apply cache_only_ret.
  - intros [bb|]; [apply cache_only_ret | apply cache_only_raise].
Qed.

Lemma cache_only_first_plane get cs :
  (∀ c, cache_only (get c)) → cache_only (first_plane get cs).
Proof.
  intros Hg. induction cs as [|c cs IH]; simpl; [apply cache_only_ret|].
  apply cache_only_bind; [done|]. intros [p|]; [apply cache_only_ret | done].
Qed.

Lemma cache_only_get_plane fuel : ∀ n, cache_only (get_plane fuel n).
Proof.
  induction fuel as [|fuel IH]; intros n; [apply cache_only_out_of_fuel|].
  simpl. apply cache_only_bind; [apply cache_only_get_node|]. intros nd.
  assert (Hb : cache_only
                 (body ← _cached_body fuel n; mret (Some (face0_geometry body)))).
  { apply cache_only_bind; [|intros; apply cache_only_ret].
    unfold _cached_body. apply cache_only_bind; [apply cache_only_bodies|].
    intros [|b bs]; [apply cache_only_raise | apply cache_only_ret]. }
  assert (Hc : cache_only
                 match children nd with
                 | [] => mret None
                 | child :: _ => get_plane fuel child
                 end).
  { destruct (children nd); [apply cache_only_ret | apply IH]. }
  destruct (class_ nd); try done; try apply cache_only_ret.
  destruct (_cached_plane_populated nd); [apply cache_only_ret|].
  apply cache_only_bind; [by apply cache_only_first_plane|]. intros p.
  apply cache_only_bind; [by apply cache_only_modify|].
  intros. apply cache_only_ret.
Qed.

Lemma cache_only_inverse fuel n : cache_only (_inverse_transform fuel n).
Proof.
  unfold _inverse_transform. apply cache_only_bind; [apply cache_only_get_node|].
  intros nd. destruct (_cached_inverse_transform nd); [apply cache_only_ret|].
  apply cache_only_bind; [apply cache_only_get_world|]. intros w.
  apply cache_only_bind; [by apply cache_only_modify|].
  intros. apply cache_only_ret.
Qed.

Lemma cache_only_reset fuel : ∀ n, cache_only (_reset_cache fuel n).
Proof.
  induction fuel as [|fuel IH]; intros n; [apply cache_only_out_of_fuel|].
  simpl. apply cache_only_bind; [by apply cache_only_modify|]. intros _.
  apply cache_only_bind; [apply cache_only_get_node|]. intros nd.
  apply cache_only_bind.
  { induction (children nd) as [|c cs IHcs]; simpl; [apply cache_only_ret|].
    apply cache_only_bind; [apply IH | done]. }
  intros _. apply cache_only_bind; intros; unfold when; case_match;
    first [by apply cache_only_modify | apply cache_only_ret].
Qed.

(** Queries write nothing but caches: whatever they return or raise,
    [_get_world_transform], [_inverse_transform], [bodies], [get_plane],
    [size], [min], [max] and [mid], and [_reset_cache] itself, leave the
    class, name, parent, local transform, children and owned geometry of
    every node as they were, and create no node. *)
Theorem queries_write_only_caches (fuel : nat) (n : id) :
  cache_only (_get_world_transform fuel n)
  ∧ cache_only (_inverse_transform fuel n)
  ∧ cache_only (bodies fuel n)
  ∧ cache_only (get_plane fuel n)
  ∧ cache_only (size fuel n)
  ∧ cache_only (min fuel n)
  ∧ cache_only (max fuel n)
  ∧ cache_only (mid fuel n)
  ∧ cache_only (_reset_cache fuel n).
Proof.
  split_and!;
    first [ apply cache_only_get_world | apply cache_only_inverse
          | apply cache_only_bodies | apply cache_only_get_plane
          | apply cache_only_reset
          | (apply cache_only_bind; [apply cache_only_bounding_box|];
             intros; apply cache_only_ret) ].
Qed.
End Queries.

(** * World transforms, bodies and bounding boxes *)
Section CachedQueries.
Context `{Kernel}.
Implicit Types (σ : store) (nd : Node).

Lemma persistent_lookup σ σ' n nd :
  persistent <$> σ' = persistent <$> σ → σ !! n = Some nd →
  ∃ nd', σ' !! n = Some nd' ∧ persistent nd' = persistent nd.
Proof.
  intros P E. pose proof (f_equal (.!! n) P) as Pn. simpl in Pn.
  rewrite !list_lookup_fmap, E in Pn.
  destruct (σ' !! n) as [nd'|]; simpl in Pn; [|done].
  exists nd'. split; [done|]. congruence.
Qed.

Lemma persistent_frame σ σ' :
  persistent <$> σ' = persistent <$> σ →
  frame σ' = frame σ ∧ skeleton σ' = skeleton σ.
Proof.
  intros P. split; apply list_eq; intros m;
    pose proof (f_equal (.!! m) P) as Pm; simpl in Pm;
    rewrite !list_lookup_fmap in Pm; rewrite ?frame_lookup, ?skeleton_lookup;
    destruct (σ' !! m) as [a|], (σ !! m) as [b|]; try done;
    simpl in *; assert (Pe : persistent a = persistent b) by congruence;
    unfold persistent in Pe; injection Pe; intros; unfold children.
  - match goal with
    | Hp : _parent a = _parent b, Hl : _local_transform a = _local_transform b |- _ =>
      by rewrite Hp, Hl
    end.
  - match goal with
    | Hc : class_ a = class_ b, Hk : _children a = _children b |- _ =>
      by rewrite Hc, Hk
    end.
Qed.

Lemma wf_with_modify_cache h d σ n nd (f : Node → Node) :
  wf_with h d σ → σ !! n = Some nd →
  persistent (f nd) = persistent nd →
  _cached_world_transform (f nd) = _cached_world_transform nd →
  wf_with h d (<[n := f nd]> σ).
Proof.
  intros [R P C] E Pf Cf.
  assert (Pe : persistent <$> <[n := f nd]> σ = persistent <$> σ).
  { rewrite list_fmap_insert, Pf. apply list_insert_id.
    by rewrite list_lookup_fmap, E. }
  destruct (persistent_frame _ _ Pe) as [F S].
  split; rewrite ?S, ?F; [done..|].
  intros m nd' w E' Cw. destruct (decide (m = n)) as [->|Hm].
  - rewrite list_lookup_insert_eq in E' by (by eapply lookup_lt_Some).
    injection E' as <-. rewrite Cf in Cw. by eapply C.
  - rewrite list_lookup_insert_ne in E' by done. by eapply C.
Qed.

Lemma _get_world_transform_cached fuel σ n w σ' :
  _get_world_transform fuel n σ = (Ok w, σ') →
  ∃ nd', σ' !! n = Some nd' ∧ _cached_world_transform nd' = Some w.
Proof.
  destruct fuel as [|fuel]; [done|]. simpl.
  unfold mbind, M_bind, bind, get_node.
  destruct (σ !! n) as [nd|] eqn:E; [|done].
  destruct (_cached_world_transform nd) as [c|] eqn:Cw.
  { intros [= <- <-]. by exists nd. }
  match goal with
  | |- context [match ?m σ with _ => _ end] => destruct (m σ) as [[t|e|] σ1]
  end; try done.
  unfold modify. destruct (σ1 !! n) as [nd1|] eqn:E1; [|done].
  intros [= <- <-]. eexists. split.
  - apply list_lookup_insert_eq. by eapply lookup_lt_Some.
  - done.
Qed.

Lemma _get_world_transform_again fuel σ n nd w :
  σ !! n = Some nd → _cached_world_transform nd = Some w →
  _get_world_transform (S fuel) n σ = (Ok w, σ).
Proof.
  intros E C. simpl. rewrite (run_bind _ _ _ _ _ (run_get_node _ _ _ E)).
  by rewrite C.
Qed.

(** In a well-formed tree a world-transform query returns the specified
    world transform, keeps the tree well formed, writes only caches, and
    is answered from the cache afterwards: asked again, with any fuel, it
    returns the same matrix and leaves the store as it is. *)
Theorem world_query_is_cached (h d : id → nat) (fuel : nat) σ (n : id) :
  wf_with h d σ → n < length σ → d n < fuel →
  ∃ w σ', _get_world_transform fuel n σ = (Ok w, σ')
    ∧ World (frame σ) n w
    ∧ wf_with h d σ'
    ∧ persistent <$> σ' = persistent <$> σ
    ∧ ∀ fuel', _get_world_transform (S fuel') n σ' = (Ok w, σ').
Proof.
  intros W V Hf.
  destruct (_get_world_transform_spec h d fuel σ n W V Hf)
    as (w & σ' & E & Ww & W' & _).
  exists w, σ'. split_and!; try done.
  - by eapply cache_only_get_world.
  - intros fuel'. destruct (_get_world_transform_cached _ _ _ _ _ E)
      as (nd' & E' & C'). by eapply _get_world_transform_again.
Qed.

Lemma run_mapM_copy_body σ (bs : list Body) :
  mapM copy_body (Some <$> bs) σ = (Ok (brep_copy <$> bs), σ).
Proof.
  induction bs as [|b bs IH]; [done|]. simpl.
  rewrite (run_bind _ _ σ (brep_copy b) σ) by done.
  by rewrite (run_bind _ _ _ _ _ IH).
Qed.

Lemma run_raw_bodies σ n nd bs :
  σ !! n = Some nd → raw_bodies nd = Some bs →
  _raw_bodies n σ = (Ok (Some <$> bs), σ).
Proof.
  intros E R. unfold _raw_bodies.
  rewrite (run_bind _ _ _ _ _ (run_get_node _ _ _ E)).
  unfold raw_bodies in R.
  destruct (class_ nd); simpl in R;
    try (rewrite R; done);
    destruct (_body nd); by simplify_eq/=.
Qed.

Lemma raw_bodies_persistent nd nd' :
  persistent nd' = persistent nd → raw_bodies nd' = raw_bodies nd.
Proof.
  unfold persistent, raw_bodies. intros P.
  injection P; intros Hti Hbi Hpl Hbs Hb Hch Hl Hp Hn Hc.
  by rewrite Hc, Hbs, Hb.
Qed.

Lemma run_bodies fuel σ n nd W σ1 nd1 (bs : list Body) :
  σ !! n = Some nd → _cached_bodies nd = None →
  _get_world_transform fuel n σ = (Ok W, σ1) →
  σ1 !! n = Some nd1 → raw_bodies nd1 = Some bs →
  bodies fuel n σ
  = (Ok (placed W bs), <[n := set_cached_bodies (Some (placed W bs)) nd1]> σ1).
Proof.
  intros E Cb E1 En1 R1. unfold bodies.
  rewrite (run_bind _ _ _ _ _ (run_get_node _ _ _ E)).
  rewrite Cb. rewrite (run_bind _ _ _ _ _ E1).
  rewrite (run_bind _ _ _ _ _ (run_raw_bodies _ _ _ _ En1 R1)).
  rewrite (run_bind _ _ _ _ _ (run_mapM_copy_body _ _)).
  unfold placed. rewrite <- list_fmap_compose.
  by rewrite (run_bind _ _ _ _ _ (run_modify _ _ _ _ En1)).
Qed.

(** In a well-formed tree, [bodies()] of a node that owns its geometry
    and has no cached bodies returns a copy of each raw body placed by the
    node's world transform; it keeps the tree well formed, leaves the raw
    geometry and everything but caches as they were, and answers from the
    cache afterwards. *)
Theorem bodies_are_placed_copies (h d : id → nat) (fuel : nat) σ (n : id) nd
    (bs : list Body) :
  wf_with h d σ → σ !! n = Some nd → d n < fuel →
  _cached_bodies nd = None → raw_bodies nd = Some bs →
  ∃ W σ', World (frame σ) n W
    ∧ bodies fuel n σ = (Ok (placed W bs), σ')
    ∧ wf_with h d σ'
    ∧ persistent <$> σ' = persistent <$> σ
    ∧ ∀ fuel', bodies fuel' n σ' = (Ok (placed W bs), σ').
Proof.
  intros Wf E Hf Cb Rb. pose proof (lookup_lt_Some _ _ _ E) as V.
  destruct (_get_world_transform_spec h d fuel σ n Wf V Hf)
    as (W & σ1 & E1 & Ww & W1 & _).
  pose proof (cache_only_get_world _ _ _ _ _ E1) as P1.
  destruct (persistent_lookup _ _ _ _ P1 E) as (nd1 & En1 & Pn1).
  pose proof (raw_bodies_persistent _ _ Pn1) as R1. rewrite Rb in R1.
  pose proof (run_bodies _ _ _ _ _ _ _ _ E Cb E1 En1 R1) as Run.
  exists W, (<[n := set_cached_bodies (Some (placed W bs)) nd1]> σ1).
  split_and!; try done.
  - by apply wf_with_modify_cache.
  - by eapply cache_only_bodies.
  - intros fuel'. unfold bodies.
    assert (E' : <[n := set_cached_bodies (Some (placed W bs)) nd1]> σ1 !! n
                 = Some (set_cached_bodies (Some (placed W bs)) nd1)).
    { apply list_lookup_insert_eq. by eapply lookup_lt_Some. }
    by rewrite (run_bind _ _ _ _ _ (run_get_node _ _ _ E')).
Qed.

Lemma bounding_box_cached fuel σ n bb σ' :
  bounding_box fuel n σ = (Ok bb, σ') →
  ∃ nd', σ' !! n = Some nd' ∧ _cached_bounding_box nd' = Some bb.
Proof.
  unfold bounding_box, mbind, M_bind, bind, get_node.
  destruct (σ !! n) as [nd|] eqn:E; [|done].
  destruct (_cached_bounding_box nd) as [c|] eqn:Cb.
  { simpl. intros [= <- <-]. by exists nd. }
  destruct (_get_exact_bounding_box fuel n σ) as [[[b|]|e|] σ1]; try done;
    unfold modify; destruct (σ1 !! n) as [nd1|] eqn:E1; try done.
  simpl. intros [= <- <-]. eexists. split.
  - apply list_lookup_insert_eq. by eapply lookup_lt_Some.
  - done.
Qed.

Lemma bounding_box_again fuel σ n nd bb :
  σ !! n = Some nd → _cached_bounding_box nd = Some bb →
  bounding_box fuel n σ = (Ok bb, σ).
Proof.
  intros E C. unfold bounding_box.
  rewrite (run_bind _ _ _ _ _ (run_get_node _ _ _ E)). by rewrite C.
Qed.

(** [size], [min], [max] and [mid] share one cached box: once any of
    them has returned (here [min]), each of them answers from that box,
    with any fuel, without writing to the store. *)
Theorem bounding_queries_share_one_box (fuel : nat) σ (n : id) (p : Point3D) σ' :
  min fuel n σ = (Ok p, σ') →
  ∃ bb, minPoint bb = p
    ∧ ∀ fuel',
        min fuel' n σ' = (Ok (minPoint bb), σ')
        ∧ max fuel' n σ' = (Ok (maxPoint bb), σ')
        ∧ size fuel' n σ' = (Ok (asPoint (vectorTo (minPoint bb) (maxPoint bb))), σ')
        ∧ mid fuel' n σ'
          = (Ok (Point3D_create
                   (s_div (s_add (p_x (minPoint bb)) (p_x (maxPoint bb))) s_two)
                   (s_div (s_add (p_y (minPoint bb)) (p_y (maxPoint bb))) s_two)
                   (s_div (s_add (p_z (minPoint bb)) (p_z (maxPoint bb))) s_two)),
             σ').
Proof.
  intros E. unfold min in E. unfold mbind, M_bind, bind in E.
  destruct (bounding_box fuel n σ) as [[bb|e|] σ1] eqn:Eb; try done.
  injection E as <- <-.
  destruct (bounding_box_cached _ _ _ _ _ Eb) as (nd' & E' & C').
  exists bb. split; [done|]. intros fuel'.
  unfold min, max, size, mid.
  by rewrite !(run_bind _ _ _ _ _ (bounding_box_again fuel' _ _ _ _ E' C')).
Qed.

Lemma combine_boxes_from (bb : BoundingBox3D) (bs : list Body) :
  combine_boxes (Some bb) bs
  = Some (foldl (λ bb e, bb_combine bb (aligned_box e)) bb bs).
Proof. revert bb. induction bs as [|b bs IH]; intros bb; [done|]. apply IH. Qed.

Lemma combine_boxes_combined (bs : list Body) :
  combine_boxes None bs = combined_box bs.
Proof. destruct bs as [|b bs]; [done|]. apply combine_boxes_from. Qed.

(** In a well-formed tree the bounding box of a node that owns at least
    one body and has nothing cached is the axis-aligned box of its first
    placed body combined in turn with the axis-aligned box of each of
    its other placed bodies; the query returns it and caches it with the
    placed bodies, and writes nothing but caches. *)
Theorem bounding_box_of_placed_bodies (h d : id → nat) (fuel : nat) σ (n : id) nd
    (bs : list Body) :
  wf_with h d σ → σ !! n = Some nd → d n < fuel →
  _cached_bodies nd = None → _cached_bounding_box nd = None →
  raw_bodies nd = Some bs → bs ≠ [] →
  ∀ W, World (frame σ) n W →
  ∃ bb σ' nd', combined_box (placed W bs) = Some bb
    ∧ bounding_box fuel n σ = (Ok bb, σ')
    ∧ σ' !! n = Some nd'
    ∧ _cached_bounding_box nd' = Some bb
    ∧ _cached_bodies nd' = Some (placed W bs)
    ∧ persistent <$> σ' = persistent <$> σ.
Proof.
  intros Wf E Hf Cb Cbb Rb Ne W Ww. pose proof (lookup_lt_Some _ _ _ E) as V.
  assert (Mb : ∃ bb, combined_box (placed W bs) = Some bb).
  { destruct bs as [|b bs]; [done|]. by eexists. }
  destruct Mb as [bb Mb]. exists bb.
  destruct (_get_world_transform_spec h d fuel σ n Wf V Hf)
    as (W' & σ1 & E1 & Ww' & _).
  assert (W' = W) as -> by (by eapply World_det).
  pose proof (cache_only_get_world _ _ _ _ _ E1) as P1.
  destruct (persistent_lookup _ _ _ _ P1 E) as (nd1 & En1 & Pn1).
  pose proof (raw_bodies_persistent _ _ Pn1) as R1. rewrite Rb in R1.
  pose proof (run_bodies _ _ _ _ _ _ _ _ E Cb E1 En1 R1) as Eb.
  set (nd2 := set_cached_bodies (Some (placed W bs)) nd1) in *.
  set (σ2 := <[n := nd2]> σ1) in *.
  assert (En2 : σ2 !! n = Some nd2).
  { apply list_lookup_insert_eq. by eapply lookup_lt_Some. }
  assert (Ex : _get_exact_bounding_box fuel n σ = (Ok (Some bb), σ2)).
  { unfold _get_exact_bounding_box. rewrite (run_bind _ _ _ _ _ Eb).
    unfold mret, M_ret, ret. by rewrite combine_boxes_combined, Mb. }
  exists (<[n := set_cached_bounding_box (Some bb) nd2]> σ2),
         (set_cached_bounding_box (Some bb) nd2).
  split_and!.
  - done.
  - unfold bounding_box. rewrite (run_bind _ _ _ _ _ (run_get_node _ _ _ E)).
    rewrite Cbb.
    assert (In : (bb0 ← _get_exact_bounding_box fuel n;
                  modify n (set_cached_bounding_box bb0);; mret bb0) σ
                 = (Ok (Some bb), <[n := set_cached_bounding_box (Some bb) nd2]> σ2)).
    { rewrite (run_bind _ _ _ _ _ Ex).
      by rewrite (run_bind _ _ _ _ _ (run_modify _ _ _ _ En2)). }
    by rewrite (run_bind _ _ _ _ _ In).
  - apply list_lookup_insert_eq. by eapply lookup_lt_Some.
  - done.
  - done.
  - rewrite list_fmap_insert. simpl.
    rewrite <- (cache_only_bodies _ _ _ _ _ Eb).
    apply list_insert_id. by rewrite list_lookup_fmap, En2.
Qed.
End CachedQueries.

(** * Mutations, inverse transforms and invalidation *)
Section MutationFacts.
Context `{Kernel}.
Implicit Types (σ : store) (nd : Node).

Lemma center_point_of_coordinates (l : list Scalar) :
  center_point_of (CenterCoordinates l)
  = Point3D_create (nth 0 l s_zero) (nth 1 l s_zero) (nth 2 l s_zero).
Proof. destruct l as [|a [|b [|c l]]]; reflexivity. Qed.

(** A center given as a list of numbers is the point of its first three
    numbers, with zero for each one that is missing: [rotate] and [scale]
    about such a list behave as about that point, numbers after the third
    are ignored, and the empty list is the origin, as no center is. *)
Theorem center_list_is_padded_and_cut (fuel : nat) (n : id) (l : list Scalar)
    (a b c : Scalar) :
  rotate fuel n a b c (CenterCoordinates l)
  = rotate fuel n a b c
      (CenterPoint (Point3D_create (nth 0 l s_zero) (nth 1 l s_zero) (nth 2 l s_zero)))
  ∧ scale fuel n a b c (CenterCoordinates l)
    = scale fuel n a b c
        (CenterPoint (Point3D_create (nth 0 l s_zero) (nth 1 l s_zero) (nth 2 l s_zero)))
  ∧ rotate fuel n a b c (CenterCoordinates (take 3 l))
    = rotate fuel n a b c (CenterCoordinates l)
  ∧ scale fuel n a b c (CenterCoordinates (take 3 l))
    = scale fuel n a b c (CenterCoordinates l)
  ∧ rotate fuel n a b c (CenterCoordinates []) = rotate fuel n a b c CenterNone
  ∧ scale fuel n a b c (CenterCoordinates []) = scale fuel n a b c CenterNone.
Proof.
  unfold rotate, scale. rewrite !center_point_of_coordinates.
  split_and!; try reflexivity;
    by destruct l as [|x [|y [|z l]]].
Qed.

Lemma persistent_reset_node nd : persistent (reset_node nd) = persistent nd.
Proof. unfold reset_node. repeat case_match; reflexivity. Qed.

Lemma reset_on_persistent (P : id → Prop) σ σ' :
  reset_on P σ σ' → persistent <$> σ' = persistent <$> σ.
Proof.
  intros R. apply list_eq. intros m. rewrite !list_lookup_fmap.
  destruct (R m) as [[_ ->]|[_ ->]]; [|done].
  destruct (σ !! m); simpl; [|done]. by rewrite persistent_reset_node.
Qed.

Lemma frame_relocated σ n nd L :
  σ !! n = Some nd →
  frame (<[n := set_local_transform L nd]> σ) = <[n := (_parent nd, L)]> (frame σ).
Proof. intros _. unfold frame. by rewrite list_fmap_insert. Qed.

(** What a mutation does to a well-formed tree.  A refused mutation (a
    non-uniform [scale]) raises and leaves the store as it was.  An
    accepted one returns the node itself; the only attribute other than a
    cache that it changes, in the whole store, is the local transform of
    that node, which becomes the one the mutation prescribes; the tree
    stays well formed; and every node outside the subtree keeps its world
    transform. *)
Theorem mutation_edits_one_local_transform (h d : id → nat) (fuel : nat) σ
    (n : id) nd (mu : mutation) :
  wf_with h d σ → σ !! n = Some nd → h n < fuel →
  match mutated_local mu (_local_transform nd) with
  | None =>
    ¬ accepted mu
    ∧ mutate fuel n mu σ = (Raise (ValueError scale_message), σ)
  | Some L =>
    accepted mu
    ∧ ∃ σ', mutate fuel n mu σ = (Ok n, σ')
        ∧ persistent <$> σ' = persistent <$> (<[n := set_local_transform L nd]> σ)
        ∧ wf_with h d σ'
        ∧ (∀ m w, ¬ descendant σ n m → World (frame σ) m w → World (frame σ') m w)
  end.
Proof.
  intros W E Hf.
  pose proof (mutate_spec h fuel σ n nd mu (wf_ranked _ _ _ W) E Hf) as Sp.
  destruct (mutated_local mu (_local_transform nd)) as [L|] eqn:EL.
  - split.
    { destruct mu; simpl in *; try done. by destruct (decide (uniform sx sy sz)). }
    destruct Sp as [σ' [Em Ro]]. exists σ'. split_and!; [done| | |].
    + by eapply reset_on_persistent.
    + by eapply relocate_reset_wf.
    + intros m w N Wm. rewrite (reset_on_frame _ _ _ Ro).
      rewrite (frame_relocated _ _ _ _ E). by eapply World_outside.
  - split; [|done].
    destruct mu; simpl in *; try done. by destruct (decide (uniform sx sy sz)).
Qed.

Lemma persistent_lookup_class σ σ' n nd :
  persistent <$> σ' = persistent <$> σ → σ !! n = Some nd →
  ∃ nd', σ' !! n = Some nd' ∧ class_ nd' = class_ nd.
Proof.
  intros P E. destruct (persistent_lookup _ _ _ _ P E) as (nd' & E' & Pe).
  exists nd'. split; [done|]. unfold persistent in Pe. by injection Pe.
Qed.

Lemma reset_node_inverse nd :
  is_composite (class_ nd) = true →
  _cached_inverse_transform (reset_node nd) = None.
Proof. destruct nd as [c]. by destruct c. Qed.

Lemma class_reset_node nd : class_ (reset_node nd) = class_ nd.
Proof. unfold reset_node. repeat case_match; reflexivity. Qed.

Lemma run_inverse_transform h d fuel σ n nd :
  wf_with h d σ → σ !! n = Some nd → d n < fuel →
  _cached_inverse_transform nd = None →
  ∃ W σ', World (frame σ) n W
    ∧ _inverse_transform fuel n σ = (Ok (m_invert W), σ')
    ∧ wf_with h d σ'
    ∧ ∃ nd', σ' !! n = Some nd'
        ∧ _cached_inverse_transform nd' = Some (m_invert W).
Proof.
  intros Wf E Hf Ci. pose proof (lookup_lt_Some _ _ _ E) as V.
  destruct (_get_world_transform_spec h d fuel σ n Wf V Hf)
    as (W & σ1 & E1 & Ww & W1 & _).
  pose proof (cache_only_get_world _ _ _ _ _ E1) as P1.
  destruct (persistent_lookup _ _ _ _ P1 E) as (nd1 & En1 & Pn1).
  exists W, (<[n := set_cached_inverse_transform (Some (m_invert W)) nd1]> σ1).
  split_and!; [done| | |].
  - unfold _inverse_transform.
    rewrite (run_bind _ _ _ _ _ (run_get_node _ _ _ E)). rewrite Ci.
    rewrite (run_bind _ _ _ _ _ E1).
    by rewrite (run_bind _ _ _ _ _ (run_modify _ _ _ _ En1)).
  - by apply wf_with_modify_cache.
  - eexists. split; [apply list_lookup_insert_eq; by eapply lookup_lt_Some|].
    done.
Qed.

Lemma _inverse_transform_again fuel σ n nd inv :
  σ !! n = Some nd → _cached_inverse_transform nd = Some inv →
  _inverse_transform fuel n σ = (Ok inv, σ).
Proof.
  intros E C. unfold _inverse_transform.
  rewrite (run_bind _ _ _ _ _ (run_get_node _ _ _ E)). by rewrite C.
Qed.

(** The cached inverse of a composite is never stale after a mutation:
    when a node or one of its ancestors has been mutated, the inverse
    transform the composite hands out next is the inverse of its world
    transform in the mutated tree, and it is then answered from the
    cache. *)
Theorem inverse_transform_follows_mutation (h d : id → nat) (fuel : nat) σ
    (a : id) nda (mu : mutation) (n : id) nd :
  wf_with h d σ → σ !! a = Some nda → h a < fuel → accepted mu →
  descendant σ a n → σ !! n = Some nd → is_composite (class_ nd) = true →
  d n < fuel →
  ∃ σ1 W σ2, mutate fuel a mu σ = (Ok a, σ1)
    ∧ World (frame σ1) n W
    ∧ _inverse_transform fuel n σ1 = (Ok (m_invert W), σ2)
    ∧ ∀ fuel', _inverse_transform fuel' n σ2 = (Ok (m_invert W), σ2).
Proof.
  intros Wf Ea Hf A D En Cn Hd.
  pose proof (mutate_spec h fuel σ a nda mu (wf_ranked _ _ _ Wf) Ea Hf) as Sp.
  destruct (accepted_mutated_local mu (_local_transform nda) A) as [L EL].
  rewrite EL in Sp. destruct Sp as [σ1 [Em Ro]].
  pose proof (relocate_reset_wf _ _ _ _ _ _ _ Wf Ea Ro) as W1.
  assert (E0 : ∃ nd0, <[a := set_local_transform L nda]> σ !! n = Some nd0
                      ∧ class_ nd0 = class_ nd).
  { destruct (decide (n = a)) as [->|Hna].
    - rewrite list_lookup_insert_eq by (by eapply lookup_lt_Some).
      eexists. split; [done|]. simpl. congruence.
    - rewrite list_lookup_insert_ne by done. by exists nd. }
  destruct E0 as (nd0 & E0 & C0).
  assert (E1 : σ1 !! n = Some (reset_node nd0)).
  { destruct (Ro n) as [[_ ->]|[N _]]; [by rewrite E0 | done]. }
  destruct (run_inverse_transform h d fuel σ1 n (reset_node nd0) W1 E1 Hd)
    as (W & σ2 & Ww & Ei & _ & nd2 & E2 & C2).
  { apply reset_node_inverse. by rewrite C0. }
  exists σ1, W, σ2. split_and!; try done.
  intros fuel'. by eapply _inverse_transform_again.
Qed.

(** Invalidation is idempotent: [_reset_cache] run a second time on the
    same node returns and changes nothing more. *)
Theorem reset_cache_is_idempotent (h : id → nat) (fuel : nat) σ (n : id) :
  ranked (skeleton σ) h → n < length σ → h n < fuel →
  ∃ σ', _reset_cache fuel n σ = (Ok tt, σ')
    ∧ _reset_cache fuel n σ' = (Ok tt, σ').
Proof.
  intros R V Hf.
  destruct (_reset_cache_spec h fuel σ n R V Hf) as [σ' [E Ro]].
  pose proof (reset_on_skeleton _ _ _ Ro) as S1.
  destruct (_reset_cache_spec h fuel σ' n) as [σ'' [E' Ro']].
  { by rewrite S1. }
  { by rewrite <- (length_of_skeleton _ _ S1) in V. }
  { done. }
  exists σ'. split; [done|]. rewrite E'. f_equal.
  apply list_eq. intros m.
  destruct (Ro' m) as [[D ->]|[_ ->]]; [|done].
  unfold descendant in D. rewrite S1 in D.
  destruct (Ro m) as [[_ ->]|[N _]]; [|done].
  destruct (σ !! m); simpl; [|done]. by rewrite reset_node_idemp.
Qed.
End MutationFacts.

(** * Copies and empty composites *)
Section Allocation.
Context `{Kernel}.
Implicit Types (σ : store) (nd : Node).

Lemma run_get_node_app σ (ext : store) n nd :
  σ !! n = Some nd → get_node n (σ ++ ext) = (Ok nd, σ ++ ext).
Proof. intros E. apply run_get_node. by apply lookup_app_l_Some. Qed.

Lemma run_get_node_last σ nd n :
  n = length σ → get_node n (σ ++ [nd]) = (Ok nd, σ ++ [nd]).
Proof. intros ->. apply run_get_node. by apply list_lookup_middle. Qed.

Lemma run_modify_last σ nd n f :
  n = length σ → modify n f (σ ++ [nd]) = (Ok tt, σ ++ [f nd]).
Proof.
  intros ->. rewrite (run_modify _ _ nd) by (by apply list_lookup_middle).
  rewrite insert_app_r_alt by done. by rewrite Nat.sub_diag.
Qed.

(** A world-transform query that returns does not look at nodes created
    after the ones it visits. *)
Lemma _get_world_transform_app fuel : ∀ n σ w σ' (ext : store),
  _get_world_transform fuel n σ = (Ok w, σ') →
  _get_world_transform fuel n (σ ++ ext) = (Ok w, σ' ++ ext).
Proof.
  induction fuel as [|fuel IH]; intros n σ w σ' ext E; [done|].
  simpl in *. unfold mbind, M_bind, bind, get_node in *.
  destruct (σ !! n) as [nd|] eqn:En; [|done].
  rewrite (lookup_app_l_Some _ _ _ _ En).
  destruct (_cached_world_transform nd) as [c|].
  { by injection E as <- <-. }
  destruct (_parent nd) as [p|].
  - destruct (_get_world_transform fuel p σ) as [[wp|e|] σ1] eqn:Ep; try done.
    rewrite (IH _ _ _ _ ext Ep). simpl in *. unfold modify in *.
    destruct (σ1 !! n) as [nd1|] eqn:E1; [|done].
    rewrite (lookup_app_l_Some _ _ _ _ E1). injection E as <- <-.
    by rewrite insert_app_l by (by eapply lookup_lt_Some).
  - simpl in *. unfold modify in *. rewrite En in E.
    rewrite (lookup_app_l_Some _ _ _ _ En). injection E as <- <-.
    by rewrite insert_app_l by (by eapply lookup_lt_Some).
Qed.

Lemma wf_with_alloc_leaf h d σ nd :
  wf_with h d σ → _parent nd = None → children nd = [] →
  _cached_world_transform nd = None → wf_with h d (σ ++ [nd]).
Proof.
  intros [R P C] Pn Cn Wn.
  assert (S1 : skeleton (σ ++ [nd]) = skeleton σ ++ [[]]).
  { unfold skeleton. by rewrite fmap_app, <- Cn. }
  assert (F1 : frame (σ ++ [nd]) = frame σ ++ [(None, _local_transform nd)]).
  { unfold frame. by rewrite fmap_app, <- Pn. }
  split; rewrite ?S1, ?F1.
  - intros p cs c E I. rewrite length_app. simpl.
    apply lookup_app_Some in E as [E|[_ E]].
    + destruct (R _ _ _ E I). split; [lia | done].
    + apply list_lookup_singleton_Some in E as [_ <-]. by apply elem_of_nil in I.
  - intros n p L E. apply lookup_app_Some in E as [E|[_ E]].
    + destruct (P _ _ _ E) as [? [cs [Ecs I]]]. split; [done|].
      exists cs. split; [by apply lookup_app_l_Some | done].
    + by apply list_lookup_singleton_Some in E as [_ ?].
  - intros n nd' w E Cw. apply lookup_app_Some in E as [E|[_ E]].
    + apply World_grow. by eapply C.
    + apply list_lookup_singleton_Some in E as [_ <-]. congruence.
Qed.

Lemma persistent_length σ σ' :
  persistent <$> σ' = persistent <$> σ → length σ' = length σ.
Proof. intros P. by rewrite <- (length_fmap persistent σ'), P, length_fmap. Qed.

(** [copy()] of a leaf shape of a well-formed tree.  It returns a new
    node, a root whose local transform is the world transform of the
    original, with a copy of the original's body, the same class and name
    and no cache; the original and every other node change in nothing but
    caches; the tree stays well formed; and the copy is where the original
    is: its world transform is that of the original, and its bodies are
    copies of the original's body placed by that transform. *)
Theorem copy_of_leaf_is_placed_alike (h d : id → nat) (fuel : nat) σ (n : id) nd
    (b : Body) :
  wf_with h d σ → σ !! n = Some nd → is_composite (class_ nd) = false →
  _body nd = Some b → d n < fuel →
  ∃ W σ1,
    World (frame σ) n W
    ∧ copy (S fuel) n σ = (Ok (length σ), σ1 ++ [leaf_copy nd W b])
    ∧ persistent <$> σ1 = persistent <$> σ
    ∧ wf_with h d (σ1 ++ [leaf_copy nd W b])
    ∧ World (frame (σ1 ++ [leaf_copy nd W b])) (length σ) W
    ∧ ∀ fuel', (bodies (S fuel') (length σ) (σ1 ++ [leaf_copy nd W b])).1
               = Ok (placed W [brep_copy b]).
Proof.
  intros Wf E Cn Bn Hf. pose proof (lookup_lt_Some _ _ _ E) as V.
  destruct (_get_world_transform_spec h d fuel σ n Wf V Hf)
    as (W & σ1 & E1 & Ww & W1 & _).
  pose proof (cache_only_get_world _ _ _ _ _ E1) as P1.
  pose proof (persistent_length _ _ P1) as Len.
  destruct (persistent_lookup _ _ _ _ P1 E) as (nd1 & En1 & Pn1).
  assert (Fields : class_ nd1 = class_ nd ∧ _body nd1 = _body nd
                   ∧ _bottom_index nd1 = _bottom_index nd
                   ∧ _top_index nd1 = _top_index nd).
  { unfold persistent in Pn1. injection Pn1. by intros -> -> _ _ -> _ _ _ _ ->. }
  destruct Fields as (Fc & Fb & Fbi & Fti).
  assert (Ecp : (σ1 ++ [(leaf_copy nd W b)]) !! length σ = Some (leaf_copy nd W b))
    by (by apply list_lookup_middle).
  exists W, σ1. split_and!; [done| |done| | |].
  - simpl. rewrite (run_bind _ _ _ _ _ (run_get_node _ _ _ E)).
    rewrite (run_bind _ _ σ (length σ) (σ ++ [new_component (class_ nd) None]))
      by done.
    rewrite (run_bind _ _ _ _ _ (_get_world_transform_app _ _ _ _ _ _ E1)).
    rewrite (run_bind _ _ _ _ _ (run_modify_last _ _ _ _ (eq_sym Len))).
    rewrite (run_bind _ _ _ _ _ (run_modify_last _ _ _ _ (eq_sym Len))).
    rewrite (run_bind _ _ _ _ _ (run_modify_last _ _ _ _ (eq_sym Len))).
    assert (Ec : _copy_to_own fuel n (length σ)
                   (σ1 ++ [set_name (name nd)
                             (clear_caches
                                (set_local_transform W
                                   (new_component (class_ nd) None)))])
                 = (Ok tt, σ1 ++ [(leaf_copy nd W b)])).
    { unfold _copy_to_own.
      rewrite (run_bind _ _ _ _ _ (run_get_node_app _ _ _ _ En1)).
      rewrite Fc, Fb, Bn, Fbi, Fti. unfold leaf_copy.
      destruct nd as [c]; simpl in *. destruct c; try done; simpl;
        unfold mbind, M_bind, bind, mret, M_ret, ret, modify;
        rewrite ?(list_lookup_middle σ1 [] _ (length σ) (eq_sym Len)); simpl;
        rewrite ?insert_app_r_alt by lia; rewrite ?Len, ?Nat.sub_diag; simpl;
        rewrite <- ?Len;
        rewrite ?(list_lookup_middle σ1 [] _ (length σ1) eq_refl); simpl;
        rewrite ?insert_app_r_alt by lia; rewrite ?Nat.sub_diag; simpl;
        reflexivity. }
    rewrite (run_bind _ _ _ _ _ Ec). by rewrite Cn.
  - apply wf_with_alloc_leaf; try done.
    unfold leaf_copy, children. simpl. by rewrite Cn.
  - apply World_root. rewrite frame_lookup, Ecp. done.
  - intros fuel'. unfold bodies.
    rewrite (run_bind _ _ _ _ _ (run_get_node _ _ _ Ecp)). simpl.
    assert (Ew : _get_world_transform (S fuel') (length σ) (σ1 ++ [(leaf_copy nd W b)])
                 = (Ok W, σ1 ++ [set_cached_world_transform (Some W) (leaf_copy nd W b)])).
    { simpl. rewrite (run_bind _ _ _ _ _ (run_get_node _ _ _ Ecp)). simpl.
      unfold mret, M_ret.
      rewrite (run_bind _ (λ transform, _) (σ1 ++ [(leaf_copy nd W b)]) W (σ1 ++ [(leaf_copy nd W b)])) by done.
      by rewrite (run_bind _ _ _ _ _ (run_modify_last _ _ _ _ (eq_sym Len))). }
    rewrite (run_bind _ _ _ _ _ Ew).
    assert (Er : _raw_bodies (length σ)
                   (σ1 ++ [set_cached_world_transform (Some W) (leaf_copy nd W b)])
                 = (Ok [Some (brep_copy b)],
                    σ1 ++ [set_cached_world_transform (Some W) (leaf_copy nd W b)])).
    { unfold _raw_bodies.
      rewrite (run_bind _ _ _ _ _ (run_get_node_last _ _ _ (eq_sym Len))).
      simpl. destruct nd as [c]; simpl in *. by destruct c. }
    rewrite (run_bind _ _ _ _ _ Er). simpl.
    rewrite (run_bind _ _ _ [brep_copy (brep_copy b)]
               (σ1 ++ [set_cached_world_transform (Some W) (leaf_copy nd W b)])) by done.
    by rewrite (run_bind _ _ _ _ _ (run_modify_last _ _ _ _ (eq_sym Len))).
Qed.

(** A [Difference] or an [Intersection] built from no component holds no
    body list: the constructor returns a new childless root whose
    [_bodies] is [None], on which [bodies()], and with it [size()],
    [min()], [max()] and [mid()], raise the error of iterating over
    [None], while [get_plane()] answers [None]. *)
Theorem empty_difference_has_no_bodies (fuel fuel' : nat) σ (nm : option string) :
  Difference_init (S fuel) [] nm σ
  = (Ok (length σ), σ ++ [new_component CDifference nm])
  ∧ Intersection_init (S fuel) [] nm σ
    = (Ok (length σ), σ ++ [new_component CIntersection nm])
  ∧ Forall (λ c,
      (bodies (S fuel') (length σ) (σ ++ [new_component c nm])).1 = Raise not_iterable
      ∧ (size (S fuel') (length σ) (σ ++ [new_component c nm])).1 = Raise not_iterable
      ∧ (min (S fuel') (length σ) (σ ++ [new_component c nm])).1 = Raise not_iterable
      ∧ (max (S fuel') (length σ) (σ ++ [new_component c nm])).1 = Raise not_iterable
      ∧ (mid (S fuel') (length σ) (σ ++ [new_component c nm])).1 = Raise not_iterable
      ∧ (get_plane (S fuel') (length σ) (σ ++ [new_component c nm])).1 = Ok None)
    [CDifference; CIntersection].
Proof.
  assert (L : ∀ nd : Node, (σ ++ [nd]) !! length σ = Some nd)
    by (intros; by apply list_lookup_middle).
  assert (I : ∀ nd nd' : Node, <[length σ := nd']> (σ ++ [nd]) = σ ++ [nd']).
  { intros. rewrite insert_app_r_alt by done. by rewrite Nat.sub_diag. }
  split_and!.
  - unfold Difference_init, _add_children, _add_children_with, alloc,
      mbind, M_bind, bind, mret, M_ret, ret; simpl.
    unfold mbind, M_bind, bind, modify, get_node, when, ret; simpl.
    by repeat (first [rewrite L | rewrite I]; simpl).
  - unfold Intersection_init, _add_children, _add_children_with, alloc,
      mbind, M_bind, bind, mret, M_ret, ret; simpl.
    unfold mbind, M_bind, bind, modify, get_node, when, ret; simpl.
    by repeat (first [rewrite L | rewrite I]; simpl).
  - assert (Each : ∀ c, c = CDifference ∨ c = CIntersection →
      (bodies (S fuel') (length σ) (σ ++ [new_component c nm])).1 = Raise not_iterable
      ∧ (size (S fuel') (length σ) (σ ++ [new_component c nm])).1 = Raise not_iterable
      ∧ (min (S fuel') (length σ) (σ ++ [new_component c nm])).1 = Raise not_iterable
      ∧ (max (S fuel') (length σ) (σ ++ [new_component c nm])).1 = Raise not_iterable
      ∧ (mid (S fuel') (length σ) (σ ++ [new_component c nm])).1 = Raise not_iterable
      ∧ (get_plane (S fuel') (length σ) (σ ++ [new_component c nm])).1 = Ok None).
    2:{ repeat constructor; apply Each; auto. }
    intros c Hc.
    assert (Eb : bodies (S fuel') (length σ) (σ ++ [new_component c nm])
                 = (Raise not_iterable,
                    σ ++ [set_cached_world_transform (Some m_create)
                            (new_component c nm)])).
    { unfold bodies, _raw_bodies; simpl.
      unfold mbind, M_bind, bind, mret, M_ret, ret, modify, get_node; simpl.
      repeat (first [rewrite L | rewrite I]; simpl).
      by destruct Hc as [-> | ->]. }
    assert (Ebb : bounding_box (S fuel') (length σ) (σ ++ [new_component c nm])
                  = (Raise not_iterable,
                     σ ++ [set_cached_world_transform (Some m_create)
                             (new_component c nm)])).
    { unfold bounding_box.
      rewrite (run_bind _ _ _ _ _ (run_get_node _ _ _ (L _))). simpl.
      unfold _get_exact_bounding_box.
      by rewrite (run_bind_raise _ _ _ _ _
                    (run_bind_raise _ _ _ _ _ (run_bind_raise _ _ _ _ _ Eb))). }
    unfold size, min, max, mid.
    rewrite !(run_bind_raise _ _ _ _ _ Ebb), Eb.
    split_and!; try done.
    destruct Hc as [-> | ->]; simpl;
      unfold mbind, M_bind, bind, mret, M_ret, ret, modify, get_node; simpl;
      by repeat (first [rewrite L | rewrite I]; simpl).
Qed.
End Allocation.

(** * Places *)
Section PlaceFacts.
Context `{Number}.
Import Alignment.

Lemma components_grow (h : heap) (t : nat) (v vec : Vector3D) (vector : nat) :
  components t h = Some v →
  components t (mkHeap (vectors h ++ [vec]) (translations h ++ [vector])) = Some v.
Proof.
  unfold components. simpl. intros E.
  destruct (translations h !! t) as [i|] eqn:Et; [|done]. simpl in E.
  rewrite (lookup_app_l_Some _ _ _ _ Et). simpl.
  by apply lookup_app_l_Some.
Qed.

(** [place == other], for a point, a number or a place, creates a new
    translation, whose vector is new too and runs from the place to the
    point the operand stands for; any other operand is refused.  The
    translations that existed keep their components, also when a number
    is then added to the new translation, which shifts its three
    components. *)
Theorem place_eq_is_a_fresh_translation (h : heap) (self : Place) (other : operand)
    (point : Point3D) (s : Scalar) :
  denotes other point →
  let t := length (translations h) in
  Place___eq__ self OfOther h = None
  ∧ ∃ h' h'',
      Place___eq__ self other h = Some (t, h')
      ∧ components t h' = Some (vectorTo (_point self) point)
      ∧ __add__ t s h' = Some (PyTranslation t, h'')
      ∧ components t h''
        = Some (map_vector (λ c, s_add c s) (vectorTo (_point self) point))
      ∧ ∀ t' v, components t' h = Some v →
          components t' h' = Some v ∧ components t' h'' = Some v.
Proof.
  intros D t. split; [done|]. subst t.
  set (vec := vectorTo (_point self) point).
  assert (Et : (translations h ++ [length (vectors h)]) !! length (translations h)
               = Some (length (vectors h)))
    by (by apply list_lookup_middle).
  assert (Ev : (vectors h ++ [vec]) !! length (vectors h) = Some vec)
    by (by apply list_lookup_middle).
  exists (mkHeap (vectors h ++ [vec]) (translations h ++ [length (vectors h)])),
    (mkHeap (<[length (vectors h) := map_vector (λ c, s_add c s) vec]>
               (vectors h ++ [vec]))
            (translations h ++ [length (vectors h)])).
  split_and!.
  - by destruct D.
  - unfold components. simpl. rewrite Et. simpl. by rewrite Ev.
  - unfold __add__, setWithArray_map. simpl. rewrite Et. simpl. by rewrite Ev.
  - unfold components. simpl. rewrite Et. simpl.
    rewrite insert_app_r_alt by done. rewrite Nat.sub_diag. simpl.
    by apply list_lookup_middle.
  - intros t' v E. split; [by apply components_grow|].
    pose proof (components_grow h t' v vec (length (vectors h)) E) as E'.
    unfold components in *. simpl in *.
    destruct (translations h !! t') as [i|] eqn:Ei; [|done]. simpl in E.
    rewrite (lookup_app_l_Some _ _ _ _ Ei) in *. simpl in *.
    rewrite list_lookup_insert_ne; [done|].
    intros <-. apply lookup_lt_Some in E. lia.
Qed.
End PlaceFacts.

(** * Coherence of the caches *)
Section Coherence.
Context `{Kernel}.
Implicit Types (σ : store) (nd : Node).

Lemma persistent_class nd nd' :
  persistent nd' = persistent nd → class_ nd' = class_ nd.
Proof. unfold persistent. intros P. by injection P. Qed.

(** Replacing a node by one that differs in caches only, each of them
    either kept or valid, keeps the store coherent. *)
Lemma coherent_insert h d σ n nd nd' :
  coherent h d σ → σ !! n = Some nd → persistent nd' = persistent nd →
  (∀ w, _cached_world_transform nd' = Some w → World (frame σ) n w) →
  (∀ bs, _cached_bodies nd' = Some bs →
     ∃ W raw, World (frame σ) n W ∧ raw_bodies nd = Some raw ∧ bs = placed W raw) →
  (∀ bb, _cached_bounding_box nd' = Some bb →
     ∃ W raw, World (frame σ) n W ∧ raw_bodies nd = Some raw
              ∧ measured (placed W raw) = Some bb) →
  (∀ inv, is_composite (class_ nd) = true →
     _cached_inverse_transform nd' = Some inv →
     ∃ W, World (frame σ) n W ∧ inv = m_invert W) →
  coherent h d (<[n := nd']> σ).
Proof.
  intros [[R P C] Cb Cx Ci] E Pe Hw Hb Hx Hi.
  assert (Pf : persistent <$> <[n := nd']> σ = persistent <$> σ).
  { rewrite list_fmap_insert, Pe. apply list_insert_id.
    by rewrite list_lookup_fmap, E. }
  destruct (persistent_frame _ _ Pf) as [F S].
  pose proof (lookup_lt_Some _ _ _ E) as V.
  pose proof (raw_bodies_persistent _ _ Pe) as Rw.
  pose proof (persistent_class _ _ Pe) as Cl.
  split; [split|..]; rewrite ?S, ?F; try done.
  - intros m nd1 w E1 Cw. destruct (decide (m = n)) as [->|Hm].
    + rewrite list_lookup_insert_eq in E1 by done. injection E1 as <-. auto.
    + rewrite list_lookup_insert_ne in E1 by done. by eapply C.
  - intros m nd1 bs E1 Cw. destruct (decide (m = n)) as [->|Hm].
    + rewrite list_lookup_insert_eq in E1 by done. injection E1 as <-.
      rewrite Rw. auto.
    + rewrite list_lookup_insert_ne in E1 by done. by eapply Cb.
  - intros m nd1 bb E1 Cw. destruct (decide (m = n)) as [->|Hm].
    + rewrite list_lookup_insert_eq in E1 by done. injection E1 as <-.
      rewrite Rw. auto.
    + rewrite list_lookup_insert_ne in E1 by done. by eapply Cx.
  - intros m nd1 inv E1 Cm Cw. destruct (decide (m = n)) as [->|Hm].
    + rewrite list_lookup_insert_eq in E1 by done. injection E1 as <-.
      rewrite Cl in Cm. auto.
    + rewrite list_lookup_insert_ne in E1 by done. by eapply Ci.
Qed.

(** A world-transform query keeps the store coherent whatever its
    outcome, and what it returns is the specified world transform. *)
Lemma world_query_keeps h d fuel : ∀ n σ r σ',
  coherent h d σ → _get_world_transform fuel n σ = (r, σ') →
  coherent h d σ' ∧ ∀ w, r = Ok w → World (frame σ) n w.
Proof.
  induction fuel as [|fuel IH]; intros n σ r σ' Co E.
  { injection E as <- <-. by split. }
  simpl in E. unfold mbind, M_bind, bind, get_node in E.
  destruct (σ !! n) as [nd|] eqn:En; [|injection E as <- <-; by split].
  destruct (_cached_world_transform nd) as [c|] eqn:Cw.
  { injection E as <- <-. split; [done|]. intros w [= <-].
    by eapply (wf_cache _ _ _ (coh_wf _ _ _ Co)). }
  assert (Fill : ∀ σ1 w, coherent h d σ1 →
            persistent <$> σ1 = persistent <$> σ → World (frame σ) n w →
            ∃ nd1, σ1 !! n = Some nd1
              ∧ coherent h d (<[n := set_cached_world_transform (Some w) nd1]> σ1)).
  { intros σ1 w Co1 P1 Ww.
    destruct (persistent_lookup _ _ _ _ P1 En) as (nd1 & En1 & Pn1).
    destruct (persistent_frame _ _ P1) as [F1 _].
    exists nd1. split; [done|].
    eapply coherent_insert; try done.
    - intros w' [= <-]. by rewrite F1.
    - intros bs Cbs. by eapply (coh_bodies _ _ _ Co1).
    - intros bb Cbb. by eapply (coh_box _ _ _ Co1).
    - intros inv Cm Cinv. by eapply (coh_inverse _ _ _ Co1). }
  pose proof (frame_lookup_Some _ _ _ En) as Fn.
  destruct (_parent nd) as [p|] eqn:Pn.
  - destruct (_get_world_transform fuel p σ) as [[pw|e|] σ1] eqn:Ep;
      destruct (IH _ _ _ _ Co Ep) as [Co1 Wp];
      try (injection E as <- <-; by split).
    simpl in E. unfold ret in E at 1.
    assert (Ww : World (frame σ) n (m_transformBy (_local_transform nd) pw)).
    { eapply World_child; [done|]. by apply Wp. }
    pose proof (cache_only_get_world _ _ _ _ _ Ep) as P1.
    destruct (Fill _ _ Co1 P1 Ww) as (nd1 & En1 & Co2).
    rewrite (run_modify _ _ _ _ En1) in E. unfold ret in E.
    injection E as <- <-. split; [done|]. by intros w [= <-].
  - simpl in E. unfold ret in E at 1.
    assert (Ww : World (frame σ) n (_local_transform nd)) by (by apply World_root).
    destruct (Fill σ _ Co eq_refl Ww) as (nd1 & En1 & Co2).
    rewrite (run_modify _ _ _ _ En1) in E. unfold ret in E. injection E as <- <-.
    split; [done|]. by intros w [= <-].
Qed.

Lemma raw_bodies_none σ n nd {B} (K : list Body → M B) :
  σ !! n = Some nd → raw_bodies nd = None →
  ∃ e, (raw ← _raw_bodies n; copies ← mapM copy_body raw; K copies) σ = (Raise e, σ).
Proof.
  intros E R. unfold _raw_bodies.
  unfold raw_bodies in R. unfold mbind at 1, M_bind at 1, bind at 1.
  unfold mbind at 1, M_bind at 1, bind at 1.
  rewrite (run_get_node _ _ _ E).
  destruct (class_ nd); simpl in R;
    try (rewrite R; by eexists);
    destruct (_body nd); try done; by eexists.
Qed.

(** [bodies()] keeps the store coherent whatever its outcome, and what it
    returns is the raw bodies placed by the world transform. *)
Lemma bodies_keeps h d fuel n σ r σ' :
  coherent h d σ → bodies fuel n σ = (r, σ') →
  coherent h d σ'
  ∧ ∀ bs, r = Ok bs →
      ∃ nd' W raw, σ' !! n = Some nd' ∧ World (frame σ) n W
        ∧ raw_bodies nd' = Some raw ∧ bs = placed W raw.
Proof.
  intros Co E. unfold bodies in E.
  destruct (σ !! n) as [nd|] eqn:En.
  2:{ unfold mbind, M_bind, bind, get_node in E. rewrite En in E.
      injection E as <- <-. by split. }
  rewrite (run_bind _ _ _ _ _ (run_get_node _ _ _ En)) in E.
  destruct (_cached_bodies nd) as [c|] eqn:Cb.
  { injection E as <- <-. split; [done|]. intros bs [= <-].
    destruct (coh_bodies _ _ _ Co _ _ _ En Cb) as (W & raw & ? & ? & ?).
    by exists nd, W, raw. }
  destruct (_get_world_transform fuel n σ) as [[W|e|] σ1] eqn:Ew;
    destruct (world_query_keeps _ _ _ _ _ _ _ Co Ew) as [Co1 Ww];
    unfold mbind at 1, M_bind at 1, bind at 1 in E; rewrite Ew in E;
    try (injection E as <- <-; by split).
  specialize (Ww W eq_refl).
  pose proof (cache_only_get_world _ _ _ _ _ Ew) as P1.
  destruct (persistent_lookup _ _ _ _ P1 En) as (nd1 & En1 & Pn1).
  destruct (persistent_frame _ _ P1) as [F1 _].
  destruct (raw_bodies nd1) as [raw|] eqn:Rw.
  - rewrite (run_bind _ _ _ _ _ (run_raw_bodies _ _ _ _ En1 Rw)) in E.
    rewrite (run_bind _ _ _ _ _ (run_mapM_copy_body _ _)) in E.
    rewrite <- list_fmap_compose in E.
    change ((λ body, brep_transform body W) ∘ brep_copy <$> raw)
      with (placed W raw) in E.
    rewrite (run_bind _ _ _ _ _ (run_modify _ _ _ _ En1)) in E.
    injection E as <- <-. split.
    + eapply coherent_insert; try done.
      * intros w Cw. by eapply (wf_cache _ _ _ (coh_wf _ _ _ Co1)).
      * intros bs [= <-]. exists W, raw. by rewrite F1.
      * intros bb Cbb. by eapply (coh_box _ _ _ Co1).
      * intros inv Cm Cinv. by eapply (coh_inverse _ _ _ Co1).
    + intros bs [= <-].
      exists (set_cached_bodies (Some (placed W raw)) nd1), W, raw.
      split_and!; try done.
      apply list_lookup_insert_eq. by eapply lookup_lt_Some.
  - match type of E with
    | (_ ≫= λ raw, _ ≫= ?K) σ1 = _ =>
      destruct (raw_bodies_none σ1 n nd1 K En1 Rw) as [e Er]
    end.
    rewrite Er in E. injection E as <- <-. by split.
Qed.

(** The common prefix of [size], [min], [max] and [mid] keeps the store
    coherent whatever its outcome. *)
Lemma bounding_box_keeps h d fuel n σ r σ' :
  coherent h d σ → bounding_box fuel n σ = (r, σ') → coherent h d σ'.
Proof.
  intros Co E. unfold bounding_box in E.
  destruct (σ !! n) as [nd|] eqn:En.
  2:{ unfold mbind, M_bind, bind, get_node in E. rewrite En in E.
      by injection E as <- <-. }
  rewrite (run_bind _ _ _ _ _ (run_get_node _ _ _ En)) in E.
  destruct (_cached_bounding_box nd) as [c|] eqn:Cb.
  { by injection E as <- <-. }
  unfold _get_exact_bounding_box in E.
  unfold mbind, M_bind, bind in E.
  destruct (bodies fuel n σ) as [[bs|e|] σ1] eqn:Eb;
    destruct (bodies_keeps _ _ _ _ _ _ _ Co Eb) as [Co1 Hb];
    try (by injection E as <- <-).
  destruct (Hb bs eq_refl) as (nd1 & W & raw & En1 & Ww & Rw & ->).
  unfold ret in E at 1. rewrite (run_modify _ _ _ _ En1) in E.
  assert (Co2 : coherent h d
            (<[n := set_cached_bounding_box (combine_boxes None (placed W raw)) nd1]> σ1)).
  { pose proof (cache_only_bodies _ _ _ _ _ Eb) as P1.
    destruct (persistent_frame _ _ P1) as [F1 _].
    eapply coherent_insert; try done.
    - intros w Cw. by eapply (wf_cache _ _ _ (coh_wf _ _ _ Co1)).
    - intros bs Cbs. by eapply (coh_bodies _ _ _ Co1).
    - intros bb Cbb. exists W, raw. by rewrite F1.
    - intros inv Cm Cinv. by eapply (coh_inverse _ _ _ Co1). }
  destruct (combine_boxes None (placed W raw)); by injection E as <- <-.
Qed.

Lemma inverse_keeps h d fuel n σ r σ' :
  coherent h d σ → _inverse_transform fuel n σ = (r, σ') → coherent h d σ'.
Proof.
  intros Co E. unfold _inverse_transform in E.
  destruct (σ !! n) as [nd|] eqn:En.
  2:{ unfold mbind, M_bind, bind, get_node in E. rewrite En in E.
      by injection E as <- <-. }
  rewrite (run_bind _ _ _ _ _ (run_get_node _ _ _ En)) in E.
  destruct (_cached_inverse_transform nd) as [c|] eqn:Ci.
  { by injection E as <- <-. }
  destruct (_get_world_transform fuel n σ) as [[W|e|] σ1] eqn:Ew;
    destruct (world_query_keeps _ _ _ _ _ _ _ Co Ew) as [Co1 Ww];
    unfold mbind at 1, M_bind at 1, bind at 1 in E; rewrite Ew in E;
    try (by injection E as <- <-).
  specialize (Ww W eq_refl).
  pose proof (cache_only_get_world _ _ _ _ _ Ew) as P1.
  destruct (persistent_lookup _ _ _ _ P1 En) as (nd1 & En1 & Pn1).
  destruct (persistent_frame _ _ P1) as [F1 _].
  rewrite (run_bind _ _ _ _ _ (run_modify _ _ _ _ En1)) in E.
  injection E as <- <-.
  eapply coherent_insert; try done.
  - intros w Cw. by eapply (wf_cache _ _ _ (coh_wf _ _ _ Co1)).
  - intros bs Cbs. by eapply (coh_bodies _ _ _ Co1).
  - intros bb Cbb. by eapply (coh_box _ _ _ Co1).
  - intros inv Cm [= <-]. exists W. by rewrite F1.
Qed.

Lemma reset_node_not_cached nd :
  _cached_bodies (reset_node nd) = None
  ∧ _cached_bounding_box (reset_node nd) = None
  ∧ (is_composite (class_ (reset_node nd)) = true →
     _cached_inverse_transform (reset_node nd) = None).
Proof.
  destruct (reset_node_caches nd) as (_ & ? & ?). split_and!; try done.
  rewrite class_reset_node. apply reset_node_inverse.
Qed.

Lemma reset_on_coherent h d (P : id → Prop) σ σ' :
  coherent h d σ → reset_on P σ σ' → coherent h d σ'.
Proof.
  intros Co Ro. pose proof (reset_on_frame _ _ _ Ro) as F.
  split; rewrite ?F.
  - eapply reset_on_wf; [apply Co | done].
  - intros m nd' bs E' Cx. destruct (Ro m) as [[_ Em]|[_ Em]]; rewrite E' in Em.
    + destruct (σ !! m) as [nd0|]; simpl in Em; [|done]. injection Em as ->.
      destruct (reset_node_not_cached nd0) as (N & _). congruence.
    + by eapply (coh_bodies _ _ _ Co).
  - intros m nd' bb E' Cx. destruct (Ro m) as [[_ Em]|[_ Em]]; rewrite E' in Em.
    + destruct (σ !! m) as [nd0|]; simpl in Em; [|done]. injection Em as ->.
      destruct (reset_node_not_cached nd0) as (_ & N & _). congruence.
    + by eapply (coh_box _ _ _ Co).
  - intros m nd' inv E' Cm Cx. destruct (Ro m) as [[_ Em]|[_ Em]]; rewrite E' in Em.
    + destruct (σ !! m) as [nd0|]; simpl in Em; [|done]. injection Em as ->.
      destruct (reset_node_not_cached nd0) as (_ & _ & N). rewrite N in Cx; done.
    + by eapply (coh_inverse _ _ _ Co).
Qed.

Lemma relocate_reset_coherent h d σ n nd L σ' :
  coherent h d σ → σ !! n = Some nd →
  reset_on (descendant σ n) (<[n := set_local_transform L nd]> σ) σ' →
  coherent h d σ'.
Proof.
  intros Co E Ro.
  assert (F1 : frame σ' = <[n := (_parent nd, L)]> (frame σ)).
  { rewrite (reset_on_frame _ _ _ Ro). by apply frame_relocated. }
  assert (Out : ∀ m nd', σ' !! m = Some nd' →
            (∃ nd0, nd' = reset_node nd0)
            ∨ (σ !! m = Some nd'
               ∧ ∀ W, World (frame σ) m W → World (frame σ') m W)).
  { intros m nd' E'. destruct (Ro m) as [[_ Em]|[N Em]]; rewrite E' in Em.
    - left. destruct (<[n := set_local_transform L nd]> σ !! m) as [nd0|];
        simpl in Em; [|done]. injection Em as ->. by exists nd0.
    - right. assert (Hm : n ≠ m) by (intros ->; apply N, rtc_refl).
      rewrite list_lookup_insert_ne in Em by done. split; [done|].
      intros W Ww. rewrite F1.
      by eapply (World_outside h d σ n nd L m W (coh_wf _ _ _ Co)). }
  split.
  - eapply relocate_reset_wf; [apply Co | done..].
  - intros m nd' bs E' Cx. destruct (Out m nd' E') as [[nd0 ->]|[Em Wo]].
    + destruct (reset_node_not_cached nd0) as (N & _). congruence.
    + destruct (coh_bodies _ _ _ Co _ _ _ Em Cx) as (W & raw & ? & ? & ?).
      exists W, raw. split_and!; auto.
  - intros m nd' bb E' Cx. destruct (Out m nd' E') as [[nd0 ->]|[Em Wo]].
    + destruct (reset_node_not_cached nd0) as (_ & N & _). congruence.
    + destruct (coh_box _ _ _ Co _ _ _ Em Cx) as (W & raw & ? & ? & ?).
      exists W, raw. split_and!; auto.
  - intros m nd' inv E' Cm Cx. destruct (Out m nd' E') as [[nd0 ->]|[Em Wo]].
    + destruct (reset_node_not_cached nd0) as (_ & _ & N). rewrite N in Cx; done.
    + destruct (coh_inverse _ _ _ Co _ _ _ Em Cm Cx) as (W & ? & ?).
      exists W. split; auto.
Qed.

Lemma perform_coherent h d len fuel a σ :
  (∀ m, m < len → h m < fuel ∧ d m < fuel) →
  coherent h d σ → length σ = len → coherent h d (perform fuel a σ).
Proof.
  intros B Co Len. pose proof (coh_wf _ _ _ Co) as W.
  destruct a as [n mu|n|n]; simpl.
  - destruct (σ !! n) as [nd|] eqn:E; [|by rewrite mutate_invalid].
    assert (Hn : n < len) by (rewrite <- Len; by eapply lookup_lt_Some).
    pose proof (mutate_spec h fuel σ n nd mu (wf_ranked _ _ _ W) E
                  (proj1 (B n Hn))) as Sp.
    destruct (mutated_local mu (_local_transform nd)) as [L|].
    + destruct Sp as [σ' [-> Ro]]. simpl. by eapply relocate_reset_coherent.
    + by rewrite Sp.
  - destruct (σ !! n) as [nd|] eqn:E; [|by rewrite _reset_cache_invalid].
    assert (Hn : n < len) by (rewrite <- Len; by eapply lookup_lt_Some).
    destruct (_reset_cache_spec h fuel σ n (wf_ranked _ _ _ W)) as [σ' [-> Ro]];
      [lia | by apply B |].
    simpl. by eapply reset_on_coherent.
  - destruct (_get_world_transform fuel n σ) as [r σ'] eqn:E.
    by destruct (world_query_keeps _ _ _ _ _ _ _ Co E).
Qed.

Lemma cache_only_length {A} (m : M A) σ :
  cache_only m → length (m σ).2 = length σ.
Proof.
  intros Hm. destruct (m σ) as [o σ'] eqn:E. simpl.
  apply persistent_length. by eapply Hm.
Qed.

Lemma bounding_box_then_keeps h d fuel n σ {A} (f : BoundingBox3D → A) :
  coherent h d σ →
  coherent h d ((bb ← bounding_box fuel n; mret (f bb)) σ).2
  ∧ length ((bb ← bounding_box fuel n; mret (f bb)) σ).2 = length σ.
Proof.
  intros Co. split.
  - unfold mbind, M_bind, bind.
    destruct (bounding_box fuel n σ) as [[bb|e|] σ'] eqn:E; simpl;
      by eapply bounding_box_keeps.
  - apply cache_only_length. apply cache_only_bind;
      [apply cache_only_bounding_box | intros; apply cache_only_ret].
Qed.

Lemma serve_keeps h d len fuel r σ :
  (∀ m, m < len → h m < fuel ∧ d m < fuel) →
  coherent h d σ ∧ length σ = len →
  coherent h d (serve fuel r σ) ∧ length (serve fuel r σ) = len.
Proof.
  intros B [Co Len].
  destruct r as [a|n|n|n|n|n|n]; simpl.
  - split; [by eapply perform_coherent|].
    by destruct (perform_Inv h d len fuel a σ B (conj (coh_wf _ _ _ Co) Len)).
  - split.
    + destruct (bodies fuel n σ) as [r σ'] eqn:E.
      by destruct (bodies_keeps _ _ _ _ _ _ _ Co E).
    + rewrite <- Len. apply cache_only_length, cache_only_bodies.
  - rewrite <- Len. by apply bounding_box_then_keeps.
  - rewrite <- Len. by apply bounding_box_then_keeps.
  - rewrite <- Len. by apply bounding_box_then_keeps.
  - rewrite <- Len. by apply bounding_box_then_keeps.
  - split.
    + destruct (_inverse_transform fuel n σ) as [r σ'] eqn:E.
      by eapply inverse_keeps.
    + rewrite <- Len. apply cache_only_length, cache_only_inverse.
Qed.

Lemma serve_all_keeps h d len fuel requests : ∀ σ,
  (∀ m, m < len → h m < fuel ∧ d m < fuel) →
  coherent h d σ ∧ length σ = len →
  coherent h d (serve_all fuel requests σ)
  ∧ length (serve_all fuel requests σ) = len.
Proof.
  unfold serve_all. induction requests as [|r requests IH]; intros σ B I; [done|].
  simpl. apply IH; [done|]. by apply serve_keeps.
Qed.

(** In a coherent store every query answers as a fresh computation
    would, whether its cache is filled or not. *)
Lemma coherent_bodies h d fuel σ n nd raw :
  coherent h d σ → σ !! n = Some nd → d n < fuel → raw_bodies nd = Some raw →
  ∃ W σ' nd', World (frame σ) n W
    ∧ bodies fuel n σ = (Ok (placed W raw), σ')
    ∧ coherent h d σ' ∧ persistent <$> σ' = persistent <$> σ
    ∧ σ' !! n = Some nd'.
Proof.
  intros Co E Hf Rw. pose proof (lookup_lt_Some _ _ _ E) as V.
  destruct (_get_world_transform_spec h d fuel σ n (coh_wf _ _ _ Co) V Hf)
    as (W & σw & Ew & Ww & _).
  destruct (bodies fuel n σ) as [r σ'] eqn:Eb.
  destruct (bodies_keeps _ _ _ _ _ _ _ Co Eb) as [Co' Hb].
  pose proof (cache_only_bodies _ _ _ _ _ Eb) as P'.
  destruct (persistent_lookup _ _ _ _ P' E) as (nd' & En' & Pn').
  exists W, σ', nd'. split_and!; try done.
  assert (Ok_ : ∃ bs, r = Ok bs).
  { unfold bodies in Eb. rewrite (run_bind _ _ _ _ _ (run_get_node _ _ _ E)) in Eb.
    destruct (_cached_bodies nd) as [c|] eqn:Cb.
    - injection Eb as <- _. by eexists.
    - pose proof (cache_only_get_world _ _ _ _ _ Ew) as Pw.
      destruct (persistent_lookup _ _ _ _ Pw E) as (ndw & Enw & Pnw).
      pose proof (raw_bodies_persistent _ _ Pnw) as Rww. rewrite Rw in Rww.
      pose proof (run_bodies _ _ _ _ _ _ _ _ E Cb Ew Enw Rww) as E0.
      unfold bodies in E0.
      rewrite (run_bind _ _ _ _ _ (run_get_node _ _ _ E)), Cb in E0.
      rewrite E0 in Eb. injection Eb as <- _. by eexists. }
  destruct Ok_ as [bs ->]. f_equal. f_equal.
  destruct (Hb bs eq_refl) as (nd1 & W1 & raw1 & En1 & Ww1 & Rw1 & ->).
  rewrite En' in En1. injection En1 as <-.
  rewrite (raw_bodies_persistent _ _ Pn'), Rw in Rw1. injection Rw1 as <-.
  f_equal. by eapply World_det.
Qed.

Lemma coherent_bounding_box h d fuel σ n nd raw bb W :
  coherent h d σ → σ !! n = Some nd → d n < fuel → raw_bodies nd = Some raw →
  World (frame σ) n W → measured (placed W raw) = Some bb →
  ∃ σ', bounding_box fuel n σ = (Ok bb, σ').
Proof.
  intros Co E Hf Rw Ww Mb. unfold bounding_box.
  rewrite (run_bind _ _ _ _ _ (run_get_node _ _ _ E)).
  destruct (_cached_bounding_box nd) as [c|] eqn:Cb.
  - destruct (coh_box _ _ _ Co _ _ _ E Cb) as (W' & raw' & Ww' & Rw' & Mb').
    rewrite Rw in Rw'. injection Rw' as <-.
    rewrite <- (World_det _ _ _ _ Ww Ww'), Mb in Mb'. injection Mb' as <-.
    by exists σ.
  - destruct (coherent_bodies h d fuel σ n nd raw Co E Hf Rw)
      as (W' & σ' & nd' & Ww' & Eb & _ & _ & En').
    rewrite <- (World_det _ _ _ _ Ww Ww') in Eb.
    assert (In : (bb0 ← _get_exact_bounding_box fuel n;
                  modify n (set_cached_bounding_box bb0);; mret bb0) σ
                 = (Ok (Some bb), <[n := set_cached_bounding_box (Some bb) nd']> σ')).
    { unfold _get_exact_bounding_box.
      rewrite (run_bind _ _ _ _ _ (run_bind _ _ _ _ _ Eb)).
      unfold mret, M_ret, ret at 1. fold (measured (placed W raw)). rewrite Mb.
      by rewrite (run_bind _ _ _ _ _ (run_modify _ _ _ _ En')). }
    rewrite (run_bind _ _ _ _ _ In). by eexists.
Qed.

Lemma coherent_inverse h d fuel σ n nd W :
  coherent h d σ → σ !! n = Some nd → d n < fuel →
  is_composite (class_ nd) = true → World (frame σ) n W →
  ∃ σ', _inverse_transform fuel n σ = (Ok (m_invert W), σ').
Proof.
  intros Co E Hf Cm Ww.
  destruct (_cached_inverse_transform nd) as [c|] eqn:Ci.
  - destruct (coh_inverse _ _ _ Co _ _ _ E Cm Ci) as (W' & Ww' & ->).
    rewrite <- (World_det _ _ _ _ Ww Ww') in Ci.
    exists σ. by eapply _inverse_transform_again.
  - destruct (run_inverse_transform h d fuel σ n nd (coh_wf _ _ _ Co) E Hf Ci)
      as (W' & σ' & Ww' & Ei & _).
    rewrite <- (World_det _ _ _ _ Ww Ww') in Ei. by exists σ'.
Qed.

(** No cache is ever stale.  From a coherent store, after any sequence of
    mutations, invalidations and queries (world transform, bodies, size,
    min, max, mid, inverse transform), every node that owns its geometry
    answers as if nothing were cached: [bodies()] returns its raw bodies
    placed by its current world transform, [min()] and [max()] the
    corners of the measure of those, and the inverse transform of a
    composite is the inverse of that world transform. *)
Theorem caches_are_never_stale (h d : id → nat) (fuel : nat) (σ0 : store)
    (requests : list request) :
  coherent h d σ0 →
  (∀ m, m < length σ0 → h m < fuel ∧ d m < fuel) →
  ∀ n nd raw,
    serve_all fuel requests σ0 !! n = Some nd → raw_bodies nd = Some raw →
    ∃ W, World (frame (serve_all fuel requests σ0)) n W
      ∧ (bodies fuel n (serve_all fuel requests σ0)).1 = Ok (placed W raw)
      ∧ (∀ bb, measured (placed W raw) = Some bb →
           (min fuel n (serve_all fuel requests σ0)).1 = Ok (minPoint bb)
           ∧ (max fuel n (serve_all fuel requests σ0)).1 = Ok (maxPoint bb))
      ∧ (is_composite (class_ nd) = true →
           (_inverse_transform fuel n (serve_all fuel requests σ0)).1
           = Ok (m_invert W)).
Proof.
  intros Co0 B n nd raw E Rw.
  destruct (serve_all_keeps h d (length σ0) fuel requests σ0 B (conj Co0 eq_refl))
    as [Co Len].
  set (σ := serve_all fuel requests σ0) in *.
  assert (Hf : d n < fuel).
  { apply B. rewrite <- Len. by eapply lookup_lt_Some. }
  destruct (coherent_bodies h d fuel σ n nd raw Co E Hf Rw)
    as (W & σ' & nd' & Ww & Eb & _).
  exists W. split_and!; [done | by rewrite Eb | |].
  - intros bb Mb.
    destruct (coherent_bounding_box h d fuel σ n nd raw bb W Co E Hf Rw Ww Mb)
      as [σb Ebb].
    unfold min, max. by rewrite !(run_bind _ _ _ _ _ Ebb).
  - intros Cm.
    destruct (coherent_inverse h d fuel σ n nd W Co E Hf Cm Ww) as [σi Ei].
    by rewrite Ei.
Qed.
End Coherence.

(** * Attaching children *)
Section Attach.
Context `{Kernel}.
Implicit Types (σ : store) (nd : Node) (X : id → Prop).

Lemma shape_frame σ σ' :
  shape_of <$> σ' = shape_of <$> σ →
  frame σ' = frame σ ∧ skeleton σ' = skeleton σ ∧ length σ' = length σ.
Proof.
  intros P. split_and!.
  - apply list_eq; intros m;
      pose proof (f_equal (.!! m) P) as Pm; simpl in Pm;
      rewrite !list_lookup_fmap in Pm; rewrite !frame_lookup.
    destruct (σ' !! m) as [a|], (σ !! m) as [b|]; try done.
    simpl in *. injection Pm. by intros _ _ _ -> ->.
  - apply list_eq; intros m;
      pose proof (f_equal (.!! m) P) as Pm; simpl in Pm;
      rewrite !list_lookup_fmap in Pm; rewrite !skeleton_lookup.
    destruct (σ' !! m) as [a|], (σ !! m) as [b|]; try done.
    simpl in *. injection Pm. unfold children. by intros _ -> -> _ _.
  - by rewrite <- (length_fmap shape_of σ'), P, length_fmap.
Qed.

Lemma shape_lookup σ σ' n nd :
  shape_of <$> σ' = shape_of <$> σ → σ !! n = Some nd →
  ∃ nd', σ' !! n = Some nd' ∧ shape_of nd' = shape_of nd.
Proof.
  intros P E. pose proof (f_equal (.!! n) P) as Pn. simpl in Pn.
  rewrite !list_lookup_fmap, E in Pn.
  destruct (σ' !! n) as [nd'|]; simpl in Pn; [|done].
  exists nd'. split; [done|]. congruence.
Qed.

Lemma shape_insert σ n nd nd' :
  σ !! n = Some nd → shape_of nd' = shape_of nd →
  shape_of <$> <[n := nd']> σ = shape_of <$> σ.
Proof.
  intros E S. rewrite list_fmap_insert, S. apply list_insert_id.
  by rewrite list_lookup_fmap, E.
Qed.

(** A store with the same tree and valid caches is as well formed. *)
Lemma wf_but_shape X h d σ σ' :
  wf_but X h d σ → shape_of <$> σ' = shape_of <$> σ →
  (∀ n nd' w, ¬ X n → σ' !! n = Some nd' →
     _cached_world_transform nd' = Some w → World (frame σ) n w) →
  wf_but X h d σ'.
Proof.
  intros [R P C L] S V. destruct (shape_frame _ _ S) as (F & K & _).
  split; rewrite ?F, ?K; done.
Qed.

(** No node has a parent that is in [X]. *)
Lemma parent_not_leaf X h d σ n p L :
  wf_but X h d σ → frame σ !! n = Some (Some p, L) → ¬ X p.
Proof.
  intros W E Xp. destruct (wfb_parent _ _ _ _ W _ _ _ E) as [_ [cs [Ecs I]]].
  rewrite (wfb_leaves _ _ _ _ W _ Xp) in Ecs. injection Ecs as <-.
  by apply elem_of_nil in I.
Qed.

Lemma safe_ret {A} (a : A) : safe (mret a).
Proof. intros X h d σ r σ' W E. by injection E as _ <-. Qed.

Lemma safe_raise {A} e : safe (raise (A:=A) e).
Proof. intros X h d σ r σ' W E. by injection E as _ <-. Qed.

Lemma safe_out_of_fuel {A} : safe (out_of_fuel (A:=A)).
Proof. intros X h d σ r σ' W E. by injection E as _ <-. Qed.

Lemma safe_bind {A B} (m : M A) (k : A → M B) :
  safe m → (∀ a, safe (k a)) → safe (m ≫= k).
Proof.
  intros Hm Hk X h d σ r σ' W E. unfold mbind, M_bind, bind in E.
  destruct (m σ) as [[a|e|] σ1] eqn:E1;
    destruct (Hm _ _ _ _ _ _ W E1) as [W1 S1].
  - destruct (Hk _ _ _ _ _ _ _ W1 E) as [W2 S2]. split; [done|]. by rewrite S2.
  - by injection E as _ <-.
  - by injection E as _ <-.
Qed.

Lemma safe_get_node n : safe (get_node n).
Proof.
  intros X h d σ r σ' W E. unfold get_node in E.
  destruct (σ !! n); by injection E as _ <-.
Qed.

Lemma safe_modify n f :
  (∀ nd, shape_of (f nd) = shape_of nd
         ∧ _cached_world_transform (f nd) = _cached_world_transform nd) →
  safe (modify n f).
Proof.
  intros Hf X h d σ r σ' W E. unfold modify in E.
  destruct (σ !! n) as [nd|] eqn:En; injection E as _ <-; [|done].
  destruct (Hf nd) as [Sf Cf].
  pose proof (shape_insert _ _ _ _ En Sf) as S. split; [|done].
  eapply wf_but_shape; [done..|].
  intros m nd' w Xm E' Cw. destruct (decide (m = n)) as [->|Hm].
  - rewrite list_lookup_insert_eq in E' by (by eapply lookup_lt_Some).
    injection E' as <-. rewrite Cf in Cw. by eapply (wfb_cache _ _ _ _ W).
  - rewrite list_lookup_insert_ne in E' by done. by eapply (wfb_cache _ _ _ _ W).
Qed.

Lemma safe_for_each {A} (f : A → M unit) l :
  (∀ a, safe (f a)) → safe (for_each l f).
Proof.
  intros Hf. induction l as [|a l IH]; [apply (safe_ret tt)|].
  simpl. by apply safe_bind.
Qed.

Lemma safe_mapM {A B} (f : A → M B) l :
  (∀ a, safe (f a)) → safe (mapM f l).
Proof.
  intros Hf. induction l as [|a l IH]; simpl; [apply (safe_ret [])|].
  apply safe_bind; [done|]. intros b.
  apply safe_bind; [done|]. intros bs. apply (safe_ret (b :: bs)).
Qed.

(** A world-transform query on a tree that is well formed but for [X]:
    it leaves the tree as it is and as well formed; outside [X] it returns
    the specified world transform; and with enough fuel it returns. *)
Lemma get_world_but X h d fuel : ∀ n σ r σ',
  wf_but X h d σ → _get_world_transform fuel n σ = (r, σ') →
  (wf_but X h d σ' ∧ shape_of <$> σ' = shape_of <$> σ)
  ∧ (¬ X n → ∀ w, r = Ok w → World (frame σ) n w)
  ∧ (n < length σ → d n < fuel → ∃ w, r = Ok w).
Proof.
  induction fuel as [|fuel IH]; intros n σ r σ' W E.
  { injection E as <- <-. split_and!; [done..|lia]. }
  simpl in E. unfold mbind, M_bind, bind, get_node in E.
  destruct (σ !! n) as [nd|] eqn:En.
  2:{ injection E as <- <-. split_and!; try done.
      intros V. apply lookup_ge_None in En. lia. }
  destruct (_cached_world_transform nd) as [c|] eqn:Cw.
  { injection E as <- <-. split_and!; [done..| |by eexists].
    intros Xn w [= <-]. by eapply (wfb_cache _ _ _ _ W). }
  assert (Fill : ∀ σ1 w, wf_but X h d σ1 →
            shape_of <$> σ1 = shape_of <$> σ → (¬ X n → World (frame σ) n w) →
            ∃ nd1, σ1 !! n = Some nd1
              ∧ wf_but X h d (<[n := set_cached_world_transform (Some w) nd1]> σ1)
              ∧ shape_of <$> <[n := set_cached_world_transform (Some w) nd1]> σ1
                = shape_of <$> σ).
  { intros σ1 w W1 S1 Ww.
    destruct (shape_lookup _ _ _ _ S1 En) as (nd1 & En1 & Sn1).
    destruct (shape_frame _ _ S1) as (F1 & _).
    exists nd1. split; [done|].
    assert (S2 : shape_of <$> <[n := set_cached_world_transform (Some w) nd1]> σ1
                 = shape_of <$> σ1) by (by eapply shape_insert).
    split; [|by rewrite S2].
    eapply wf_but_shape; [done..|].
    intros m nd' w' Xm E' Cw'. destruct (decide (m = n)) as [->|Hm].
    - rewrite list_lookup_insert_eq in E' by (by eapply lookup_lt_Some).
      injection E' as <-. injection Cw' as <-. rewrite F1. auto.
    - rewrite list_lookup_insert_ne in E' by done.
      by eapply (wfb_cache _ _ _ _ W1). }
  pose proof (frame_lookup_Some _ _ _ En) as Fn.
  destruct (_parent nd) as [p|] eqn:Pn.
  - pose proof (parent_not_leaf _ _ _ _ _ _ _ W Fn) as Xp.
    destruct (wfb_parent _ _ _ _ W _ _ _ Fn) as [Hd [cs [Ecs _]]].
    assert (Vp : p < length σ).
    { rewrite <- skeleton_length. by eapply lookup_lt_Some. }
    destruct (_get_world_transform fuel p σ) as [[pw|e|] σ1] eqn:Ep;
      destruct (IH _ _ _ _ W Ep) as ([W1 S1] & Wp & Tp).
    + simpl in E. unfold ret in E at 1.
      destruct (Fill σ1 (m_transformBy (_local_transform nd) pw) W1 S1)
        as (nd1 & En1 & W2 & S2).
      { intros _. eapply World_child; [done|]. by apply Wp. }
      rewrite (run_modify _ _ _ _ En1) in E. unfold ret in E.
      injection E as <- <-. split_and!; [done..| |by eexists].
      intros Xn w [= <-]. eapply World_child; [done|]. by apply Wp.
    + injection E as <- <-. split_and!; [done..|].
      intros V Hf. destruct (Tp Vp) as [w Ew]; [lia | done].
    + injection E as <- <-. split_and!; [done..|].
      intros V Hf. destruct (Tp Vp) as [w Ew]; [lia | done].
  - simpl in E. unfold ret in E at 1.
    assert (Ww : World (frame σ) n (_local_transform nd)) by (by apply World_root).
    destruct (Fill σ (_local_transform nd) W eq_refl) as (nd1 & En1 & W2 & S2);
      [done|].
    rewrite (run_modify _ _ _ _ En1) in E. unfold ret in E.
    injection E as <- <-. split_and!; [done..| |by eexists].
    by intros Xn w [= <-].
Qed.

Lemma safe_get_world fuel n : safe (_get_world_transform fuel n).
Proof. intros X h d σ r σ' W E. by destruct (get_world_but _ _ _ _ _ _ _ _ W E). Qed.

Lemma safe_bodies fuel n : safe (bodies fuel n).
Proof.
  unfold bodies. apply safe_bind; [apply safe_get_node|].
  intros nd. destruct (_cached_bodies nd); [apply safe_ret|].
  apply safe_bind; [apply safe_get_world|]. intros w.
  apply safe_bind.
  { unfold _raw_bodies. apply safe_bind; [apply safe_get_node|].
    intros nd'. repeat case_match; first [apply safe_ret | apply safe_raise]. }
  intros raw. apply safe_bind.
  { apply safe_mapM. intros [b|]; simpl; [apply safe_ret | apply safe_raise]. }
  intros bs. apply safe_bind; [by apply safe_modify|].
  intros. apply safe_ret.
Qed.

Lemma safe_first_plane get cs :
  (∀ c, safe (get c)) → safe (first_plane get cs).
Proof.
  intros Hg. induction cs as [|c cs IH]; simpl; [apply safe_ret|].
  apply safe_bind; [done|]. intros [p|]; [apply safe_ret | done].
Qed.

Lemma safe_get_plane fuel : ∀ n, safe (get_plane fuel n).
Proof.
  induction fuel as [|fuel IH]; intros n; [apply safe_out_of_fuel|].
  simpl. apply safe_bind; [apply safe_get_node|]. intros nd.
  assert (Hb : safe (body ← _cached_body fuel n; mret (Some (face0_geometry body)))).
  { apply safe_bind; [|intros; apply safe_ret].
    unfold _cached_body. apply safe_bind; [apply safe_bodies|].
    intros [|b bs]; [apply safe_raise | apply safe_ret]. }
  assert (Hc : safe match children nd with
                    | [] => mret None
                    | child :: _ => get_plane fuel child
                    end).
  { destruct (children nd); [apply safe_ret | apply IH]. }
  destruct (class_ nd); try done; try apply safe_ret.
  destruct (_cached_plane_populated nd); [apply safe_ret|].
  apply safe_bind; [by apply safe_first_plane|]. intros p.
  apply safe_bind; [by apply safe_modify|].
  intros. apply safe_ret.
Qed.

Lemma safe_boolean_into_body self tool op : safe (boolean_into_body self tool op).
Proof.
  unfold boolean_into_body. apply safe_bind; [apply safe_get_node|].
  intros nd. repeat case_match;
    first [by apply safe_modify | apply safe_raise].
Qed.

Lemma safe_boolean_into_bodies self i tool op :
  safe (boolean_into_bodies self i tool op).
Proof.
  unfold boolean_into_bodies. apply safe_bind; [apply safe_get_node|].
  intros nd. repeat case_match;
    first [by apply safe_modify | apply safe_raise].
Qed.

Lemma safe_boolean_each_target fuel self child op :
  safe (boolean_each_target fuel self child op).
Proof.
  unfold boolean_each_target. apply safe_bind; [apply safe_get_node|].
  intros nd. destruct (_bodies nd); [|apply safe_raise].
  apply safe_for_each. intros i. apply safe_bind; [apply safe_bodies|].
  intros tools. apply safe_for_each. intros tool.
  apply safe_boolean_into_bodies.
Qed.

Lemma safe_Union_check fuel self child :
  safe (Union_check_coplanarity fuel self child).
Proof.
  unfold Union_check_coplanarity. apply safe_bind; [apply safe_get_node|].
  intros nd. destruct (is_none (_body nd)); [apply safe_ret|].
  apply safe_bind; [apply safe_get_plane|]. intros p.
  apply safe_bind; [apply safe_get_plane|]. intros q.
  repeat case_match; first [apply safe_ret | apply safe_raise].
Qed.

Lemma safe_Difference_check fuel self child :
  safe (Difference_check_coplanarity fuel self child).
Proof.
  unfold Difference_check_coplanarity. apply safe_bind; [apply safe_get_node|].
  intros nd. destruct (has_bodies nd); [|apply safe_ret].
  apply safe_bind; [apply safe_get_plane|]. intros p.
  apply safe_bind; [apply safe_get_plane|]. intros q.
  repeat case_match; first [apply safe_ret | apply safe_raise].
Qed.

Lemma safe_Intersection_check fuel self child plane :
  safe (Intersection_check_coplanarity fuel self child plane).
Proof.
  unfold Intersection_check_coplanarity. apply safe_bind; [apply safe_get_node|].
  intros nd. destruct (has_bodies nd); [|apply safe_get_plane].
  apply safe_bind; [apply safe_get_plane|]. intros q.
  repeat case_match; first [apply safe_ret | apply safe_raise].
Qed.

Lemma safe_seed_or_fold fuel self child op : safe (seed_or_fold fuel self child op).
Proof.
  unfold seed_or_fold. apply safe_bind; [apply safe_get_node|].
  intros nd. destruct (is_none (_bodies nd)); [|apply safe_boolean_each_target].
  apply safe_bind; [apply safe_bodies|]. intros bs. by apply safe_modify.
Qed.

(** The callbacks of the constructors and of [add] are safe. *)
Lemma safe_Union_init_process_child fuel self child :
  safe (Union_init_process_child fuel self child).
Proof.
  unfold Union_init_process_child.
  apply safe_bind; [apply safe_Union_check|]. intros _.
  apply safe_bind; [apply safe_bodies|]. intros bs.
  apply safe_for_each. intros b.
  apply safe_bind; [apply safe_get_node|]. intros nd.
  destruct (is_none (_body nd)); [|apply safe_boolean_into_body].
  apply safe_bind; [by apply safe_modify|]. intros _.
  apply safe_bind; [apply safe_get_plane|]. intros p. by apply safe_modify.
Qed.

Lemma safe_Union_add_process_child fuel self child :
  safe (Union_add_process_child fuel self child).
Proof.
  unfold Union_add_process_child.
  apply safe_bind; [apply safe_Union_check|]. intros _.
  apply safe_bind; [apply safe_bodies|]. intros bs.
  apply safe_for_each. intros b. apply safe_boolean_into_body.
Qed.

Lemma safe_Difference_init_process_child fuel self child :
  safe (Difference_init_process_child fuel self child).
Proof.
  unfold Difference_init_process_child.
  apply safe_bind; [apply safe_Difference_check|]. intros _.
  apply safe_seed_or_fold.
Qed.

Lemma safe_Difference_add_process_child fuel self child :
  safe (Difference_add_process_child fuel self child).
Proof.
  unfold Difference_add_process_child.
  apply safe_bind; [apply safe_Difference_check|]. intros _.
  apply safe_boolean_each_target.
Qed.

Lemma safe_Intersection_init_process_child fuel self child plane :
  safe (Intersection_init_process_child fuel self child plane).
Proof.
  unfold Intersection_init_process_child.
  apply safe_bind; [apply safe_Intersection_check|]. intros p.
  apply safe_bind; [apply safe_seed_or_fold|]. intros _. apply safe_ret.
Qed.

Lemma safe_Intersection_add_process_child fuel self child plane :
  safe (Intersection_add_process_child fuel self child plane).
Proof.
  unfold Intersection_add_process_child.
  apply safe_bind; [apply safe_Intersection_check|]. intros p.
  apply safe_bind; [apply safe_boolean_each_target|]. intros _. apply safe_ret.
Qed.

Lemma alter_insert {A} (f : A → A) (l : list A) i x :
  l !! i = Some x → alter f i l = <[i := f x]> l.
Proof.
  intros E. apply list_eq. intros j. rewrite list_lookup_alter.
  destruct (decide (i = j)) as [->|Hij].
  - rewrite E. simpl. symmetry. apply list_lookup_insert_eq.
    by eapply lookup_lt_Some.
  - by rewrite list_lookup_insert_ne.
Qed.

(** Changing the entry of a node that is nobody's parent keeps the world
    transform of every other node. *)
Lemma World_insert_leaf fr c x m w :
  World fr m w → m ≠ c → (∀ n L, fr !! n ≠ Some (Some c, L)) →
  World (<[c := x]> fr) m w.
Proof.
  intros Wm. induction Wm as [m L Em|m p L w Em Wp IH]; intros N NP.
  - apply World_root. by rewrite list_lookup_insert_ne.
  - eapply World_child.
    + by rewrite list_lookup_insert_ne.
    + apply IH; [|done]. intros ->. by eapply NP.
Qed.

Lemma no_parent_of_leaf X h d σ c :
  wf_but X h d σ → skeleton σ !! c = Some [] →
  ∀ n L, frame σ !! n ≠ Some (Some c, L).
Proof.
  intros W E n L F. destruct (wfb_parent _ _ _ _ W _ _ _ F) as [_ [cs [Ecs I]]].
  rewrite E in Ecs. injection Ecs as <-. by apply elem_of_nil in I.
Qed.

Lemma wf_but_equiv X X' h d σ :
  (∀ x, X x ↔ X' x) → wf_but X h d σ → wf_but X' h d σ.
Proof.
  intros E [R P C L]. split; [done..| |].
  - intros n nd w Xn. apply C. by rewrite E.
  - intros x Xx. apply L. by rewrite E.
Qed.

(** Replacing a node by one with the same place in the tree and the
    same cached world transform. *)
Lemma wf_but_insert X h d σ n nd nd' :
  wf_but X h d σ → σ !! n = Some nd →
  _parent nd' = _parent nd → _local_transform nd' = _local_transform nd →
  children nd' = children nd →
  _cached_world_transform nd' = _cached_world_transform nd →
  wf_but X h d (<[n := nd']> σ)
  ∧ frame (<[n := nd']> σ) = frame σ ∧ skeleton (<[n := nd']> σ) = skeleton σ.
Proof.
  intros [R P C L] E Pe Le Ce We.
  pose proof (frame_insert _ _ _ _ E Pe Le) as F.
  pose proof (skeleton_insert _ _ _ _ E Ce) as S.
  split; [|done]. split; rewrite ?F, ?S; try done.
  intros m nd1 w Xm E1 Cw. destruct (decide (m = n)) as [->|Hm].
  - rewrite list_lookup_insert_eq in E1 by (by eapply lookup_lt_Some).
    injection E1 as <-. rewrite We in Cw. by eapply C.
  - rewrite list_lookup_insert_ne in E1 by done. by eapply C.
Qed.

(** Replacing a childless node by one with another local transform and
    no cached world transform. *)
Lemma wf_but_relocate_leaf X h d σ c nd nd' :
  wf_but X h d σ → σ !! c = Some nd → children nd = [] →
  _parent nd' = _parent nd → children nd' = [] →
  _cached_world_transform nd' = None →
  wf_but X h d (<[c := nd']> σ)
  ∧ frame (<[c := nd']> σ) = <[c := (_parent nd, _local_transform nd')]> (frame σ)
  ∧ skeleton (<[c := nd']> σ) = skeleton σ.
Proof.
  intros W E Cn Pe Ce We.
  assert (S : skeleton (<[c := nd']> σ) = skeleton σ).
  { apply (skeleton_insert _ _ nd); [done | congruence]. }
  assert (F : frame (<[c := nd']> σ)
              = <[c := (_parent nd, _local_transform nd')]> (frame σ)).
  { unfold frame. by rewrite list_fmap_insert, Pe. }
  assert (Sc : skeleton σ !! c = Some []).
  { rewrite skeleton_lookup, E. simpl. by rewrite Cn. }
  pose proof (no_parent_of_leaf _ _ _ _ _ W Sc) as NP.
  split; [|done]. destruct W as [R P C L].
  split; rewrite ?F, ?S; try done.
  - intros n p L' En. destruct (decide (n = c)) as [->|Hn].
    + rewrite list_lookup_insert_eq in En
        by (rewrite frame_length; by eapply lookup_lt_Some).
      injection En as Ep _. eapply P.
      rewrite (frame_lookup_Some _ _ _ E). by rewrite Ep.
    + rewrite list_lookup_insert_ne in En by done. by eapply P.
  - intros m nd1 w Xm E1 Cw. destruct (decide (m = c)) as [->|Hm].
    + rewrite list_lookup_insert_eq in E1 by (by eapply lookup_lt_Some).
      injection E1 as <-. congruence.
    + rewrite list_lookup_insert_ne in E1 by done.
      apply World_insert_leaf; [by eapply C | done..].
Qed.

(** [_reset_cache] on a childless node resets that node only. *)
Lemma reset_leaf h fuel σ c nd L :
  ranked (skeleton σ) h → σ !! c = Some nd → children nd = [] → h c < fuel →
  _reset_cache fuel c (<[c := set_local_transform L nd]> σ)
  = (Ok tt, <[c := reset_node (set_local_transform L nd)]> σ).
Proof.
  intros R E Cn Hf.
  destruct (run_reset_relocated h fuel σ c nd L R E Hf) as [σ' [E' Ro]].
  rewrite E'. f_equal. apply list_eq. intros m.
  pose proof (lookup_lt_Some _ _ _ E) as V.
  destruct (Ro m) as [[D ->]|[N ->]].
  - assert (m = c) as ->.
    { apply rtc_inv in D as [?|[x [[cs [Ecs I]] _]]]; [done|].
      rewrite skeleton_lookup, E in Ecs. injection Ecs as <-.
      rewrite Cn in I. by apply elem_of_nil in I. }
    by rewrite !list_lookup_insert_eq.
  - assert (m ≠ c) by (intros ->; apply N, rtc_refl).
    by rewrite !list_lookup_insert_ne.
Qed.

Lemma host_shape u W σ σ' :
  host u W σ → shape_of <$> σ' = shape_of <$> σ → host u W σ'.
Proof.
  intros (nd & E & Cm & Ci) S.
  destruct (shape_lookup _ _ _ _ S E) as (nd' & E' & Sn).
  unfold shape_of in Sn. injection Sn as _ _ Hc _ Hi.
  exists nd'. split; [done|]. by rewrite Hc, Hi.
Qed.

Lemma host_insert_other u W σ c nd' :
  host u W σ → c ≠ u → host u W (<[c := nd']> σ).
Proof.
  intros (nd & E & Cm & Ci) N. exists nd. by rewrite list_lookup_insert_ne.
Qed.

(** The inverse transform of the host, on a tree that is well formed but
    for [X]. *)
Lemma inverse_but X h d fuel σ u W :
  wf_but X h d σ → host u W σ → World (frame σ) u W → ¬ X u → d u < fuel →
  ∃ σ', _inverse_transform fuel u σ = (Ok (m_invert W), σ')
    ∧ wf_but X h d σ' ∧ host u W σ'
    ∧ frame σ' = frame σ ∧ skeleton σ' = skeleton σ
    ∧ ∀ m, m ≠ u → shape_of <$> σ' !! m = shape_of <$> σ !! m.
Proof.
  intros Wf (nd & E & Cm & Ci) Ww Xu Hf. unfold _inverse_transform.
  rewrite (run_bind _ _ _ _ _ (run_get_node _ _ _ E)).
  destruct (_cached_inverse_transform nd) as [inv|] eqn:Ei.
  { rewrite (Ci inv eq_refl). exists σ. split_and!; try done.
    exists nd. by rewrite Ei. }
  pose proof (lookup_lt_Some _ _ _ E) as V.
  destruct (_get_world_transform fuel u σ) as [r σ1] eqn:Ew.
  destruct (get_world_but _ _ _ _ _ _ _ _ Wf Ew) as ([W1 S1] & Wv & T).
  destruct (T V Hf) as [w ->]. specialize (Wv Xu w eq_refl).
  assert (w = W) as -> by (by eapply World_det).
  destruct (shape_frame _ _ S1) as (F1 & K1 & _).
  destruct (shape_lookup _ _ _ _ S1 E) as (nd1 & E1 & Sn1).
  unfold mbind at 1, M_bind at 1, bind at 1. rewrite Ew.
  rewrite (run_bind _ _ _ _ _ (run_modify _ _ _ _ E1)).
  destruct (wf_but_insert X h d σ1 u nd1
              (set_cached_inverse_transform (Some (m_invert W)) nd1) W1 E1)
    as (W2 & F2 & K2); try done.
  eexists. split; [done|]. split_and!; try done.
  - eexists. split; [apply list_lookup_insert_eq; by eapply lookup_lt_Some|].
    simpl. unfold shape_of in Sn1. injection Sn1 as _ _ Hc _ _.
    split; [by rewrite Hc|]. by intros inv [= <-].
  - by rewrite F2.
  - by rewrite K2.
  - intros m Hm. rewrite list_lookup_insert_ne by done.
    by rewrite <- !list_lookup_fmap, S1.
Qed.

Lemma children_composite nd :
  is_composite (class_ nd) = true → children nd = _children nd.
Proof. unfold children. by intros ->. Qed.

(** One iteration of the loop of [_add_children], on a child that has
    no parent and no child: either the callback fails, and the child is
    left detached with its local transform composed with the inverse of
    the host, or the child is attached. *)
Lemma add_child_step {St} X h d fuel σ u W (copy : id → M id)
    (func : option (id → St → M St)) c Lc st r σ' :
  wf_but X h d σ → host u W σ → World (frame σ) u W → ¬ X u → ¬ X c → c ≠ u →
  frame σ !! c = Some (None, Lc) → skeleton σ !! c = Some [] →
  h c < h u → d u < d c → d u < fuel → h c < fuel →
  (∀ f st, func = Some f → safe (f c st)) →
  _add_child copy fuel u func c st σ = (r, σ') →
  match r with
  | Ok _ =>
    wf_but (λ x, X x ∨ x = c) h d σ' ∧ host u W σ' ∧ World (frame σ') u W
    ∧ frame σ' = attach u (m_invert W) (frame σ) c
    ∧ skeleton σ' = alter (λ l, l ++ [c]) u (skeleton σ)
  | _ => frame σ' = displace (m_invert W) (frame σ) c ∧ skeleton σ' = skeleton σ
  end.
Proof.
  intros Wf Ho Ww Xu Xc Ncu Fc Sc Hh Hd Hfu Hfc Sf E.
  set (L' := m_transformBy Lc (m_invert W)).
  assert (Ec : ∃ ndc, σ !! c = Some ndc ∧ _parent ndc = None
                 ∧ _local_transform ndc = Lc ∧ children ndc = []).
  { rewrite frame_lookup in Fc. rewrite skeleton_lookup in Sc.
    destruct (σ !! c) as [ndc|]; [|done]. simpl in *.
    exists ndc. injection Fc as -> ->. by injection Sc as ->. }
  destruct Ec as (ndc & Ec & Pc & Lc' & Cc).
  pose proof (no_parent_of_leaf _ _ _ _ _ Wf Sc) as NP.
  assert (Dis : displace (m_invert W) (frame σ) c = <[c := (None, L')]> (frame σ)).
  { unfold displace. by rewrite (alter_insert _ _ _ _ Fc). }
  assert (Att : attach u (m_invert W) (frame σ) c = <[c := (Some u, L')]> (frame σ)).
  { unfold attach. by rewrite (alter_insert _ _ _ _ Fc). }
  unfold _add_child in E.
  rewrite (run_bind _ _ _ _ _ (run_get_node _ _ _ Ec)) in E. rewrite Pc in E.
  rewrite (run_bind _ _ σ c σ) in E by done.
  destruct (inverse_but X h d fuel σ u W Wf Ho Ww Xu Hfu)
    as (σa & Ei & Wa & Hoa & Fa & Ka & Sha).
  rewrite (run_bind _ _ _ _ _ Ei) in E.
  assert (Eca : ∃ nda, σa !! c = Some nda ∧ shape_of nda = shape_of ndc).
  { specialize (Sha c Ncu). rewrite Ec in Sha.
    destruct (σa !! c) as [nda|]; [|done]. exists nda.
    split; [done|]. simpl in Sha. congruence. }
  destruct Eca as (nda & Eca & Sa).
  assert (Fields : _parent nda = None ∧ _local_transform nda = Lc
                   ∧ children nda = []).
  { unfold shape_of in Sa. injection Sa as Hp Hl Hc Hk _.
    unfold children in *. by rewrite Hp, Hl, Hc, Hk. }
  destruct Fields as (Pa & La & Ca).
  unfold transform_local in E.
  rewrite (run_bind _ _ _ _ _ (run_modify _ _ _ _ Eca)) in E. rewrite La in E.
  fold L' in E.
  rewrite (run_bind _ _ _ _ _
             (reset_leaf h fuel σa c nda L' (wfb_ranked _ _ _ _ Wa) Eca Ca Hfc)) in E.
  set (ndb := reset_node (set_local_transform L' nda)) in *.
  assert (Fb : _parent ndb = None ∧ _local_transform ndb = L' ∧ children ndb = []
               ∧ _cached_world_transform ndb = None).
  { unfold ndb. pose proof (frame_reset_node (set_local_transform L' nda)) as Fr.
    injection Fr as -> ->. rewrite children_reset_node.
    destruct (reset_node_caches (set_local_transform L' nda)) as (-> & _).
    by rewrite <- Pa, <- Ca. }
  destruct Fb as (Pb & Lb & Cb & Wb).
  destruct (wf_but_relocate_leaf X h d σa c nda ndb Wa Eca Ca) as (Wc & Fc' & Kc);
    [congruence | done..|].
  rewrite Pa, Lb, Fa in Fc'. rewrite Ka in Kc.
  set (σb := <[c := ndb]> σa) in *.
  assert (Hob : host u W σb) by (by apply host_insert_other).
  assert (Tail : ∀ σd (st' : St), wf_but X h d σd →
            shape_of <$> σd = shape_of <$> σb →
            (modify c (set_parent (Some u));;
             modify u (λ nd, set_children (_children nd ++ [c]) nd);;
             ret st') σd = (r, σ') →
            match r with
            | Ok _ =>
              wf_but (λ x, X x ∨ x = c) h d σ' ∧ host u W σ' ∧ World (frame σ') u W
              ∧ frame σ' = attach u (m_invert W) (frame σ) c
              ∧ skeleton σ' = alter (λ l, l ++ [c]) u (skeleton σ)
            | _ => frame σ' = displace (m_invert W) (frame σ) c
                   ∧ skeleton σ' = skeleton σ
            end).
  { intros σd st' Wd Sd Et.
    destruct (shape_frame _ _ Sd) as (Fd & Kd & _).
    rewrite Fc' in Fd. rewrite Kc in Kd.
    pose proof (host_shape _ _ _ _ Hob Sd) as (ndu & Eu & Cu & Iu).
    destruct (shape_lookup σb σd c ndb Sd) as (ndd & Ed & Sdd).
    { apply list_lookup_insert_eq. by eapply lookup_lt_Some. }
    assert (Fields : _local_transform ndd = L' ∧ children ndd = []).
    { unfold shape_of in Sdd. injection Sdd as _ Hl Hc Hk _.
      unfold children in *. by rewrite Hl, Hc, Hk. }
    destruct Fields as (Ld & Cd).
    rewrite (run_bind _ _ _ _ _ (run_modify _ _ _ _ Ed)) in Et.
    set (σe := <[c := set_parent (Some u) ndd]> σd) in *.
    assert (Eue : σe !! u = Some ndu).
    { unfold σe. by rewrite list_lookup_insert_ne. }
    rewrite (run_bind _ _ _ _ _ (run_modify _ _ _ _ Eue)) in Et.
    injection Et as <- <-.
    set (σf := <[u := set_children (_children ndu ++ [c]) ndu]> σe).
    assert (Ke : skeleton σe = skeleton σ).
    { unfold σe. rewrite <- Kd. by eapply skeleton_insert. }
    assert (Fe : frame σe = <[c := (Some u, L')]> (frame σ)).
    { unfold σe, frame at 1. rewrite list_fmap_insert. simpl. fold (frame σd).
      rewrite Fd, Ld. by rewrite list_insert_insert_eq. }
    assert (Ff : frame σf = <[c := (Some u, L')]> (frame σ)).
    { unfold σf. rewrite <- Fe. by eapply frame_insert. }
    assert (Su : skeleton σ !! u = Some (_children ndu)).
    { rewrite <- Ke, skeleton_lookup, Eue. simpl. by rewrite children_composite. }
    assert (Kf : skeleton σf = <[u := _children ndu ++ [c]]> (skeleton σ)).
    { unfold σf, skeleton at 1. rewrite list_fmap_insert. fold (skeleton σe).
      rewrite Ke. f_equal. by apply children_composite. }
    assert (Alt : alter (λ l, l ++ [c]) u (skeleton σ)
                  = <[u := _children ndu ++ [c]]> (skeleton σ)).
    { by rewrite (alter_insert _ _ _ _ Su). }
    assert (Vc : c < length (skeleton σ)) by (by eapply lookup_lt_Some).
    assert (Vu : u < length (skeleton σ)) by (by eapply lookup_lt_Some).
    assert (NPd : ∀ n L, frame σd !! n ≠ Some (Some c, L)).
    { eapply no_parent_of_leaf; [exact Wd|]. by rewrite Kd. }
    assert (Keep : ∀ m w, m ≠ c → World (frame σd) m w → World (frame σf) m w).
    { intros m w Hm Wm. rewrite Ff.
      rewrite <- (list_insert_insert_eq (frame σ) c (Some u, L') (None, L')).
      rewrite <- Fd. by apply World_insert_leaf. }
    rewrite Att, Alt. split_and!; [|  | |done..].
    - split; rewrite ?Ff, ?Kf.
      + intros p cs k Ep Ik. rewrite length_insert.
        destruct (decide (p = u)) as [->|Hp].
        * rewrite list_lookup_insert_eq in Ep by done. injection Ep as <-.
          apply elem_of_app in Ik as [Ik|Ik].
          -- by eapply (wfb_ranked _ _ _ _ Wf).
          -- apply list_elem_of_singleton in Ik as ->. done.
        * rewrite list_lookup_insert_ne in Ep by done.
          by eapply (wfb_ranked _ _ _ _ Wf).
      + intros n p L En. destruct (decide (n = c)) as [->|Hn].
        * rewrite list_lookup_insert_eq in En by (by eapply lookup_lt_Some).
          injection En as <- _. split; [done|].
          exists (_children ndu ++ [c]).
          split; [by apply list_lookup_insert_eq|].
          apply elem_of_app. right. by apply list_elem_of_singleton.
        * rewrite list_lookup_insert_ne in En by done.
          destruct (wfb_parent _ _ _ _ Wf _ _ _ En) as [Hdp [cs [Ecs Ics]]].
          split; [done|]. destruct (decide (p = u)) as [->|Hp].
          -- exists (_children ndu ++ [c]).
             split; [by apply list_lookup_insert_eq|].
             rewrite Su in Ecs. injection Ecs as <-.
             apply elem_of_app. by left.
          -- exists cs. by rewrite list_lookup_insert_ne.
      + intros n nd w Xn En Cw.
        assert (Hn : n ≠ c) by (intros ->; apply Xn; by right).
        assert (Xn' : ¬ X n) by (intros Xn'; apply Xn; by left).
        rewrite <- Ff. apply Keep; [done|].
        unfold σf in En. destruct (decide (n = u)) as [->|Hu].
        * rewrite list_lookup_insert_eq in En by (by eapply lookup_lt_Some).
          injection En as <-. simpl in Cw.
          by eapply (wfb_cache _ _ _ _ Wd).
        * rewrite list_lookup_insert_ne in En by done.
          unfold σe in En. rewrite list_lookup_insert_ne in En by done.
          by eapply (wfb_cache _ _ _ _ Wd).
      + intros x [Xx| ->].
        * rewrite list_lookup_insert_ne by (intros ->; done).
          by eapply (wfb_leaves _ _ _ _ Wf).
        * by rewrite list_lookup_insert_ne.
    - exists (set_children (_children ndu ++ [c]) ndu). split_and!; try done.
      apply list_lookup_insert_eq. by eapply lookup_lt_Some.
    - rewrite Ff. by apply World_insert_leaf. }
  destruct func as [f|]; unfold mbind at 1, M_bind at 1, bind at 1 in E.
  - destruct (f c st σb) as [rf σd] eqn:Ef.
    destruct (Sf f st eq_refl _ _ _ _ _ _ Wc Ef) as [Wd Sd].
    destruct (shape_frame _ _ Sd) as (Fd & Kd & _).
    rewrite Fc' in Fd. rewrite Kc in Kd.
    destruct rf as [st'|e|]; [|injection E as <- <-; by rewrite Dis..].
    by eapply Tail.
  - by eapply (Tail σb st).
Qed.

Lemma alter_app_twice {A} (a b : list A) u (sk : list (list A)) :
  alter (λ l, l ++ b) u (alter (λ l, l ++ a) u sk) = alter (λ l, l ++ (a ++ b)) u sk.
Proof.
  apply list_eq. intros m. destruct (decide (u = m)) as [->|Hm].
  - rewrite !list_lookup_alter_eq. destruct (sk !! m); simpl; [|done].
    by rewrite app_assoc.
  - by rewrite !list_lookup_alter_ne.
Qed.

Lemma alter_app_nil {A} u (sk : list (list A)) : alter (λ l, l ++ []) u sk = sk.
Proof. apply list_alter_id. intros l. apply app_nil_r. Qed.

(** The loop of [_add_children] over distinct children that have no
    parent and no child. *)
Lemma add_children_loop_spec {St} h d fuel u W (copy : id → M id)
    (func : option (id → St → M St)) : ∀ cs X σ st r σ',
  wf_but X h d σ → host u W σ → World (frame σ) u W → ¬ X u → d u < fuel →
  NoDup cs →
  (∀ c, c ∈ cs →
     ¬ X c ∧ c ≠ u ∧ (∃ Lc, frame σ !! c = Some (None, Lc))
     ∧ skeleton σ !! c = Some [] ∧ h c < h u ∧ d u < d c ∧ h c < fuel) →
  (∀ f c st, func = Some f → safe (f c st)) →
  _add_children_loop copy fuel u func cs st σ = (r, σ') →
  match r with
  | Ok _ =>
    wf_but (λ x, X x ∨ x ∈ cs) h d σ' ∧ host u W σ' ∧ World (frame σ') u W
    ∧ frame σ' = foldl (attach u (m_invert W)) (frame σ) cs
    ∧ skeleton σ' = alter (λ l, l ++ cs) u (skeleton σ)
  | _ =>
    ∃ done c rest, cs = done ++ c :: rest
      ∧ frame σ' = displace (m_invert W)
                     (foldl (attach u (m_invert W)) (frame σ) done) c
      ∧ skeleton σ' = alter (λ l, l ++ done) u (skeleton σ)
  end.
Proof.
  induction cs as [|c cs IH]; intros X σ st r σ' Wf Ho Ww Xu Hfu ND Pre Sf E.
  { injection E as <- <-. split_and!; try done.
    - eapply wf_but_equiv; [|done]. intros x. split; [by left|].
      intros [?|I]; [done|]. by apply elem_of_nil in I.
    - by rewrite alter_app_nil. }
  simpl in E. unfold mbind, M_bind, bind in E.
  destruct (_add_child copy fuel u func c st σ) as [r1 σ1] eqn:E1.
  apply NoDup_cons in ND as [Nc ND].
  destruct (Pre c) as (Xc & Ncu & [Lc Fc] & Sc & Hh & Hd & Hfc); [by left|].
  pose proof (add_child_step X h d fuel σ u W copy func c Lc st r1 σ1
                Wf Ho Ww Xu Xc Ncu Fc Sc Hh Hd Hfu Hfc
                (λ f st', Sf f c st') E1) as Step.
  destruct r1 as [st1|e|].
  - destruct Step as (W1 & Ho1 & Ww1 & F1 & K1).
    assert (Pre1 : ∀ c', c' ∈ cs →
              ¬ (X c' ∨ c' = c) ∧ c' ≠ u
              ∧ (∃ Lc', frame σ1 !! c' = Some (None, Lc'))
              ∧ skeleton σ1 !! c' = Some [] ∧ h c' < h u ∧ d u < d c'
              ∧ h c' < fuel).
    { intros c' I.
      destruct (Pre c') as (Xc' & Nu' & [Lc' Fc'] & Sc' & ? & ? & ?); [by right|].
      assert (c' ≠ c) by (intros ->; done).
      split_and!; try done.
      - intros [?|?]; done.
      - exists Lc'. rewrite F1. unfold attach.
        by rewrite list_lookup_alter_ne.
      - rewrite K1. by rewrite list_lookup_alter_ne. }
    assert (Xu1 : ¬ (X u ∨ u = c)) by (intros [?|?]; done).
    pose proof (IH _ σ1 st1 r σ' W1 Ho1 Ww1 Xu1 Hfu ND Pre1 Sf E) as Rest.
    destruct r as [st'|e|].
    + destruct Rest as (W2 & Ho2 & Ww2 & F2 & K2).
      split_and!; try done.
      * eapply wf_but_equiv; [|done]. intros x. rewrite elem_of_cons. tauto.
      * by rewrite F2, F1.
      * rewrite K2, K1. apply (alter_app_twice [c] cs).
    + destruct Rest as (done & c' & rest & -> & F2 & K2).
      exists (c :: done), c', rest. split_and!; [done| |].
      * by rewrite F2, F1.
      * rewrite K2, K1. apply (alter_app_twice [c] done).
    + destruct Rest as (done & c' & rest & -> & F2 & K2).
      exists (c :: done), c', rest. split_and!; [done| |].
      * by rewrite F2, F1.
      * rewrite K2, K1. apply (alter_app_twice [c] done).
  - injection E as <- <-. destruct Step as [F1 K1].
    exists [], c, cs. split_and!; [done..|]. by rewrite alter_app_nil.
  - injection E as <- <-. destruct Step as [F1 K1].
    exists [], c, cs. split_and!; [done..|]. by rewrite alter_app_nil.
Qed.

Lemma wf_with_but h d σ : wf_with h d σ → wf_but (λ _, False) h d σ.
Proof. intros [R P C]. split; try done. intros n nd w _. apply C. Qed.

(** [_add_children] on distinct children that have no parent and no
    child: either every child is attached and the tree is well formed
    again, or the callback failed on one of them. *)
Lemma add_children_spec {St} h d fuel σ u W (copy : id → M id)
    (func : option (id → St → M St)) cs st r σ' :
  wf_with h d σ → host u W σ → World (frame σ) u W → d u < fuel → h u < fuel →
  NoDup cs →
  (∀ c, c ∈ cs →
     c ≠ u ∧ (∃ Lc, frame σ !! c = Some (None, Lc))
     ∧ skeleton σ !! c = Some [] ∧ h c < h u ∧ d u < d c) →
  (∀ f c st, func = Some f → safe (f c st)) →
  _add_children_with copy fuel u func cs st σ = (r, σ') →
  match r with
  | Ok _ =>
    wf_with h d σ' ∧ World (frame σ') u W
    ∧ frame σ' = foldl (attach u (m_invert W)) (frame σ) cs
    ∧ skeleton σ' = alter (λ l, l ++ cs) u (skeleton σ)
  | _ =>
    ∃ done c rest, cs = done ++ c :: rest
      ∧ frame σ' = displace (m_invert W)
                     (foldl (attach u (m_invert W)) (frame σ) done) c
      ∧ skeleton σ' = alter (λ l, l ++ done) u (skeleton σ)
  end.
Proof.
  intros Wf Ho Ww Hfd Hfh ND Pre Sf E.
  unfold _add_children_with in E. unfold mbind at 1, M_bind at 1, bind at 1 in E.
  destruct (_add_children_loop copy fuel u func cs st σ) as [r1 σ1] eqn:E1.
  assert (Pre' : ∀ c, c ∈ cs →
            ¬ False ∧ c ≠ u ∧ (∃ Lc, frame σ !! c = Some (None, Lc))
            ∧ skeleton σ !! c = Some [] ∧ h c < h u ∧ d u < d c ∧ h c < fuel).
  { intros c I. destruct (Pre c I) as (? & ? & ? & ? & ?).
    split_and!; try done; [tauto | lia]. }
  pose proof (add_children_loop_spec h d fuel u W copy func cs (λ _, False)
                σ st r1 σ1 (wf_with_but _ _ _ Wf) Ho Ww (λ F, F) Hfd ND Pre' Sf E1)
    as Loop.
  destruct r1 as [st1|e|]; [|by injection E as <- <-..].
  destruct Loop as (W1 & Ho1 & Ww1 & F1 & K1).
  destruct Ho as (ndu & Eu & _).
  assert (Vu : u < length σ1).
  { rewrite <- skeleton_length, K1, length_alter, skeleton_length.
    by eapply lookup_lt_Some. }
  destruct (_reset_cache_spec h fuel σ1 u (wfb_ranked _ _ _ _ W1) Vu Hfh)
    as [σ2 [E2 Ro]].
  rewrite (run_bind _ _ _ _ _ E2) in E. injection E as <- <-.
  pose proof (reset_on_frame _ _ _ Ro) as F2.
  pose proof (reset_on_skeleton _ _ _ Ro) as K2.
  split_and!; [|by rewrite F2|by rewrite F2|by rewrite K2].
  split; rewrite ?F2, ?K2; [apply W1..|].
  intros m nd w Em Cw. destruct (Ro m) as [[_ Em']|[N Em']]; rewrite Em in Em'.
  - destruct (σ1 !! m) as [nd1|]; simpl in Em'; [|done]. injection Em' as ->.
    destruct (reset_node_caches nd1) as [Nw _]. congruence.
  - eapply (wfb_cache _ _ _ _ W1); [|done..].
    intros [[]|I]. apply N. eapply rtc_l; [|apply rtc_refl].
    exists (children ndu ++ cs). split; [|apply elem_of_app; by right].
    rewrite K1, list_lookup_alter_eq, skeleton_lookup, Eu. done.
Qed.

(** Ranks under which the children to attach sit below everything. *)
Lemma ranks_for_attach h d σ u (cs : list id) :
  wf_with h d σ → (∀ c, c ∈ cs → c ≠ u ∧ detached_leaf σ c) →
  wf_with (λ m, if decide (m ∈ cs) then 0 else S (h m))
          (λ m, if decide (m ∈ cs) then S (d u) else d m) σ.
Proof.
  intros [R P C] Pre.
  assert (Leaf : ∀ p l k, skeleton σ !! p = Some l → k ∈ l → p ∉ cs).
  { intros p l k E I Ip. destruct (Pre p Ip) as (_ & nd & En & _ & Cn).
    rewrite skeleton_lookup, En in E. simpl in E. rewrite Cn in E.
    injection E as <-. by apply elem_of_nil in I. }
  split; [| |done].
  - intros p l k E I. destruct (R _ _ _ E I) as [V Hk]. split; [done|].
    rewrite (decide_False (P := p ∈ cs)) by (by eapply Leaf).
    destruct (decide (k ∈ cs)); lia.
  - intros n p L E. destruct (P _ _ _ E) as [Hd [l [El Il]]].
    split; [|by exists l].
    rewrite (decide_False (P := p ∈ cs)) by (by eapply Leaf).
    rewrite decide_False; [done|]. intros In.
    destruct (Pre n In) as (_ & nd & En & Pn & _).
    rewrite frame_lookup, En in E. simpl in E. congruence.
Qed.

Lemma foldl_attach_lookup u inv (cs : list id) : ∀ fr m,
  NoDup cs →
  foldl (attach u inv) fr cs !! m
  = if decide (m ∈ cs) then (λ pl, (Some u, m_transformBy pl.2 inv)) <$> fr !! m
    else fr !! m.
Proof.
  induction cs as [|c cs IH]; intros fr m ND; [done|].
  apply NoDup_cons in ND as [Nc ND]. simpl. rewrite IH by done.
  destruct (decide (m = c)) as [->|Hm].
  - rewrite decide_False by done. rewrite decide_True by (by left).
    apply list_lookup_alter_eq.
  - unfold attach. rewrite list_lookup_alter_ne by done.
    destruct (decide (m ∈ cs)) as [I|I].
    + by rewrite decide_True by (by right).
    + rewrite decide_False; [done|]. rewrite elem_of_cons. tauto.
Qed.

(** [_add_children] on a well-formed tree, for distinct children that
    have no parent and no child. *)
Lemma attach_spec {St} h d fuel σ u ndu W (func : option (id → St → M St))
    (cs : list id) st r σ' :
  wf_with h d σ → σ !! u = Some ndu → is_composite (class_ ndu) = true →
  (∀ inv, _cached_inverse_transform ndu = Some inv → inv = m_invert W) →
  World (frame σ) u W →
  NoDup cs → (∀ c, c ∈ cs → c ≠ u ∧ detached_leaf σ c) →
  d u < fuel → S (h u) < fuel →
  (∀ f c st, func = Some f → safe (f c st)) →
  _add_children fuel u cs func st σ = (r, σ') →
  match r with
  | Ok _ =>
    wf σ' ∧ World (frame σ') u W
    ∧ frame σ' = foldl (attach u (m_invert W)) (frame σ) cs
    ∧ skeleton σ' = alter (λ l, l ++ cs) u (skeleton σ)
  | _ =>
    ∃ done c rest, cs = done ++ c :: rest
      ∧ frame σ' = displace (m_invert W)
                     (foldl (attach u (m_invert W)) (frame σ) done) c
      ∧ skeleton σ' = alter (λ l, l ++ done) u (skeleton σ)
  end.
Proof.
  intros Wf Eu Cu Iu Ww ND Pre Hfd Hfh Sf E.
  pose proof (ranks_for_attach h d σ u cs Wf Pre) as Wf'.
  set (h' := λ m, if decide (m ∈ cs) then 0 else S (h m)) in *.
  set (d' := λ m, if decide (m ∈ cs) then S (d u) else d m) in *.
  assert (Nu : u ∉ cs) by (intros I; by destruct (Pre u I)).
  assert (Hu : h' u = S (h u)) by (unfold h'; by rewrite decide_False).
  assert (Du : d' u = d u) by (unfold d'; by rewrite decide_False).
  assert (Ho : host u W σ) by (by exists ndu).
  unfold _add_children in E.
  pose proof (add_children_spec h' d' fuel σ u W (copy fuel) func cs st r σ'
                Wf' Ho Ww) as Sp.
  rewrite Hu, Du in Sp. specialize (Sp Hfd Hfh ND).
  assert (Pre' : ∀ c, c ∈ cs →
            c ≠ u ∧ (∃ Lc, frame σ !! c = Some (None, Lc))
            ∧ skeleton σ !! c = Some [] ∧ h' c < S (h u) ∧ d u < d' c).
  { intros c I. destruct (Pre c I) as (Ncu & nd & En & Pn & Cn).
    unfold h', d'. rewrite !decide_True by done. split_and!; [done| | |lia..].
    - exists (_local_transform nd). rewrite frame_lookup, En. simpl. by rewrite Pn.
    - rewrite skeleton_lookup, En. simpl. by rewrite Cn. }
  specialize (Sp Pre' Sf E).
  destruct r as [st'|e|]; [|done..].
  destruct Sp as (W' & ? & ? & ?). split_and!; try done. by exists h', d'.
Qed.

Lemma run_then_ret {A B} (m : M A) (b : B) σ r σ' :
  (m;; mret b) σ = (r, σ') →
  match r with
  | Ok v => v = b ∧ ∃ a, m σ = (Ok a, σ')
  | Raise e => m σ = (Raise e, σ')
  | OutOfFuel => m σ = (OutOfFuel, σ')
  end.
Proof.
  unfold mbind, M_bind, bind. destruct (m σ) as [[a|e|] σ1]; intros [= <- <-];
    [split; [done|by exists a] | done..].
Qed.

(** Where an attached child ends up. *)
Lemma attached_child u W (cs : list id) fr fr' c Lc :
  NoDup cs → fr' = foldl (attach u (m_invert W)) fr cs → World fr' u W →
  c ∈ cs → fr !! c = Some (None, Lc) →
  fr' !! c = Some (Some u, m_transformBy Lc (m_invert W))
  ∧ World fr' c (m_transformBy (m_transformBy Lc (m_invert W)) W).
Proof.
  intros ND -> Wu I Ec.
  assert (E' : foldl (attach u (m_invert W)) fr cs !! c
               = Some (Some u, m_transformBy Lc (m_invert W))).
  { rewrite foldl_attach_lookup by done. rewrite decide_True by done.
    by rewrite Ec. }
  split; [done|]. by eapply World_child.
Qed.

(** [add] on a Union, a Difference or an Intersection of a well-formed
    tree, given distinct components that have no parent and no child.
    When it returns, it returns the composite; every component is now a
    child of the composite, appended to its children in the order given,
    with its local transform composed with the inverse of the world
    transform of the composite, so that its world transform is that
    composition composed with the world transform of the composite;
    nothing else moves in the tree, and the tree is well formed. *)
Theorem add_attaches_detached_children (h d : id → nat) (fuel : nat) σ (u : id)
    ndu W (cs : list id) (v : id) σ' :
  wf_with h d σ → σ !! u = Some ndu →
  (∀ inv, _cached_inverse_transform ndu = Some inv → inv = m_invert W) →
  World (frame σ) u W →
  NoDup cs → (∀ c, c ∈ cs → c ≠ u ∧ detached_leaf σ c) →
  d u < fuel → S (h u) < fuel →
  match class_ ndu with
  | CUnion => Union_add fuel u cs σ = (Ok v, σ')
  | CDifference => Difference_add fuel u cs σ = (Ok v, σ')
  | CIntersection => Intersection_add fuel u cs σ = (Ok v, σ')
  | _ => False
  end →
  v = u ∧ wf σ'
  ∧ frame σ' = foldl (attach u (m_invert W)) (frame σ) cs
  ∧ skeleton σ' = alter (λ l, l ++ cs) u (skeleton σ)
  ∧ ∀ c Lc, c ∈ cs → frame σ !! c = Some (None, Lc) →
      frame σ' !! c = Some (Some u, m_transformBy Lc (m_invert W))
      ∧ World (frame σ') c (m_transformBy (m_transformBy Lc (m_invert W)) W).
Proof.
  intros Wf Eu Iu Ww ND Pre Hfd Hfh E.
  assert (Done : ∀ {St} (func : option (id → St → M St)) st σ0 nd0,
            wf_with h d σ0 → σ0 !! u = Some nd0 →
            shape_of <$> σ0 = shape_of <$> σ →
            (∀ f c st, func = Some f → safe (f c st)) →
            ((_add_children fuel u cs func st;; mret u) σ0 = (Ok v, σ')) →
            is_composite (class_ ndu) = true →
            v = u ∧ wf σ'
            ∧ frame σ' = foldl (attach u (m_invert W)) (frame σ) cs
            ∧ skeleton σ' = alter (λ l, l ++ cs) u (skeleton σ)
            ∧ ∀ c Lc, c ∈ cs → frame σ !! c = Some (None, Lc) →
                frame σ' !! c = Some (Some u, m_transformBy Lc (m_invert W))
                ∧ World (frame σ') c
                    (m_transformBy (m_transformBy Lc (m_invert W)) W)).
  { intros St func st σ0 nd0 Wf0 Eu0 S0 Sf E0 Cu.
    destruct (shape_frame _ _ S0) as (F0 & K0 & _).
    destruct (shape_lookup _ _ _ _ S0 Eu) as (nd0' & Eu0' & Sn0).
    rewrite Eu0 in Eu0'. injection Eu0' as <-.
    unfold shape_of in Sn0. injection Sn0 as _ _ Hc _ Hi.
    destruct (run_then_ret _ _ _ _ _ E0) as [-> [a Ea]].
    pose proof (attach_spec h d fuel σ0 u nd0 W func cs st (Ok a) σ' Wf0 Eu0) as Sp.
    rewrite Hc, Hi, F0, K0 in Sp. specialize (Sp Cu Iu Ww ND).
    assert (Pre0 : ∀ c, c ∈ cs → c ≠ u ∧ detached_leaf σ0 c).
    { intros c I. destruct (Pre c I) as (Ncu & nd & En & Pn & Cn).
      split; [done|].
      destruct (shape_lookup _ _ _ _ S0 En) as (nd' & En' & Sn).
      exists nd'. split; [done|]. unfold shape_of in Sn.
      injection Sn as Hp _ Hcl Hk _. unfold children in *.
      by rewrite Hp, Hcl, Hk. }
    destruct (Sp Pre0 Hfd Hfh Sf Ea) as (W' & Wu' & F' & K').
    split_and!; try done. intros c Lc I Ec.
    exact (attached_child u W cs (frame σ) (frame σ') c Lc ND F' Wu' I Ec). }
  destruct (class_ ndu) eqn:Cu; try done.
  - unfold Union_add in E.
    eapply (Done _ _ tt σ ndu); try done.
    intros f c st [= <-]. apply safe_Union_add_process_child.
  - unfold Difference_add in E.
    eapply (Done _ _ tt σ ndu); try done.
    intros f c st [= <-]. apply safe_Difference_add_process_child.
  - unfold Intersection_add in E.
    unfold mbind at 1, M_bind at 1, bind at 1 in E.
    destruct (get_plane fuel u σ) as [[plane|e|] σ0] eqn:Ep; try done.
    destruct (safe_get_plane fuel u _ _ _ _ _ _ (wf_with_but _ _ _ Wf) Ep)
      as [W0 S0].
    destruct (shape_lookup _ _ _ _ S0 Eu) as (nd0 & Eu0 & _).
    eapply (Done _ _ plane σ0 nd0); try done.
    + destruct W0 as [R P C _]. split; try done. intros n nd w. apply C. tauto.
    + intros f c st [= <-]. apply safe_Intersection_add_process_child.
Qed.

Lemma wf_with_ext h d h' d' σ :
  wf_with h d σ → (∀ m, m < length σ → h' m = h m ∧ d' m = d m) →
  wf_with h' d' σ.
Proof.
  intros [R P C] Ext. split; [| |done].
  - intros p l k E I. destruct (R _ _ _ E I) as [V Hk]. split; [done|].
    assert (Vp : p < length σ).
    { rewrite <- skeleton_length. by eapply lookup_lt_Some. }
    rewrite skeleton_length in V.
    destruct (Ext p Vp) as [-> _], (Ext k V) as [-> _]. done.
  - intros n p L E. destruct (P _ _ _ E) as [Hd [l [El Il]]].
    split; [|by exists l].
    assert (Vn : n < length σ).
    { rewrite <- frame_length. by eapply lookup_lt_Some. }
    assert (Vp : p < length σ).
    { rewrite <- skeleton_length. by eapply lookup_lt_Some. }
    destruct (Ext p Vp) as [_ ->], (Ext n Vn) as [_ ->]. done.
Qed.

(** The constructors [Union(...)], [Difference(...)] and
    [Intersection(...)] on a well-formed tree, given distinct components
    that have no parent and no child.  When the constructor returns, it
    returns a new node, a root with the identity for local transform,
    whose children are the components in the order given; each component
    has the new node for parent and its local transform composed with
    the inverse of the identity; nothing else moves in the tree, and the
    tree is well formed. *)
Theorem constructor_attaches_detached_children (h d : id → nat) (fuel : nat) σ
    (cs : list id) (nm : option string) (v : id) σ' :
  wf_with h d σ → NoDup cs → (∀ c, c ∈ cs → detached_leaf σ c) → 1 < fuel →
  Union_init fuel cs nm σ = (Ok v, σ')
  ∨ Difference_init fuel cs nm σ = (Ok v, σ')
  ∨ Intersection_init fuel cs nm σ = (Ok v, σ') →
  v = length σ ∧ wf σ'
  ∧ frame σ' = foldl (attach v (m_invert m_create)) (frame σ ++ [(None, m_create)]) cs
  ∧ skeleton σ' = skeleton σ ++ [cs]
  ∧ ∀ c Lc, c ∈ cs → frame σ !! c = Some (None, Lc) →
      frame σ' !! c = Some (Some v, m_transformBy Lc (m_invert m_create))
      ∧ World (frame σ') c
          (m_transformBy (m_transformBy Lc (m_invert m_create)) m_create).
Proof.
  intros Wf ND Pre Hf E.
  set (u := length σ).
  assert (Done : ∀ {St} (func : option (id → St → M St)) st (k : cls),
            is_composite k = true →
            (∀ f c st, func = Some f → safe (f c st)) →
            (_add_children fuel u cs func st;; mret u) (σ ++ [new_component k nm])
            = (Ok v, σ') →
            v = u ∧ wf σ'
            ∧ frame σ' = foldl (attach v (m_invert m_create))
                           (frame σ ++ [(None, m_create)]) cs
            ∧ skeleton σ' = skeleton σ ++ [cs]
            ∧ ∀ c Lc, c ∈ cs → frame σ !! c = Some (None, Lc) →
                frame σ' !! c = Some (Some v, m_transformBy Lc (m_invert m_create))
                ∧ World (frame σ') c
                    (m_transformBy (m_transformBy Lc (m_invert m_create)) m_create)).
  { intros St func st k Ck Sf E0.
    set (σ0 := σ ++ [new_component k nm]) in *.
    set (h0 := λ m, if decide (m = u) then 0 else h m).
    set (d0 := λ m, if decide (m = u) then 0 else d m).
    assert (Wf0 : wf_with h0 d0 σ0).
    { apply wf_with_alloc_leaf; try done.
      - apply (wf_with_ext h d); [done|]. intros m Hm. unfold h0, d0, u.
        by rewrite !decide_False by lia.
      - unfold children. simpl. by rewrite Ck. }
    assert (Eu : σ0 !! u = Some (new_component k nm))
      by (by apply list_lookup_middle).
    assert (F0 : frame σ0 = frame σ ++ [(None, m_create)]).
    { unfold σ0, frame. by rewrite fmap_app. }
    assert (K0 : skeleton σ0 = skeleton σ ++ [[]]).
    { unfold σ0, skeleton. rewrite fmap_app. simpl. unfold children. simpl.
      by rewrite Ck. }
    assert (Ww : World (frame σ0) u m_create).
    { apply World_root. rewrite frame_lookup, Eu. done. }
    destruct (run_then_ret _ _ _ _ _ E0) as [-> [a Ea]].
    assert (Pre0 : ∀ c, c ∈ cs → c ≠ u ∧ detached_leaf σ0 c).
    { intros c I. destruct (Pre c I) as (nd & En & Pn & Cn).
      split; [apply lookup_lt_Some in En; unfold u; lia|].
      exists nd. split; [by apply lookup_app_l_Some | done]. }
    destruct (attach_spec h0 d0 fuel σ0 u (new_component k nm) m_create func cs st
                (Ok a) σ' Wf0 Eu Ck) as (W' & Wu' & F' & K'); try done.
    { unfold d0. rewrite decide_True by done. lia. }
    { unfold h0. by rewrite decide_True by done. }
    rewrite F0 in F'. rewrite K0 in K'.
    split_and!; try done.
    - rewrite K'. unfold u. rewrite <- skeleton_length.
      rewrite <- (Nat.add_0_r (length (skeleton σ))).
      by rewrite alter_app_r.
    - intros c Lc I Ec.
      apply (attached_child u m_create cs (frame σ ++ [(None, m_create)])
               (frame σ') c Lc ND F' Wu' I).
      by apply lookup_app_l_Some. }
  destruct E as [E|[E|E]].
  - unfold Union_init in E.
    rewrite (run_bind _ _ σ u (σ ++ [new_component CUnion nm])) in E by done.
    eapply (Done _ _ tt CUnion); try done.
    intros f c st [= <-]. apply safe_Union_init_process_child.
  - unfold Difference_init in E.
    rewrite (run_bind _ _ σ u (σ ++ [new_component CDifference nm])) in E by done.
    eapply (Done _ _ tt CDifference); try done.
    intros f c st [= <-]. apply safe_Difference_init_process_child.
  - unfold Intersection_init in E.
    rewrite (run_bind _ _ σ u (σ ++ [new_component CIntersection nm])) in E by done.
    eapply (Done _ _ None CIntersection); try done.
    intros f c st [= <-]. apply safe_Intersection_init_process_child.
Qed.

(** When [add] on a Union or a Difference raises, on a well-formed tree
    and for distinct components that have no parent and no child, the
    components before the one that was refused are attached, and the
    refused one is left without a parent but not as it was: its local
    transform has been composed with the inverse of the world transform
    of the composite.  The components after it are untouched. *)
Theorem rejected_component_is_left_displaced (h d : id → nat) (fuel : nat) σ
    (u : id) ndu W (cs : list id) (e : exn) σ' :
  wf_with h d σ → σ !! u = Some ndu →
  (∀ inv, _cached_inverse_transform ndu = Some inv → inv = m_invert W) →
  World (frame σ) u W →
  NoDup cs → (∀ c, c ∈ cs → c ≠ u ∧ detached_leaf σ c) →
  d u < fuel → S (h u) < fuel →
  match class_ ndu with
  | CUnion => Union_add fuel u cs σ = (Raise e, σ')
  | CDifference => Difference_add fuel u cs σ = (Raise e, σ')
  | _ => False
  end →
  ∃ done c rest, cs = done ++ c :: rest
    ∧ frame σ' = displace (m_invert W)
                   (foldl (attach u (m_invert W)) (frame σ) done) c
    ∧ skeleton σ' = alter (λ l, l ++ done) u (skeleton σ).
Proof.
  intros Wf Eu Iu Ww ND Pre Hfd Hfh E.
  destruct (class_ ndu) eqn:Cu; try done.
  - unfold Union_add in E. apply run_then_ret in E.
    eapply (attach_spec h d fuel σ u ndu W _ cs tt (Raise e) σ'); try done.
    + by rewrite Cu.
    + intros f c st [= <-]. apply safe_Union_add_process_child.
  - unfold Difference_add in E. apply run_then_ret in E.
    eapply (attach_spec h d fuel σ u ndu W _ cs tt (Raise e) σ'); try done.
    + by rewrite Cu.
    + intros f c st [= <-]. apply safe_Difference_add_process_child.
Qed.
End Attach.

(** * Folding the bodies of the components *)
Section Fold.
Context `{Kernel}.
Implicit Types (σ : store) (nd : Node).

Lemma get_plane_solid fuel σ c nd :
  σ !! c = Some nd → is_solid (class_ nd) = true →
  get_plane (S fuel) c σ = (Ok None, σ).
Proof.
  intros E C. simpl. rewrite (run_bind _ _ _ _ _ (run_get_node _ _ _ E)).
  by destruct (class_ nd).
Qed.

(** A Union or a Difference over solid leaves has no plane. *)
Lemma get_plane_over_solids fuel σ u nd :
  σ !! u = Some nd → class_ nd = CUnion ∨ class_ nd = CDifference →
  (∀ m, m ∈ _children nd →
     ∃ ndm, σ !! m = Some ndm ∧ is_solid (class_ ndm) = true) →
  get_plane (S (S fuel)) u σ = (Ok None, σ).
Proof.
  intros E C Ch. change (get_plane (S (S fuel)) u σ)
    with ((nd ← get_node u;
           match class_ nd with
           | CRect | CCircle =>
             body ← _cached_body (S fuel) u; mret (Some (face0_geometry body))
           | CUnion | CDifference =>
             match children nd with
             | child :: _ => get_plane (S fuel) child
             | [] => mret None
             end
           | CIntersection =>
             if _cached_plane_populated nd then mret (_cached_plane nd)
             else
               plane ← first_plane (get_plane (S fuel)) (children nd);
               modify u (set_cached_plane plane true);;
               mret plane
           | _ => mret None
           end) σ).
  rewrite (run_bind _ _ _ _ _ (run_get_node _ _ _ E)).
  assert (Cm : children nd = _children nd).
  { unfold children. by destruct C as [-> | ->]. }
  rewrite Cm.
  assert (G : match _children nd with
              | [] => mret None
              | child :: _ => get_plane (S fuel) child
              end σ = (Ok None, σ)).
  { destruct (_children nd) as [|k ks]; [done|].
    destruct (Ch k) as (ndk & Ek & Sk); [by left|].
    by eapply get_plane_solid. }
  by destruct C as [-> | ->].
Qed.

(** [bodies()] of a root that is a solid leaf with nothing cached. *)
Lemma run_bodies_leaf fuel σ c nd b :
  σ !! c = Some nd → is_solid (class_ nd) = true → _body nd = Some b →
  _parent nd = None → _cached_world_transform nd = None →
  _cached_bodies nd = None →
  bodies (S fuel) c σ
  = (Ok [brep_transform (brep_copy b) (_local_transform nd)],
     <[c := set_cached_bodies
              (Some [brep_transform (brep_copy b) (_local_transform nd)])
              (set_cached_world_transform (Some (_local_transform nd)) nd)]> σ).
Proof.
  intros E Sc B P Cw Cb.
  assert (Ew : _get_world_transform (S fuel) c σ
               = (Ok (_local_transform nd),
                  <[c := set_cached_world_transform (Some (_local_transform nd)) nd]> σ)).
  { simpl. rewrite (run_bind _ _ _ _ _ (run_get_node _ _ _ E)). rewrite Cw, P.
    unfold mret, M_ret.
    rewrite (run_bind _ (λ transform, _) σ (_local_transform nd) σ) by done.
    by rewrite (run_bind _ _ _ _ _ (run_modify _ _ _ _ E)). }
  pose proof (lookup_lt_Some _ _ _ E) as V.
  rewrite (run_bodies (S fuel) σ c nd (_local_transform nd) _
             (set_cached_world_transform (Some (_local_transform nd)) nd) [b]
             E Cb Ew).
  - by rewrite list_insert_insert_eq.
  - by apply list_lookup_insert_eq.
  - unfold raw_bodies. simpl. rewrite B. by destruct (class_ nd).
Qed.

Lemma run_for_each_one {A} (a : A) (f : A → M unit) σ σ' :
  f a σ = (Ok tt, σ') → for_each [a] f σ = (Ok tt, σ').
Proof. intros E. simpl. by rewrite (run_bind _ _ _ _ _ E). Qed.

Lemma Union_init_folds fuel u :
  folds false CUnion u (λ child _, Union_init_process_child (S (S fuel)) u child) tt.
Proof.
  intros σ c ndc acc b t' (ndu & Eu & Ck & G & Ch) _ Ncu Ec Sc B P Cw Cb F.
  unfold accumulated in G. rewrite Ck in G. injection G as G.
  set (pb := brep_transform (brep_copy b) (_local_transform ndc)) in *.
  set (ndc' := set_cached_bodies (Some [pb])
                 (set_cached_world_transform (Some (_local_transform ndc)) ndc)).
  exists ndu,
    (match acc with
     | None => set_plane None (set_body (Some (brep_copy pb)) ndu)
     | Some _ => set_body (Some t') ndu
     end), ndc'.
  split; [done|].
  assert (Eu1 : (<[c := ndc']> σ) !! u = Some ndu)
    by (by rewrite list_lookup_insert_ne).
  assert (Ec1 : (<[c := ndc']> σ) !! c = Some ndc').
  { apply list_lookup_insert_eq. by eapply lookup_lt_Some. }
  split; [|by destruct acc; simplify_eq/=; unfold accumulated; simpl; rewrite ?Ck].
  unfold Union_init_process_child.
  assert (Echk : Union_check_coplanarity (S (S fuel)) u c σ = (Ok tt, σ)).
  { unfold Union_check_coplanarity.
    rewrite (run_bind _ _ _ _ _ (run_get_node _ _ _ Eu)), G.
    destruct acc; simpl; [|done].
    rewrite (run_bind _ _ _ _ _
               (get_plane_over_solids fuel σ u ndu Eu (or_introl Ck) Ch)).
    by rewrite (run_bind _ _ _ _ _ (get_plane_solid (S fuel) σ c ndc Ec Sc)). }
  rewrite (run_bind _ _ _ _ _ Echk).
  rewrite (run_bind _ _ _ _ _ (run_bodies_leaf (S fuel) σ c ndc b Ec Sc B P Cw Cb)).
  fold pb ndc'. apply run_for_each_one.
  rewrite (run_bind _ _ _ _ _ (run_get_node _ _ _ Eu1)), G.
  destruct acc as [t|]; simpl in F |- *.
  - unfold boolean_into_body.
    rewrite (run_bind _ _ _ _ _ (run_get_node _ _ _ Eu1)), G, F.
    by rewrite (run_modify _ _ _ _ Eu1).
  - injection F as <-.
    rewrite (run_bind _ _ _ _ _ (run_modify _ _ _ _ Eu1)).
    assert (Ec2 : (<[u := set_body (Some (brep_copy pb)) ndu]> (<[c := ndc']> σ)) !! c
                  = Some ndc')
      by (by rewrite list_lookup_insert_ne).
    rewrite (run_bind _ _ _ _ _ (get_plane_solid (S fuel) _ c ndc' Ec2 Sc)).
    assert (Eu2 : (<[u := set_body (Some (brep_copy pb)) ndu]> (<[c := ndc']> σ)) !! u
                  = Some (set_body (Some (brep_copy pb)) ndu)).
    { apply list_lookup_insert_eq. by eapply lookup_lt_Some. }
    rewrite (run_modify _ _ _ _ Eu2).
    by rewrite list_insert_insert_eq.
Qed.

Lemma accumulated_bodies nd acc :
  class_ nd = CDifference ∨ class_ nd = CIntersection →
  accumulated nd = Some acc → _bodies nd = (λ t, [t]) <$> acc.
Proof.
  unfold accumulated. intros [-> | ->] G;
    destruct (_bodies nd) as [[|t [|]]|]; by simplify_eq/=.
Qed.

Lemma run_seed_or_fold fuel σ u ndu c ndc acc b t' op :
  σ !! u = Some ndu → class_ ndu = CDifference ∨ class_ ndu = CIntersection →
  accumulated ndu = Some acc → c ≠ u → σ !! c = Some ndc →
  is_solid (class_ ndc) = true → _body ndc = Some b → _parent ndc = None →
  _cached_world_transform ndc = None → _cached_bodies ndc = None →
  fold_step op acc (brep_transform (brep_copy b) (_local_transform ndc)) = Some t' →
  seed_or_fold (S fuel) u c op σ
  = (Ok tt,
     <[u := set_bodies (Some [t']) ndu]>
       (<[c := set_cached_bodies
                 (Some [brep_transform (brep_copy b) (_local_transform ndc)])
                 (set_cached_world_transform (Some (_local_transform ndc)) ndc)]> σ)).
Proof.
  intros Eu Ck G Ncu Ec Sc B P Cw Cb F.
  apply (accumulated_bodies _ _ Ck) in G.
  set (pb := brep_transform (brep_copy b) (_local_transform ndc)) in *.
  set (ndc' := set_cached_bodies (Some [pb])
                 (set_cached_world_transform (Some (_local_transform ndc)) ndc)).
  assert (Eu1 : (<[c := ndc']> σ) !! u = Some ndu)
    by (by rewrite list_lookup_insert_ne).
  unfold seed_or_fold.
  rewrite (run_bind _ _ _ _ _ (run_get_node _ _ _ Eu)), G.
  destruct acc as [t|]; simpl in F |- *.
  - unfold boolean_each_target.
    rewrite (run_bind _ _ _ _ _ (run_get_node _ _ _ Eu)), G. simpl fmap.
    change (seq 0 (length [t])) with [0]. apply run_for_each_one.
    rewrite (run_bind _ _ _ _ _ (run_bodies_leaf fuel σ c ndc b Ec Sc B P Cw Cb)).
    fold pb ndc'. apply run_for_each_one. unfold boolean_into_bodies.
    rewrite (run_bind _ _ _ _ _ (run_get_node _ _ _ Eu1)), G. simpl. rewrite F.
    by rewrite (run_modify _ _ _ _ Eu1).
  - injection F as <-.
    rewrite (run_bind _ _ _ _ _ (run_bodies_leaf fuel σ c ndc b Ec Sc B P Cw Cb)).
    fold pb ndc'. by rewrite (run_modify _ _ _ _ Eu1).
Qed.

Lemma accumulated_set_bodies nd t :
  class_ nd = CDifference ∨ class_ nd = CIntersection →
  accumulated (set_bodies (Some [t]) nd) = Some (Some t).
Proof. unfold accumulated. simpl. by intros [-> | ->]. Qed.

Lemma has_bodies_accumulated nd acc :
  class_ nd = CDifference ∨ class_ nd = CIntersection →
  accumulated nd = Some acc → has_bodies nd = bool_decide (is_Some acc).
Proof.
  intros Ck G. apply (accumulated_bodies _ _ Ck) in G. unfold has_bodies.
  rewrite G. by destruct acc.
Qed.

Lemma Difference_init_folds fuel u :
  folds false CDifference u
    (λ child _, Difference_init_process_child (S (S fuel)) u child) tt.
Proof.
  intros σ c ndc acc b t' (ndu & Eu & Ck & G & Ch) _ Ncu Ec Sc B P Cw Cb F.
  eexists ndu, _, _. split; [done|]. split; [|split; [|split; [|split]]].
  - unfold Difference_init_process_child.
    assert (Echk : Difference_check_coplanarity (S (S fuel)) u c σ = (Ok tt, σ)).
    { unfold Difference_check_coplanarity.
      rewrite (run_bind _ _ _ _ _ (run_get_node _ _ _ Eu)).
      rewrite (has_bodies_accumulated _ _ (or_introl Ck) G).
      destruct acc; simpl; [|done].
      rewrite (run_bind _ _ _ _ _
                 (get_plane_over_solids fuel σ u ndu Eu (or_intror Ck) Ch)).
      by rewrite (run_bind _ _ _ _ _ (get_plane_solid (S fuel) σ c ndc Ec Sc)). }
    rewrite (run_bind _ _ _ _ _ Echk).
    exact (run_seed_or_fold (S fuel) σ u ndu c ndc acc b t' _ Eu (or_introl Ck)
             G Ncu Ec Sc B P Cw Cb F).
  - done.
  - apply accumulated_set_bodies. by left.
  - done.
  - done.
Qed.

Lemma Intersection_init_folds fuel u :
  folds false CIntersection u (Intersection_init_process_child (S (S fuel)) u) None.
Proof.
  intros σ c ndc acc b t' (ndu & Eu & Ck & G & Ch) _ Ncu Ec Sc B P Cw Cb F.
  eexists ndu, _, _. split; [done|]. split; [|split; [|split; [|split]]].
  - unfold Intersection_init_process_child.
    assert (Echk : Intersection_check_coplanarity (S (S fuel)) u c None σ
                   = (Ok None, σ)).
    { unfold Intersection_check_coplanarity.
      rewrite (run_bind _ _ _ _ _ (run_get_node _ _ _ Eu)).
      rewrite (has_bodies_accumulated _ _ (or_intror Ck) G).
      destruct acc; simpl.
      - by rewrite (run_bind _ _ _ _ _ (get_plane_solid (S fuel) σ c ndc Ec Sc)).
      - by apply (get_plane_solid (S fuel) σ c ndc). }
    rewrite (run_bind _ _ _ _ _ Echk).
    by rewrite (run_bind _ _ _ _ _
                  (run_seed_or_fold (S fuel) σ u ndu c ndc acc b t' _ Eu
                     (or_intror Ck) G Ncu Ec Sc B P Cw Cb F)).
  - done.
  - apply accumulated_set_bodies. by right.
  - done.
  - done.
Qed.

Lemma run_boolean_each_target fuel σ u ndu c ndc t b t' op :
  σ !! u = Some ndu → class_ ndu = CDifference ∨ class_ ndu = CIntersection →
  accumulated ndu = Some (Some t) → c ≠ u → σ !! c = Some ndc →
  is_solid (class_ ndc) = true → _body ndc = Some b → _parent ndc = None →
  _cached_world_transform ndc = None → _cached_bodies ndc = None →
  brep_booleanOperation t (brep_transform (brep_copy b) (_local_transform ndc)) op
  = Some t' →
  boolean_each_target (S fuel) u c op σ
  = (Ok tt,
     <[u := set_bodies (Some [t']) ndu]>
       (<[c := set_cached_bodies
                 (Some [brep_transform (brep_copy b) (_local_transform ndc)])
                 (set_cached_world_transform (Some (_local_transform ndc)) ndc)]> σ)).
Proof.
  intros Eu Ck G Ncu Ec Sc B P Cw Cb F.
  pose proof (run_seed_or_fold fuel σ u ndu c ndc (Some t) b t' op
                Eu Ck G Ncu Ec Sc B P Cw Cb F) as E.
  unfold seed_or_fold in E.
  rewrite (run_bind _ _ _ _ _ (run_get_node _ _ _ Eu)) in E.
  by rewrite (accumulated_bodies _ _ Ck G) in E.
Qed.

Lemma Union_add_folds fuel u :
  folds true CUnion u (λ child _, Union_add_process_child (S (S fuel)) u child) tt.
Proof.
  intros σ c ndc acc b t' (ndu & Eu & Ck & G & Ch) Se Ncu Ec Sc B P Cw Cb F.
  destruct (Se eq_refl) as [t ->].
  unfold accumulated in G. rewrite Ck in G. injection G as G.
  set (pb := brep_transform (brep_copy b) (_local_transform ndc)) in *.
  set (ndc' := set_cached_bodies (Some [pb])
                 (set_cached_world_transform (Some (_local_transform ndc)) ndc)).
  exists ndu, (set_body (Some t') ndu), ndc'.
  split; [done|].
  assert (Eu1 : (<[c := ndc']> σ) !! u = Some ndu)
    by (by rewrite list_lookup_insert_ne).
  split; [|by unfold accumulated; simpl; rewrite ?Ck].
  unfold Union_add_process_child.
  assert (Echk : Union_check_coplanarity (S (S fuel)) u c σ = (Ok tt, σ)).
  { unfold Union_check_coplanarity.
    rewrite (run_bind _ _ _ _ _ (run_get_node _ _ _ Eu)), G. simpl.
    rewrite (run_bind _ _ _ _ _
               (get_plane_over_solids fuel σ u ndu Eu (or_introl Ck) Ch)).
    by rewrite (run_bind _ _ _ _ _ (get_plane_solid (S fuel) σ c ndc Ec Sc)). }
  rewrite (run_bind _ _ _ _ _ Echk).
  rewrite (run_bind _ _ _ _ _ (run_bodies_leaf (S fuel) σ c ndc b Ec Sc B P Cw Cb)).
  fold pb ndc'. apply run_for_each_one. unfold boolean_into_body.
  simpl in F.
  rewrite (run_bind _ _ _ _ _ (run_get_node _ _ _ Eu1)), G, F.
  by rewrite (run_modify _ _ _ _ Eu1).
Qed.

Lemma Difference_add_folds fuel u :
  folds true CDifference u
    (λ child _, Difference_add_process_child (S (S fuel)) u child) tt.
Proof.
  intros σ c ndc acc b t' (ndu & Eu & Ck & G & Ch) Se Ncu Ec Sc B P Cw Cb F.
  destruct (Se eq_refl) as [t ->].
  eexists ndu, _, _. split; [done|]. split; [|split; [|split; [|split]]].
  - unfold Difference_add_process_child.
    assert (Echk : Difference_check_coplanarity (S (S fuel)) u c σ = (Ok tt, σ)).
    { unfold Difference_check_coplanarity.
      rewrite (run_bind _ _ _ _ _ (run_get_node _ _ _ Eu)).
      rewrite (has_bodies_accumulated _ _ (or_introl Ck) G). simpl.
      rewrite (run_bind _ _ _ _ _
                 (get_plane_over_solids fuel σ u ndu Eu (or_intror Ck) Ch)).
      by rewrite (run_bind _ _ _ _ _ (get_plane_solid (S fuel) σ c ndc Ec Sc)). }
    rewrite (run_bind _ _ _ _ _ Echk).
    exact (run_boolean_each_target (S fuel) σ u ndu c ndc t b t' _ Eu
             (or_introl Ck) G Ncu Ec Sc B P Cw Cb F).
  - done.
  - apply accumulated_set_bodies. by left.
  - done.
  - done.
Qed.

(** [Intersection.add] hands its callback the plane of the composite,
    whatever it is; solid components leave it as it is. *)
Lemma Intersection_add_folds fuel u plane :
  folds true CIntersection u (Intersection_add_process_child (S (S fuel)) u) plane.
Proof.
  intros σ c ndc acc b t' (ndu & Eu & Ck & G & Ch) Se Ncu Ec Sc B P Cw Cb F.
  destruct (Se eq_refl) as [t ->].
  eexists ndu, _, _. split; [done|]. split; [|split; [|split; [|split]]].
  - unfold Intersection_add_process_child.
    assert (Echk : Intersection_check_coplanarity (S (S fuel)) u c plane σ
                   = (Ok plane, σ)).
    { unfold Intersection_check_coplanarity.
      rewrite (run_bind _ _ _ _ _ (run_get_node _ _ _ Eu)).
      rewrite (has_bodies_accumulated _ _ (or_intror Ck) G). simpl.
      rewrite (run_bind _ _ _ _ _ (get_plane_solid (S fuel) σ c ndc Ec Sc)).
      by destruct plane. }
    rewrite (run_bind _ _ _ _ _ Echk).
    by rewrite (run_bind _ _ _ _ _
                  (run_boolean_each_target (S fuel) σ u ndu c ndc t b t' _ Eu
                     (or_intror Ck) G Ncu Ec Sc B P Cw Cb F)).
  - done.
  - apply accumulated_set_bodies. by right.
  - done.
  - done.
Qed.

Lemma accumulated_persistent nd nd' :
  persistent nd' = persistent nd → accumulated nd' = accumulated nd.
Proof.
  unfold persistent, accumulated. intros E.
  injection E as -> _ _ _ _ -> -> _ _ _. done.
Qed.

Lemma solid_not_composite c : is_solid c = true → is_composite c = false.
Proof. by destruct c. Qed.

(** One iteration of the loop of [_add_children], when the child is a
    solid leaf without a parent and the callback folds: the iteration
    returns, the child is folded in where the inverse transform of the
    composite puts it, and no other node changes but in caches. *)
Lemma add_child_folds {St} X h d fuel σ u W (copy : id → M id)
    (f : id → St → M St) seeded k c ndc b acc t' st :
  wf_but X h d σ → host u W σ → World (frame σ) u W → ¬ X u → c ≠ u →
  σ !! c = Some ndc → _parent ndc = None → is_solid (class_ ndc) = true →
  _body ndc = Some b → d u < fuel → h c < fuel →
  folds seeded k u f st → folding k u acc σ → (seeded = true → is_Some acc) →
  fold_step (operation k) acc
    (brep_transform (brep_copy b)
       (m_transformBy (_local_transform ndc) (m_invert W))) = Some t' →
  ∃ σ', _add_child copy fuel u (Some f) c st σ = (Ok st, σ')
    ∧ folding k u (Some t') σ'
    ∧ ∀ m, m ≠ u → m ≠ c → persistent <$> σ' !! m = persistent <$> σ !! m.
Proof.
  intros Wf Ho Ww Xu Ncu Ec Pc Sc B Hfu Hfc Fo (ndu & Eu & Ck & G & Ch) Se F.
  set (L' := m_transformBy (_local_transform ndc) (m_invert W)) in *.
  assert (Cu : is_composite (class_ ndu) = true).
  { destruct Ho as (nd & E & Cm & _). congruence. }
  unfold _add_child.
  rewrite (run_bind _ _ _ _ _ (run_get_node _ _ _ Ec)), Pc.
  rewrite (run_bind _ _ σ c σ) by done.
  destruct (inverse_but X h d fuel σ u W Wf Ho Ww Xu Hfu)
    as (σa & Ei & Wa & Hoa & Fa & Ka & Sha).
  pose proof (cache_only_inverse fuel u _ _ _ Ei) as Pa.
  rewrite (run_bind _ _ _ _ _ Ei).
  destruct (persistent_lookup _ _ _ _ Pa Ec) as (nda & Eca & Pca).
  destruct (persistent_lookup _ _ _ _ Pa Eu) as (ndua & Eua & Pua).
  assert (Fa' : class_ nda = class_ ndc ∧ _parent nda = None
                ∧ _local_transform nda = _local_transform ndc
                ∧ _body nda = Some b).
  { unfold persistent in Pca. injection Pca as -> _ -> -> _ -> _ _ _ _. done. }
  destruct Fa' as (Cla & Paa & Lla & Ba).
  assert (Ca : children nda = []).
  { unfold children. by rewrite Cla, (solid_not_composite _ Sc). }
  unfold transform_local.
  rewrite (run_bind _ _ _ _ _ (run_modify _ _ _ _ Eca)), Lla. fold L'.
  rewrite (run_bind _ _ _ _ _
             (reset_leaf h fuel σa c nda L' (wfb_ranked _ _ _ _ Wa) Eca Ca Hfc)).
  set (ndb := reset_node (set_local_transform L' nda)).
  set (σb := <[c := ndb]> σa).
  pose proof (lookup_lt_Some _ _ _ Eca) as Vc.
  pose proof (lookup_lt_Some _ _ _ Eua) as Vu.
  assert (Ecb : σb !! c = Some ndb) by (by apply list_lookup_insert_eq).
  assert (Eub : σb !! u = Some ndua)
    by (unfold σb; by rewrite list_lookup_insert_ne).
  assert (Pb : persistent ndb = persistent (set_local_transform L' nda))
    by apply persistent_reset_node.
  assert (Fb : class_ ndb = class_ ndc ∧ _parent ndb = None
               ∧ _local_transform ndb = L' ∧ _body ndb = Some b).
  { unfold persistent in Pb. injection Pb as -> _ -> -> _ -> _ _ _ _. done. }
  destruct Fb as (Clb & Pbb & Llb & Bb).
  destruct (reset_node_caches (set_local_transform L' nda)) as (Cwb & _ & Cbb).
  fold ndb in Cwb, Cbb.
  assert (Solid : ∀ σx : store, (∀ m, m ≠ u → m ≠ c → σx !! m = σa !! m) →
            (∃ ndx : Node, σx !! c = Some ndx ∧ class_ ndx = class_ ndc) →
            ∀ m, m ∈ _children ndu →
              ∃ ndm : Node, σx !! m = Some ndm ∧ is_solid (class_ ndm) = true).
  { intros σx Same (ndx & Ex & Cx) m Im.
    destruct (Ch m Im) as (ndm & Em & Sm).
    destruct (decide (m = c)) as [->|Hc]; [exists ndx; by rewrite Cx|].
    assert (Hu : m ≠ u).
    { intros ->. rewrite Eu in Em. injection Em as <-.
      by rewrite (solid_not_composite _ Sm) in Cu. }
    destruct (persistent_lookup_class _ _ _ _ Pa Em) as (ndm' & Em' & Cm').
    exists ndm'. rewrite Same by done. by rewrite Cm'. }
  assert (Chu : _children ndua = _children ndu ∧ class_ ndua = k).
  { unfold persistent in Pua. injection Pua as -> _ _ _ -> _ _ _ _ _. done. }
  destruct Chu as (Chu & Clu).
  assert (Fob : folding k u acc σb).
  { exists ndua. split_and!; [done|done|by rewrite (accumulated_persistent _ _ Pua)|].
    rewrite Chu. apply Solid; [|by exists ndb].
    intros m _ Hc. unfold σb. by rewrite list_lookup_insert_ne. }
  rewrite <- Llb in F.
  destruct (Fo σb c ndb acc b t' Fob Se Ncu Ecb) as
    (ndu0 & ndu' & ndc' & Eu0 & Ef & Shu & Gu & Shc & Pcc); try done.
  { by rewrite Clb. }
  rewrite Eub in Eu0. injection Eu0 as <-.
  rewrite (run_bind _ _ _ _ _ Ef).
  set (σd := <[u := ndu']> (<[c := ndc']> σb)).
  assert (Ed : σd !! c = Some ndc').
  { unfold σd. rewrite list_lookup_insert_ne by done.
    apply list_lookup_insert_eq. unfold σb. by rewrite length_insert. }
  rewrite (run_bind _ _ _ _ _ (run_modify _ _ _ _ Ed)).
  set (σe := <[c := set_parent (Some u) ndc']> σd).
  assert (Ee : σe !! u = Some ndu').
  { unfold σe. rewrite list_lookup_insert_ne by done.
    apply list_lookup_insert_eq. unfold σb. by rewrite !length_insert. }
  rewrite (run_bind _ _ _ _ _ (run_modify _ _ _ _ Ee)).
  eexists. split; [done|].
  assert (Same : ∀ m, m ≠ u → m ≠ c →
            (<[u := set_children (_children ndu' ++ [c]) ndu']> σe) !! m = σa !! m).
  { intros m Hu Hc. unfold σe, σd, σb. by rewrite !list_lookup_insert_ne. }
  unfold shape_of in Shu. injection Shu as _ _ Clu' Chu' _.
  unfold shape_of in Shc. injection Shc as _ _ Clc' _ _.
  split.
  - exists (set_children (_children ndu' ++ [c]) ndu'). split_and!.
    + apply list_lookup_insert_eq. by eapply lookup_lt_Some.
    + simpl. congruence.
    + exact Gu.
    + simpl. intros m Im.
      assert (Sx : ∃ ndx, (<[u := set_children (_children ndu' ++ [c]) ndu']> σe) !! c
                          = Some ndx ∧ class_ ndx = class_ ndc).
      { exists (set_parent (Some u) ndc'). split.
        - rewrite list_lookup_insert_ne by done.
          apply list_lookup_insert_eq. by eapply lookup_lt_Some.
        - simpl. congruence. }
      apply elem_of_app in Im as [Im|Im].
      * apply (Solid _ Same Sx). by rewrite <- Chu, <- Chu'.
      * apply list_elem_of_singleton in Im as ->.
        destruct Sx as (ndx & Ex & Cx). exists ndx. by rewrite Cx.
  - intros m Hu Hc. rewrite Same by done.
    by rewrite <- !list_lookup_fmap, Pa.
Qed.

Lemma Forall2_impl_elem {A B} (P Q : A → B → Prop) l k :
  Forall2 P l k → (∀ x y, x ∈ l → P x y → Q x y) → Forall2 Q l k.
Proof.
  induction 1 as [|x y l k Pxy _ IH]; intros Imp; constructor.
  - apply Imp; [by left | done].
  - apply IH. intros x' y' I. apply Imp. by right.
Qed.

Lemma placed_leaf_detached σ inv c p :
  placed_leaf σ inv c p → detached_leaf σ c.
Proof.
  intros (nd & b & E & P & Sc & _). exists nd. split_and!; [done..|].
  unfold children. by rewrite (solid_not_composite _ Sc).
Qed.

Lemma placed_leaf_persistent σ σ' inv c p :
  persistent <$> σ' !! c = persistent <$> σ !! c →
  placed_leaf σ inv c p → placed_leaf σ' inv c p.
Proof.
  intros Pe (nd & b & E & P & Sc & B & ->). rewrite E in Pe.
  destruct (σ' !! c) as [nd'|] eqn:E'; [|done]. simpl in Pe.
  assert (Pe' : persistent nd' = persistent nd) by congruence.
  unfold persistent in Pe'. injection Pe' as Hc _ Hp Hl _ Hb _ _ _ _.
  exists nd', b. by rewrite Hc, Hp, Hl, Hb.
Qed.

(** The loop of [_add_children] over distinct solid leaves without a
    parent, with a callback that folds: it returns, and the composite
    holds the fold of the placed bodies. *)
Lemma add_children_loop_folds {St} h d fuel u W (copy : id → M id)
    (f : id → St → M St) seeded k st :
  folds seeded k u f st → (∀ c st', safe (f c st')) →
  ∀ cs ps X σ acc res,
    wf_but X h d σ → host u W σ → World (frame σ) u W → ¬ X u → d u < fuel →
    NoDup cs →
    (∀ c, c ∈ cs → ¬ X c ∧ c ≠ u ∧ h c < h u ∧ d u < d c ∧ h c < fuel) →
    Forall2 (placed_leaf σ (m_invert W)) cs ps →
    folding k u acc σ → (seeded = true → is_Some acc) →
    fold_from (operation k) acc ps = Some res →
    ∃ σ', _add_children_loop copy fuel u (Some f) cs st σ = (Ok st, σ')
      ∧ folding k u res σ'
      ∧ wf_but (λ x, X x ∨ x ∈ cs) h d σ'.
Proof.
  intros Fo Sf. induction cs as [|c cs IH];
    intros ps X σ acc res Wf Ho Ww Xu Hfu ND Pre Fa Fg Se Fr.
  { apply Forall2_nil_inv_l in Fa as ->. injection Fr as <-.
    exists σ. split_and!; [done..|].
    eapply wf_but_equiv; [|done]. intros x. split; [by left|].
    intros [?|I]; [done|]. by apply elem_of_nil in I. }
  apply Forall2_cons_inv_l in Fa as (p & ps' & Pl & Fa & ->).
  simpl in Fr. destruct (fold_step (operation k) acc p) as [t'|] eqn:Fs; [|done].
  simpl in Fr.
  apply NoDup_cons in ND as [Nc ND].
  destruct (Pre c) as (Xc & Ncu & Hh & Hd & Hfc); [by left|].
  pose proof (placed_leaf_detached _ _ _ _ Pl) as (ndc' & Ec' & Pc' & Cc').
  destruct Pl as (ndc & b & Ec & Pc & Sc & B & ->).
  destruct (add_child_folds X h d fuel σ u W copy f seeded k c ndc b acc t' st
              Wf Ho Ww Xu Ncu Ec Pc Sc B Hfu Hfc Fo Fg Se Fs)
    as (σ1 & E1 & Fg1 & Same).
  rewrite Ec in Ec'. injection Ec' as <-.
  assert (Fc : frame σ !! c = Some (None, _local_transform ndc)).
  { rewrite frame_lookup, Ec. simpl. by rewrite Pc. }
  assert (Kc : skeleton σ !! c = Some []).
  { rewrite skeleton_lookup, Ec. simpl. by rewrite Cc'. }
  pose proof (add_child_step X h d fuel σ u W copy (Some f) c _ st (Ok st) σ1
                Wf Ho Ww Xu Xc Ncu Fc Kc Hh Hd Hfu Hfc
                (λ f' st' Ef, eq_ind f (λ g, safe (g c st')) (Sf c st') f'
                                (Some_inj _ _ Ef)) E1)
    as (W1 & Ho1 & Ww1 & F1 & K1).
  assert (Pre1 : ∀ c', c' ∈ cs →
            ¬ (X c' ∨ c' = c) ∧ c' ≠ u ∧ h c' < h u ∧ d u < d c' ∧ h c' < fuel).
  { intros c' I. destruct (Pre c') as (Xc' & Nu' & ? & ? & ?); [by right|].
    assert (c' ≠ c) by (intros ->; done).
    split_and!; try done. intros [?|?]; done. }
  assert (Fa1 : Forall2 (placed_leaf σ1 (m_invert W)) cs ps').
  { apply (Forall2_impl_elem _ _ _ _ Fa). intros c' p' I Pl'.
    destruct (Pre c') as (_ & Nu' & _); [by right|].
    assert (c' ≠ c) by (intros ->; done).
    eapply placed_leaf_persistent; [|done]. by apply Same. }
  assert (Xu1 : ¬ (X u ∨ u = c)) by (intros [?|?]; done).
  destruct (IH ps' _ σ1 (Some t') res W1 Ho1 Ww1 Xu1 Hfu ND Pre1 Fa1 Fg1
              (λ _, mk_is_Some _ _ eq_refl) Fr) as (σ' & E' & Fg' & W').
  exists σ'. split_and!; [|done|].
  - simpl. by rewrite (run_bind _ _ _ _ _ E1).
  - eapply wf_but_equiv; [|done]. intros x. rewrite elem_of_cons. tauto.
Qed.

(** [_add_children] on a well-formed tree, over distinct solid leaves
    without a parent, with a callback that folds. *)
Lemma add_children_folds {St} h d fuel σ u W (copy : id → M id)
    (f : id → St → M St) seeded k st cs ps acc res :
  wf_with h d σ → host u W σ → World (frame σ) u W → d u < fuel → h u < fuel →
  NoDup cs → (∀ c, c ∈ cs → c ≠ u ∧ h c < h u ∧ d u < d c) →
  Forall2 (placed_leaf σ (m_invert W)) cs ps →
  folds seeded k u f st → (∀ c st', safe (f c st')) →
  folding k u acc σ → (seeded = true → is_Some acc) →
  fold_from (operation k) acc ps = Some res →
  ∃ σ' nd', _add_children_with copy fuel u (Some f) cs st σ = (Ok st, σ')
    ∧ σ' !! u = Some nd' ∧ class_ nd' = k ∧ accumulated nd' = Some res.
Proof.
  intros Wf Ho Ww Hfd Hfh ND Pre Fa Fo Sf Fg Se Fr.
  assert (Pre' : ∀ c, c ∈ cs →
            ¬ False ∧ c ≠ u ∧ h c < h u ∧ d u < d c ∧ h c < fuel).
  { intros c I. destruct (Pre c I) as (? & ? & ?).
    split_and!; try done; [tauto | lia]. }
  destruct (add_children_loop_folds h d fuel u W copy f seeded k st Fo Sf cs ps
              (λ _, False) σ acc res (wf_with_but _ _ _ Wf) Ho Ww (λ F, F) Hfd
              ND Pre' Fa Fg Se Fr) as (σ1 & E1 & (nd1 & Eu1 & Ck1 & G1 & _) & W1).
  pose proof (lookup_lt_Some _ _ _ Eu1) as Vu.
  destruct (_reset_cache_spec h fuel σ1 u (wfb_ranked _ _ _ _ W1) Vu Hfh)
    as [σ2 [E2 Ro]].
  destruct (persistent_lookup _ _ _ _ (reset_on_persistent _ _ _ Ro) Eu1)
    as (nd2 & Eu2 & P2).
  exists σ2, nd2. split_and!; [|done| |].
  - unfold _add_children_with.
    rewrite (run_bind _ _ _ _ _ E1). by rewrite (run_bind _ _ _ _ _ E2).
  - unfold persistent in P2. injection P2 as -> _ _ _ _ _ _ _ _ _. done.
  - by rewrite (accumulated_persistent _ _ P2).
Qed.

Lemma placed_leaves_detached σ inv (cs : list id) ps (P : id → Prop) :
  Forall2 (placed_leaf σ inv) cs ps → (∀ c, c ∈ cs → P c) →
  ∀ c, c ∈ cs → P c ∧ detached_leaf σ c.
Proof.
  intros Fa HP c I. split; [by apply HP|].
  apply list_elem_of_lookup in I as [i Ei].
  destruct (Forall2_lookup_l _ _ _ _ _ Fa Ei) as (p & _ & Pl).
  by eapply placed_leaf_detached.
Qed.

(** [_add_children] with a callback that folds, under the ranks of the
    tree before the components are attached. *)
Lemma attach_folds {St} h d fuel σ u ndu W (f : id → St → M St) seeded st
    (cs : list id) ps acc res :
  wf_with h d σ → σ !! u = Some ndu → is_composite (class_ ndu) = true →
  (∀ inv, _cached_inverse_transform ndu = Some inv → inv = m_invert W) →
  World (frame σ) u W → NoDup cs → (∀ c, c ∈ cs → c ≠ u) →
  Forall2 (placed_leaf σ (m_invert W)) cs ps →
  d u < fuel → S (h u) < fuel →
  accumulated ndu = Some acc → (seeded = true → is_Some acc) →
  (∀ m, m ∈ _children ndu →
     ∃ ndm, σ !! m = Some ndm ∧ is_solid (class_ ndm) = true) →
  folds seeded (class_ ndu) u f st → (∀ c st', safe (f c st')) →
  fold_from (operation (class_ ndu)) acc ps = Some res →
  ∃ σ' nd', (_add_children fuel u cs (Some f) st;; mret u) σ = (Ok u, σ')
    ∧ σ' !! u = Some nd' ∧ class_ nd' = class_ ndu ∧ accumulated nd' = Some res.
Proof.
  intros Wf Eu Cu Iu Ww ND Ncu Fa Hfd Hfh G Se Ch Fo Sf Fr.
  pose proof (placed_leaves_detached _ _ _ _ _ Fa Ncu) as Pre.
  pose proof (ranks_for_attach h d σ u cs Wf Pre) as Wf'.
  set (h' := λ m, if decide (m ∈ cs) then 0 else S (h m)) in *.
  set (d' := λ m, if decide (m ∈ cs) then S (d u) else d m) in *.
  assert (Nu : u ∉ cs) by (intros I; by destruct (Pre u I)).
  assert (Hu : h' u = S (h u)) by (unfold h'; by rewrite decide_False).
  assert (Du : d' u = d u) by (unfold d'; by rewrite decide_False).
  assert (Ho : host u W σ) by (by exists ndu).
  assert (Pre' : ∀ c, c ∈ cs → c ≠ u ∧ h' c < h' u ∧ d' u < d' c).
  { intros c I. rewrite Hu, Du. unfold h', d'. rewrite !decide_True by done.
    split_and!; [by apply Ncu | lia..]. }
  destruct (add_children_folds h' d' fuel σ u W (copy fuel) f seeded (class_ ndu)
              st cs ps acc res Wf' Ho Ww) as (σ' & nd' & E & Eu' & Ck' & G');
    try done; [by rewrite Du | by rewrite Hu | by exists ndu |].
  exists σ', nd'. split_and!; [|done..].
  unfold _add_children. by rewrite (run_bind _ _ _ _ _ E).
Qed.

(** The common part of the three constructors. *)
Lemma constructor_folds {St} h d fuel σ (cs : list id) ps nm k
    (f : id → St → M St) st res :
  wf_with h d σ → NoDup cs →
  Forall2 (placed_leaf σ (m_invert m_create)) cs ps → 1 < fuel →
  k ∈ [CUnion; CDifference; CIntersection] →
  folds false k (length σ) f st → (∀ c st', safe (f c st')) →
  fold_from (operation k) None ps = Some res →
  ∃ σ' nd',
    (_add_children fuel (length σ) cs (Some f) st;; mret (length σ))
      (σ ++ [new_component k nm]) = (Ok (length σ), σ')
    ∧ σ' !! length σ = Some nd' ∧ class_ nd' = k ∧ accumulated nd' = Some res.
Proof.
  intros Wf ND Fa Hf Ik Fo Sf Fr.
  set (u := length σ) in *.
  set (σ0 := σ ++ [new_component k nm]).
  set (h0 := λ m, if decide (m = u) then 0 else h m).
  set (d0 := λ m, if decide (m = u) then 0 else d m).
  assert (Ck : is_composite k = true ∧ accumulated (new_component k nm) = Some None).
  { rewrite !elem_of_cons in Ik. destruct Ik as [->|[->|[->|I]]]; [done..|].
    by apply elem_of_nil in I. }
  destruct Ck as [Ck G0].
  assert (Wf0 : wf_with h0 d0 σ0).
  { apply wf_with_alloc_leaf; try done.
    - apply (wf_with_ext h d); [done|]. intros m Hm. unfold h0, d0, u.
      by rewrite !decide_False by lia.
    - unfold children. simpl. by rewrite Ck. }
  assert (Eu : σ0 !! u = Some (new_component k nm))
    by (by apply list_lookup_middle).
  assert (Ww : World (frame σ0) u m_create).
  { apply World_root. rewrite frame_lookup, Eu. done. }
  assert (Ncu : ∀ c, c ∈ cs → c ≠ u).
  { intros c I. apply list_elem_of_lookup in I as [i Ei].
    destruct (Forall2_lookup_l _ _ _ _ _ Fa Ei) as (p & _ & nd & b & En & _).
    apply lookup_lt_Some in En. unfold u. lia. }
  assert (Fa0 : Forall2 (placed_leaf σ0 (m_invert m_create)) cs ps).
  { apply (Forall2_impl _ _ _ _ Fa). intros c p (nd & b & En & Rest).
    exists nd, b. split; [by apply lookup_app_l_Some | done]. }
  destruct (attach_folds h0 d0 fuel σ0 u (new_component k nm) m_create f false st
              cs ps None res Wf0 Eu Ck) as (σ' & nd' & E & Eu' & Ck' & G');
    try done.
  - unfold d0. rewrite decide_True by done. lia.
  - unfold h0. by rewrite decide_True by done.
  - intros m Im. by apply elem_of_nil in Im.
  - by exists σ', nd'.
Qed.

(** The constructors [Union(...)], [Difference(...)] and
    [Intersection(...)] on a well-formed tree, given distinct components
    that are boxes, cylinders or spheres without a parent.  If the kernel
    performs every boolean operation of the fold, the constructor
    returns the new node, and the geometry of the new node is the fold,
    from left to right and with the operation of its class, of the
    bodies of the components: each body copied and placed by the local
    transform of its component composed with the inverse of the
    identity, the first of them copied once more to start the fold.
    Without components the new node has no geometry. *)
Theorem constructor_folds_solid_components (h d : id → nat) (fuel : nat) σ
    (cs : list id) (ps : list Body) (nm : option string) (k : cls) res :
  wf_with h d σ → NoDup cs →
  Forall2 (placed_leaf σ (m_invert m_create)) cs ps → 1 < fuel →
  k ∈ [CUnion; CDifference; CIntersection] →
  fold_from (operation k) None ps = Some res →
  ∃ σ' nd',
    match k with
    | CUnion => Union_init fuel cs nm σ
    | CDifference => Difference_init fuel cs nm σ
    | _ => Intersection_init fuel cs nm σ
    end = (Ok (length σ), σ')
    ∧ σ' !! length σ = Some nd' ∧ class_ nd' = k
    ∧ match k with
      | CUnion => _body nd' = res
      | _ => _bodies nd' = (λ t, [t]) <$> res
      end.
Proof.
  intros Wf ND Fa Hf Ik Fr.
  destruct fuel as [|[|fuel]]; [lia..|].
  assert (Done : ∀ {St} (f : id → St → M St) st,
            folds false k (length σ) f st → (∀ c st', safe (f c st')) →
            ∃ σ' nd',
              (_add_children (S (S fuel)) (length σ) cs (Some f) st;;
               mret (length σ)) (σ ++ [new_component k nm]) = (Ok (length σ), σ')
              ∧ σ' !! length σ = Some nd' ∧ class_ nd' = k
              ∧ match k with
                | CUnion => _body nd' = res
                | _ => _bodies nd' = (λ t, [t]) <$> res
                end).
  { intros St f st Fo Sf.
    destruct (constructor_folds h d (S (S fuel)) σ cs ps nm k f st res
                Wf ND Fa Hf Ik Fo Sf Fr) as (σ' & nd' & E & Eu & Ck & G).
    exists σ', nd'. split_and!; [done..|].
    rewrite !elem_of_cons in Ik. destruct Ik as [->|[->|[->|I]]].
    - unfold accumulated in G. rewrite Ck in G. by injection G.
    - apply accumulated_bodies; [by left | done].
    - apply accumulated_bodies; [by right | done].
    - by apply elem_of_nil in I. }
  pose proof Ik as Ik'.
  rewrite !elem_of_cons in Ik'. destruct Ik' as [->|[->|[->|I]]].
  - unfold Union_init.
    rewrite (run_bind _ _ σ (length σ) (σ ++ [new_component CUnion nm])) by done.
    apply Done; [apply Union_init_folds|].
    intros c st'. apply safe_Union_init_process_child.
  - unfold Difference_init.
    rewrite (run_bind _ _ σ (length σ) (σ ++ [new_component CDifference nm]))
      by done.
    apply Done; [apply Difference_init_folds|].
    intros c st'. apply safe_Difference_init_process_child.
  - unfold Intersection_init.
    rewrite (run_bind _ _ σ (length σ) (σ ++ [new_component CIntersection nm]))
      by done.
    apply Done; [apply Intersection_init_folds|].
    intros c st'. apply safe_Intersection_init_process_child.
  - by apply elem_of_nil in I.
Qed.

Lemma first_plane_solids fuel σ (cs : list id) :
  (∀ m, m ∈ cs → ∃ ndm, σ !! m = Some ndm ∧ is_solid (class_ ndm) = true) →
  first_plane (get_plane (S fuel)) cs σ = (Ok None, σ).
Proof.
  induction cs as [|c cs IH]; intros Ch; [done|].
  destruct (Ch c) as (ndc & Ec & Sc); [by left|].
  change (first_plane (get_plane (S fuel)) (c :: cs))
    with (plane ← get_plane (S fuel) c;
          match plane with
          | Some _ => ret plane
          | None => first_plane (get_plane (S fuel)) cs
          end).
  rewrite (run_bind _ _ _ _ _ (get_plane_solid fuel σ c ndc Ec Sc)).
  apply IH. intros m I. apply Ch. by right.
Qed.

(** [get_plane] of an Intersection over solid leaves returns. *)
Lemma get_plane_of_intersection fuel σ u nd :
  σ !! u = Some nd → class_ nd = CIntersection →
  (∀ m, m ∈ _children nd →
     ∃ ndm, σ !! m = Some ndm ∧ is_solid (class_ ndm) = true) →
  ∃ pl σ', get_plane (S (S fuel)) u σ = (Ok pl, σ').
Proof.
  intros E C Ch. change (get_plane (S (S fuel)) u σ)
    with ((nd ← get_node u;
           match class_ nd with
           | CRect | CCircle =>
             body ← _cached_body (S fuel) u; mret (Some (face0_geometry body))
           | CUnion | CDifference =>
             match children nd with
             | child :: _ => get_plane (S fuel) child
             | [] => mret None
             end
           | CIntersection =>
             if _cached_plane_populated nd then mret (_cached_plane nd)
             else
               plane ← first_plane (get_plane (S fuel)) (children nd);
               modify u (set_cached_plane plane true);;
               mret plane
           | _ => mret None
           end) σ).
  rewrite (run_bind _ _ _ _ _ (run_get_node _ _ _ E)), C.
  destruct (_cached_plane_populated nd); [by eexists _, _|].
  assert (Cm : children nd = _children nd) by (unfold children; by rewrite C).
  rewrite Cm.
  rewrite (run_bind _ _ _ _ _ (first_plane_solids fuel σ _ Ch)).
  rewrite (run_bind _ _ _ _ _ (run_modify _ _ _ _ E)). by eexists _, _.
Qed.

(** [add] on a Union, a Difference or an Intersection of a well-formed
    tree that has geometry already and whose children are boxes,
    cylinders or spheres, given distinct components that are boxes,
    cylinders or spheres without a parent.  If the kernel performs every
    boolean operation of the fold, [add] returns the composite, and the
    geometry of the composite is the fold, from left to right and with
    the operation of its class, of the geometry it had with the bodies of
    the components, each copied and placed by the local transform of its
    component composed with the inverse of the world transform of the
    composite. *)
Theorem add_folds_solid_components (h d : id → nat) (fuel : nat) σ (u : id) ndu W
    (cs : list id) (ps : list Body) t res :
  wf_with h d σ → σ !! u = Some ndu →
  (∀ inv, _cached_inverse_transform ndu = Some inv → inv = m_invert W) →
  World (frame σ) u W → NoDup cs → (∀ c, c ∈ cs → c ≠ u) →
  Forall2 (placed_leaf σ (m_invert W)) cs ps →
  d u < fuel → S (h u) < fuel →
  accumulated ndu = Some (Some t) →
  (∀ m, m ∈ _children ndu →
     ∃ ndm, σ !! m = Some ndm ∧ is_solid (class_ ndm) = true) →
  fold_from (operation (class_ ndu)) (Some t) ps = Some res →
  ∃ σ' nd',
    match class_ ndu with
    | CUnion => Union_add fuel u cs σ
    | CDifference => Difference_add fuel u cs σ
    | _ => Intersection_add fuel u cs σ
    end = (Ok u, σ')
    ∧ σ' !! u = Some nd' ∧ class_ nd' = class_ ndu ∧ accumulated nd' = Some res.
Proof.
  intros Wf Eu Iu Ww ND Ncu Fa Hfd Hfh G Ch Fr.
  destruct fuel as [|[|fuel]]; [lia..|].
  assert (Se : true = true → is_Some (Some t)) by (by intros _; eexists).
  destruct (class_ ndu) eqn:Cu; try (unfold accumulated in G; by rewrite Cu in G).
  - unfold Union_add. rewrite <- Cu.
    eapply (attach_folds h d (S (S fuel)) σ u ndu W _ true tt cs ps (Some t) res);
      try done; rewrite ?Cu; try done.
    + apply Union_add_folds.
    + intros c st'. apply safe_Union_add_process_child.
  - unfold Difference_add. rewrite <- Cu.
    eapply (attach_folds h d (S (S fuel)) σ u ndu W _ true tt cs ps (Some t) res);
      try done; rewrite ?Cu; try done.
    + apply Difference_add_folds.
    + intros c st'. apply safe_Difference_add_process_child.
  - unfold Intersection_add.
    destruct (get_plane_of_intersection fuel σ u ndu Eu Cu Ch) as (pl & σ0 & Ep).
    rewrite (run_bind _ _ _ _ _ Ep).
    destruct (safe_get_plane _ u _ _ _ _ _ _ (wf_with_but _ _ _ Wf) Ep) as [W0 S0].
    pose proof (cache_only_get_plane _ u _ _ _ Ep) as P0.
    destruct (shape_frame _ _ S0) as (F0 & K0 & _).
    destruct (shape_lookup _ _ _ _ S0 Eu) as (nd0 & Eu0 & Sn0).
    destruct (persistent_lookup _ _ _ _ P0 Eu) as (nd0' & Eu0' & Pn0).
    rewrite Eu0 in Eu0'. injection Eu0' as <-.
    unfold shape_of in Sn0. injection Sn0 as _ _ Hc Hk Hi.
    assert (Wf0 : wf_with h d σ0).
    { destruct W0 as [R P C _]. split; try done. intros n nd w. apply C. tauto. }
    rewrite <- Cu, <- Hc.
    eapply (attach_folds h d (S (S fuel)) σ0 u nd0 W _ true pl cs ps (Some t) res);
      try done; rewrite ?Hc, ?Hi, ?Hk, ?F0, ?Cu; try done.
    + apply (Forall2_impl _ _ _ _ Fa). intros c p.
      apply placed_leaf_persistent. by rewrite <- !list_lookup_fmap, P0.
    + by rewrite (accumulated_persistent _ _ Pn0).
    + intros m Im. destruct (Ch m Im) as (ndm & Em & Sm).
      destruct (persistent_lookup_class _ _ _ _ P0 Em) as (ndm' & Em' & Cm').
      exists ndm'. by rewrite Cm'.
    + apply Intersection_add_folds.
    + intros c st'. apply safe_Intersection_add_process_child.
Qed.
End Fold.

(** * The dimensional check of Difference, through [add] *)
Section DifferenceAdd.
Context `{Kernel}.
Implicit Types (σ : store) (nd : Node).


Lemma planar_not_composite c : is_planar_shape c = true → is_composite c = false.
Proof. by destruct c. Qed.


Lemma solid_raw_bodies nd b :
  is_solid (class_ nd) = true → _body nd = Some b → raw_bodies nd = Some [b].
Proof. unfold raw_bodies. intros C ->. by destruct (class_ nd). Qed.




















End DifferenceAdd.

(** * The example scenes *)
Module ExampleFacts.
Import Reference Examples.
#[local] Open Scope Z_scope.

Lemma scene_ranked : ranked (skeleton scene) rank.
Proof.
  intros p cs c E I.
  destruct p as [|[|[|p]]]; vm_compute in E; simplify_eq;
    repeat (apply elem_of_cons in I as [->|I]); try by apply elem_of_nil in I.
  all: vm_compute; lia.
Qed.

Lemma scene_wf : wf_with rank depth scene.
Proof.
  split.
  - exact scene_ranked.
  - intros n p L E.
    destruct n as [|[|[|n]]]; vm_compute in E; simplify_eq.
    all: split; [vm_compute; lia|].
    all: eexists; split; [reflexivity|].
    all: vm_compute; repeat constructor.
  - assert (W2 : World (frame scene) 2%nat (translation_matrix 0 0 1)).
    { by apply World_root. }
    intros n nd w E C.
    destruct n as [|[|[|n]]]; vm_compute in E; simplify_eq; vm_compute in C;
      simplify_eq.
    + exact (World_child (frame scene) 0%nat 2%nat identity _ eq_refl W2).
    + exact W2.
Qed.

Lemma world_transform_composes_witness :
  ∃ fuel0, ∀ fuel, (fuel0 ≤ fuel)%nat →
    ∀ N nd, perform_all fuel scene_actions scene !! N = Some nd →
      match _parent nd with
      | None =>
        (_get_world_transform fuel N (perform_all fuel scene_actions scene)).1
        = Ok (_local_transform nd)
      | Some P =>
        ∃ wP,
          (_get_world_transform fuel P (perform_all fuel scene_actions scene)).1
          = Ok wP
          ∧ (_get_world_transform fuel N (perform_all fuel scene_actions scene)).1
            = Ok (m_transformBy (_local_transform nd) wP)
      end.
Proof.
  apply (world_transform_composes scene scene_actions).
  exists rank, depth. exact scene_wf.
Defined.


Lemma scale_uniform_only_witness :
  ∃ σ' nd',
    scale 5%nat 1%nat 2 (-2) 2 about_x1 scene = (Ok 1%nat, σ')
    ∧ σ' !! 1%nat = Some nd'
    ∧ _local_transform nd'
      = m_transformBy
          (m_transformBy
             (m_transformBy (_local_transform node_b)
                (m_invert (translation_of (Vector3D_create 1 0 0))))
             (scaling_of 2 (-2) 2))
          (translation_of (Vector3D_create 1 0 0))
    ∧ _cached_world_transform nd' = None
    ∧ _cached_bounding_box nd' = None
    ∧ _cached_bodies nd' = None.
Proof.
  apply (proj1 (proj2 (proj2 (@scale_uniform_only Z_Number kernel 5%nat scene 1%nat
                                2 (-2) 2 about_x1)))
               (conj eq_refl eq_refl)
               rank node_b (Point3D_create 1 0 0) scene_ranked eq_refl).
  - vm_compute. lia.
  - apply (@centered_at_one_number Z_Number 1).
  - reflexivity.
Defined.

Lemma intersection_plane_is_first_witness :
  ∃ nd2, crossing_asked !! 3%nat = Some nd2
    ∧ get_plane 5%nat 3%nat crossing
      = (Ok (Some ground),
         <[3%nat := set_cached_plane (Some ground) true nd2]> crossing_asked).
Proof.
  apply (proj1 (proj1 (proj2 (intersection_plane_is_first 4%nat crossing 3%nat
                                crossing_node eq_refl eq_refl)) eq_refl)
               [0%nat] 1%nat [2%nat] crossing crossing_asked ground eq_refl).
  - apply asked_cons with (σ1 := crossing); [reflexivity | apply asked_nil].
  - reflexivity.
Defined.

Lemma translation_operators_witness :
  Alignment.__add__ aligned.1 10 aligned.2
  = Some (Alignment.PyTranslation 0,
          Alignment.mkHeap [Vector3D_create 13 14 15] [0%nat])
  ∧ Alignment.__sub__ aligned.1 10 aligned.2
    = Some (Alignment.PyNone,
            Alignment.mkHeap [Vector3D_create (-7) (-6) (-5)] [0%nat])
  ∧ Alignment.__mul__ aligned.1 10 aligned.2
    = Some (Alignment.PyNone,
            Alignment.mkHeap [Vector3D_create 30 40 50] [0%nat]).
Proof.
  exact (translation_operators aligned.2 0%nat 0%nat (Vector3D_create 3 4 5) 10
           eq_refl eq_refl).
Defined.
End ExampleFacts.

Module SceneFacts.
Import Reference Examples SceneQueries.
#[local] Open Scope Z_scope.

Lemma scene_world_u : World (frame scene) 2%nat world_u.
Proof. by apply World_root. Qed.

Lemma scene_world_a : World (frame scene) 0%nat world_u.
Proof. exact (World_child (frame scene) 0%nat 2%nat identity _ eq_refl scene_world_u). Qed.

Lemma scene_world_b : World (frame scene) 1%nat world_b.
Proof.
  exact (World_child (frame scene) 1%nat 2%nat (translation_matrix 3 0 0) _
           eq_refl scene_world_u).
Qed.

Lemma scene_bounds (m : nat) : (m < 3 → rank m < 5 ∧ depth m < 5)%nat.
Proof. intros Hm. destruct m as [|[|[|m]]]; vm_compute; lia. Qed.

Lemma scene_coherent : coherent rank depth scene.
Proof.
  split.
  - exact ExampleFacts.scene_wf.
  - intros n nd bs E C.
    destruct n as [|[|[|n]]]; vm_compute in E; simplify_eq; vm_compute in C;
      simplify_eq.
    exists world_u, [box222]. split; [exact scene_world_a | done].
  - intros n nd bb E C.
    destruct n as [|[|[|n]]]; vm_compute in E; simplify_eq; vm_compute in C;
      simplify_eq.
    exists world_u, [box222]. split; [exact scene_world_a | done].
  - intros n nd inv E Cm C.
    destruct n as [|[|[|n]]]; vm_compute in E; simplify_eq; vm_compute in C;
      simplify_eq.
Qed.

Lemma world_query_is_cached_witness :
  ∃ w σ', _get_world_transform 5%nat 1%nat scene = (Ok w, σ')
    ∧ World (frame scene) 1%nat w
    ∧ wf_with rank depth σ'
    ∧ persistent <$> σ' = persistent <$> scene
    ∧ ∀ fuel', _get_world_transform (S fuel') 1%nat σ' = (Ok w, σ').
Proof.
  apply (world_query_is_cached rank depth 5%nat scene 1%nat ExampleFacts.scene_wf).
  - vm_compute. lia.
  - vm_compute. lia.
Defined.

Lemma bodies_are_placed_copies_witness :
  ∃ W σ', World (frame scene) 1%nat W
    ∧ bodies 5%nat 1%nat scene = (Ok (placed W [box222]), σ')
    ∧ wf_with rank depth σ'
    ∧ persistent <$> σ' = persistent <$> scene
    ∧ ∀ fuel', bodies fuel' 1%nat σ' = (Ok (placed W [box222]), σ').
Proof.
  apply (bodies_are_placed_copies rank depth 5%nat scene 1%nat node_b [box222]
           ExampleFacts.scene_wf eq_refl).
  - vm_compute. lia.
  - reflexivity.
  - reflexivity.
Defined.

Lemma bounding_queries_share_one_box_witness :
  ∃ bb, minPoint bb = Point3D_create 3 0 1
    ∧ ∀ fuel',
        min fuel' 1%nat scene_measured = (Ok (minPoint bb), scene_measured)
        ∧ max fuel' 1%nat scene_measured = (Ok (maxPoint bb), scene_measured)
        ∧ size fuel' 1%nat scene_measured
          = (Ok (asPoint (vectorTo (minPoint bb) (maxPoint bb))), scene_measured)
        ∧ mid fuel' 1%nat scene_measured
          = (Ok (Point3D_create
                   (s_div (s_add (p_x (minPoint bb)) (p_x (maxPoint bb))) s_two)
                   (s_div (s_add (p_y (minPoint bb)) (p_y (maxPoint bb))) s_two)
                   (s_div (s_add (p_z (minPoint bb)) (p_z (maxPoint bb))) s_two)),
             scene_measured).
Proof.
  apply (bounding_queries_share_one_box 5%nat scene 1%nat (Point3D_create 3 0 1)
           scene_measured).
  reflexivity.
Defined.

Lemma twin_store_wf : wf_with (λ _, 0%nat) (λ _, 0%nat) twin_store.
Proof.
  split.
  - intros p cs c E I. destruct p as [|p]; vm_compute in E; simplify_eq.
    by apply elem_of_nil in I.
  - intros n p L E. destruct n as [|n]; vm_compute in E; simplify_eq.
  - intros n nd w E C. destruct n as [|n]; vm_compute in E; simplify_eq.
Qed.

Lemma bounding_box_of_placed_bodies_witness :
  ∃ σ' nd',
    bounding_box 5%nat 0%nat twin_store = (Ok corners_twin, σ')
    ∧ σ' !! 0%nat = Some nd'
    ∧ _cached_bounding_box nd' = Some corners_twin
    ∧ _cached_bodies nd'
      = Some (placed (translation_matrix 0 0 1)
                [box222; Transformed box222 (translation_matrix 3 0 0)])
    ∧ persistent <$> σ' = persistent <$> twin_store.
Proof.
  destruct (bounding_box_of_placed_bodies (λ _, 0%nat) (λ _, 0%nat) 5%nat twin_store
              0%nat twin [box222; Transformed box222 (translation_matrix 3 0 0)]
              twin_store_wf eq_refl) with (W := translation_matrix 0 0 1)
    as (bb & σ' & nd' & Mb & Rest).
  - lia.
  - reflexivity.
  - reflexivity.
  - reflexivity.
  - discriminate.
  - by apply World_root.
  - vm_compute in Mb. injection Mb as <-. by exists σ', nd'.
Defined.

Lemma mutation_edits_one_local_transform_witness :
  @accepted Z_Number (Tx 4)
  ∧ ∃ σ', mutate 5%nat 2%nat (Tx 4) scene = (Ok 2%nat, σ')
      ∧ persistent <$> σ'
        = persistent <$>
            (<[2%nat := set_local_transform
                          (m_transformBy (_local_transform node_u)
                             (translation_of (Vector3D_create 4 s_zero s_zero)))
                          node_u]> scene)
      ∧ wf_with rank depth σ'
      ∧ (∀ m w, ¬ descendant scene 2%nat m → World (frame scene) m w →
           World (frame σ') m w).
Proof.
  apply (@mutation_edits_one_local_transform Z_Number kernel rank depth 5%nat scene 2%nat node_u
           (@Tx Z_Number 4) ExampleFacts.scene_wf eq_refl).
  vm_compute. lia.
Defined.

Lemma inverse_transform_follows_mutation_witness :
  ∃ σ1 W σ2, mutate 5%nat 2%nat (Tx 4) scene = (Ok 2%nat, σ1)
    ∧ World (frame σ1) 2%nat W
    ∧ _inverse_transform 5%nat 2%nat σ1 = (Ok (m_invert W), σ2)
    ∧ ∀ fuel', _inverse_transform fuel' 2%nat σ2 = (Ok (m_invert W), σ2).
Proof.
  apply (@inverse_transform_follows_mutation Z_Number kernel rank depth 5%nat scene 2%nat node_u
           (@Tx Z_Number 4) 2%nat node_u ExampleFacts.scene_wf eq_refl).
  - vm_compute. lia.
  - exact I.
  - apply rtc_refl.
  - reflexivity.
  - reflexivity.
  - vm_compute. lia.
Defined.

Lemma reset_cache_is_idempotent_witness :
  ∃ σ', _reset_cache 5%nat 2%nat scene = (Ok tt, σ')
    ∧ _reset_cache 5%nat 2%nat σ' = (Ok tt, σ').
Proof.
  apply (reset_cache_is_idempotent rank 5%nat scene 2%nat ExampleFacts.scene_ranked).
  - vm_compute. lia.
  - vm_compute. lia.
Defined.

Lemma copy_of_leaf_is_placed_alike_witness :
  ∃ W σ1,
    World (frame scene) 1%nat W
    ∧ copy 5%nat 1%nat scene = (Ok 3%nat, σ1 ++ [leaf_copy node_b W box222])
    ∧ persistent <$> σ1 = persistent <$> scene
    ∧ wf_with rank depth (σ1 ++ [leaf_copy node_b W box222])
    ∧ World (frame (σ1 ++ [leaf_copy node_b W box222])) 3%nat W
    ∧ ∀ fuel', (bodies (S fuel') 3%nat (σ1 ++ [leaf_copy node_b W box222])).1
               = Ok (placed W [brep_copy box222]).
Proof.
  apply (copy_of_leaf_is_placed_alike rank depth 4%nat scene 1%nat node_b box222
           ExampleFacts.scene_wf eq_refl eq_refl eq_refl).
  vm_compute. lia.
Defined.

Lemma place_eq_is_a_fresh_translation_witness :
  Alignment.Place___eq__ (Alignment.Place_create (Point3D_create 1 2 3))
    Alignment.OfOther two_translations = None
  ∧ ∃ h' h'',
      Alignment.Place___eq__ (Alignment.Place_create (Point3D_create 1 2 3))
        (Alignment.OfNumber 5) two_translations = Some (1%nat, h')
      ∧ Alignment.components 1%nat h'
        = Some (vectorTo (Point3D_create 1 2 3) (Point3D_create 5 5 5))
      ∧ Alignment.__add__ 1%nat 10 h' = Some (Alignment.PyTranslation 1%nat, h'')
      ∧ Alignment.components 1%nat h''
        = Some (map_vector (λ c, s_add c 10)
                  (vectorTo (Point3D_create 1 2 3) (Point3D_create 5 5 5)))
      ∧ ∀ t' v, Alignment.components t' two_translations = Some v →
          Alignment.components t' h' = Some v
          ∧ Alignment.components t' h'' = Some v.
Proof.
  exact (@place_eq_is_a_fresh_translation Z_Number two_translations
           (Alignment.Place_create (Point3D_create 1 2 3)) (Alignment.OfNumber 5)
           (Point3D_create 5 5 5) 10 (denotes_number 5)).
Defined.

Lemma caches_are_never_stale_witness :
  ∃ W, World (frame (serve_all 5%nat scene_requests scene)) 1%nat W
    ∧ (bodies 5%nat 1%nat (serve_all 5%nat scene_requests scene)).1
      = Ok (placed W [box222])
    ∧ (∀ bb, measured (placed W [box222]) = Some bb →
         (min 5%nat 1%nat (serve_all 5%nat scene_requests scene)).1
         = Ok (minPoint bb)
         ∧ (max 5%nat 1%nat (serve_all 5%nat scene_requests scene)).1
           = Ok (maxPoint bb))
    ∧ (is_composite (class_ node_b_served) = true →
         (_inverse_transform 5%nat 1%nat (serve_all 5%nat scene_requests scene)).1
         = Ok (m_invert W)).
Proof.
  apply (caches_are_never_stale rank depth 5%nat scene scene_requests scene_coherent
           scene_bounds 1%nat node_b_served [box222]).
  - vm_compute. reflexivity.
  - reflexivity.
Defined.
End SceneFacts.

Module AttachFacts.
Import Reference Examples SceneQueries AttachScenes.
#[local] Open Scope Z_scope.

Lemma scene_with_box_wf : wf_with rank depth scene_with_box.
Proof.
  exact (wf_with_alloc_leaf rank depth scene (new_shape CBox box222 None)
           ExampleFacts.scene_wf eq_refl eq_refl eq_refl).
Qed.

Lemma scene_with_rect_wf : wf_with rank depth scene_with_rect.
Proof.
  exact (wf_with_alloc_leaf rank depth scene
           (new_shape CRect (brep_copy_face
              (BoxOf (OrientedBoundingBox3D_create (Point3D_create 1 1 0)
                        _pos_x _pos_y 2 2 1)) 1) None)
           ExampleFacts.scene_wf eq_refl eq_refl eq_refl).
Qed.

Lemma new_node_is_detached (σ : store) :
  (σ = scene_with_box ∨ σ = scene_with_rect) →
  ∀ c, c ∈ [3%nat] → c ≠ 2%nat ∧ detached_leaf σ c.
Proof.
  intros Hσ c I. apply list_elem_of_singleton in I as ->. split; [done|].
  destruct Hσ as [-> | ->]; by eexists.
Qed.

Lemma add_attaches_detached_children_witness :
  2%nat = 2%nat ∧ wf scene_joined
  ∧ frame scene_joined
    = foldl (attach 2%nat (m_invert world_u)) (frame scene_with_box) [3%nat]
  ∧ skeleton scene_joined
    = alter (λ l, l ++ [3%nat]) 2%nat (skeleton scene_with_box)
  ∧ ∀ c Lc, c ∈ [3%nat] → frame scene_with_box !! c = Some (None, Lc) →
      frame scene_joined !! c = Some (Some 2%nat, m_transformBy Lc (m_invert world_u))
      ∧ World (frame scene_joined) c
          (m_transformBy (m_transformBy Lc (m_invert world_u)) world_u).
Proof.
  apply (add_attaches_detached_children rank depth 5%nat scene_with_box 2%nat
           node_u world_u [3%nat] 2%nat scene_joined scene_with_box_wf eq_refl).
  - intros inv E. discriminate E.
  - by apply World_root.
  - apply NoDup_singleton.
  - apply new_node_is_detached. by left.
  - vm_compute. lia.
  - vm_compute. lia.
  - vm_compute. reflexivity.
Defined.

Lemma constructor_attaches_detached_children_witness :
  4%nat = length scene_with_box ∧ wf scene_cut
  ∧ frame scene_cut
    = foldl (attach 4%nat (m_invert m_create))
        (frame scene_with_box ++ [(None, m_create)]) [3%nat]
  ∧ skeleton scene_cut = skeleton scene_with_box ++ [[3%nat]]
  ∧ ∀ c Lc, c ∈ [3%nat] → frame scene_with_box !! c = Some (None, Lc) →
      frame scene_cut !! c = Some (Some 4%nat, m_transformBy Lc (m_invert m_create))
      ∧ World (frame scene_cut) c
          (m_transformBy (m_transformBy Lc (m_invert m_create)) m_create).
Proof.
  apply (constructor_attaches_detached_children rank depth 5%nat scene_with_box
           [3%nat] None 4%nat scene_cut scene_with_box_wf).
  - apply NoDup_singleton.
  - intros c I. apply (new_node_is_detached scene_with_box); [by left | done].
  - lia.
  - right. left. vm_compute. reflexivity.
Defined.

Lemma rejected_component_is_left_displaced_witness :
  ∃ done c rest, [3%nat] = done ++ c :: rest
    ∧ frame scene_refused
      = displace (m_invert world_u)
          (foldl (attach 2%nat (m_invert world_u)) (frame scene_with_rect) done) c
    ∧ skeleton scene_refused
      = alter (λ l, l ++ done) 2%nat (skeleton scene_with_rect).
Proof.
  apply (rejected_component_is_left_displaced rank depth 5%nat scene_with_rect 2%nat
           node_u world_u [3%nat] union_mixed scene_refused scene_with_rect_wf
           eq_refl).
  - intros inv E. discriminate E.
  - by apply World_root.
  - apply NoDup_singleton.
  - apply new_node_is_detached. by right.
  - vm_compute. lia.
  - vm_compute. lia.
  - vm_compute. reflexivity.
Defined.
End AttachFacts.

Module FoldFacts.
Import Reference Examples SceneQueries AttachScenes FoldScenes.
#[local] Open Scope Z_scope.

Lemma scene_with_solids_wf : wf_with rank depth scene_with_solids.
Proof.
  split.
  - intros p cs c E I.
    destruct p as [|[|[|[|[|p]]]]]; vm_compute in E; simplify_eq;
      repeat (apply elem_of_cons in I as [->|I]); try by apply elem_of_nil in I.
    all: vm_compute; lia.
  - intros n p L E.
    destruct n as [|[|[|[|[|n]]]]]; vm_compute in E; simplify_eq.
    all: split; [vm_compute; lia|].
    all: eexists; split; [reflexivity|].
    all: vm_compute; repeat constructor.
  - intros n nd w E C.
    destruct n as [|[|[|[|[|n]]]]]; vm_compute in E; simplify_eq; vm_compute in C;
      simplify_eq.
    + exact (World_child (frame scene_with_solids) 0%nat 2%nat identity _ eq_refl
               (World_root (frame scene_with_solids) 2%nat _ eq_refl)).
    + by apply World_root.
Qed.

Lemma solids_are_placed :
  Forall2 (placed_leaf scene_with_solids (m_invert m_create)) [3%nat; 4%nat]
    solids_placed.
Proof.
  constructor; [eexists _, _; split_and!; reflexivity|].
  constructor; [eexists _, _; split_and!; reflexivity|].
  constructor.
Qed.

Lemma box_is_placed :
  Forall2 (placed_leaf scene_with_box (m_invert world_u)) [3%nat] box_placed.
Proof.
  constructor; [eexists _, _; split_and!; reflexivity|].
  constructor.
Qed.

Lemma constructor_folds_solid_components_witness :
  ∃ σ' nd',
    Difference_init 5%nat [3%nat; 4%nat] None scene_with_solids = (Ok 5%nat, σ')
    ∧ σ' !! 5%nat = Some nd' ∧ class_ nd' = CDifference
    ∧ _bodies nd'
      = Some [Boolean DifferenceBooleanType
                (Transformed box222 identity)
                (Transformed (SphereOf (Point3D_create 0 0 0) 1)
                   (translation_matrix 1 0 0))].
Proof.
  destruct (constructor_folds_solid_components rank depth 5%nat scene_with_solids
              [3%nat; 4%nat] solids_placed None CDifference
              (Some (Boolean DifferenceBooleanType
                       (Transformed box222 identity)
                       (Transformed (SphereOf (Point3D_create 0 0 0) 1)
                          (translation_matrix 1 0 0))))
              scene_with_solids_wf) as (σ' & nd' & E & L & C & B).
  - apply NoDup_cons. split; [|apply NoDup_singleton].
    rewrite list_elem_of_singleton. discriminate.
  - exact solids_are_placed.
  - lia.
  - rewrite !elem_of_cons. tauto.
  - vm_compute. reflexivity.
  - by exists σ', nd'.
Defined.

Lemma add_folds_solid_components_witness :
  ∃ σ' nd',
    Union_add 5%nat 2%nat [3%nat] scene_with_box = (Ok 2%nat, σ')
    ∧ σ' !! 2%nat = Some nd' ∧ class_ nd' = CUnion
    ∧ _body nd'
      = Some (Boolean UnionBooleanType body_u
                (Transformed box222 (translation_matrix 0 0 (-1)))).
Proof.
  assert (L0 : scene_with_box !! 2%nat = Some node_u) by reflexivity.
  assert (H1 : ∀ inv, _cached_inverse_transform node_u = Some inv
                      → inv = m_invert world_u)
    by (intros inv E; discriminate E).
  assert (W0 : World (frame scene_with_box) 2%nat world_u)
    by exact (World_root (frame scene_with_box) 2%nat world_u eq_refl).
  assert (H2 : ∀ c, c ∈ [3%nat] → c ≠ 2%nat)
    by (intros c I; apply list_elem_of_singleton in I as ->; discriminate).
  assert (H3 : (depth 2 < 5)%nat) by (vm_compute; lia).
  assert (H4 : (S (rank 2) < 5)%nat) by (vm_compute; lia).
  assert (H5 : accumulated node_u = Some (Some body_u)) by reflexivity.
  assert (H6 : ∀ m, m ∈ _children node_u
                    → ∃ ndm, scene_with_box !! m = Some ndm
                             ∧ is_solid (class_ ndm) = true).
  { intros m I. vm_compute in I.
    repeat (apply elem_of_cons in I as [->|I]); [by eexists..|].
    by apply elem_of_nil in I. }
  assert (H7 : fold_from (operation (class_ node_u)) (Some body_u) box_placed
               = Some (Some (Boolean UnionBooleanType body_u
                               (Transformed box222 (translation_matrix 0 0 (-1))))))
    by (vm_compute; reflexivity).
  assert (T := add_folds_solid_components rank depth 5%nat scene_with_box 2%nat
                node_u world_u [3%nat] box_placed body_u
                (Some (Boolean UnionBooleanType body_u
                         (Transformed box222 (translation_matrix 0 0 (-1)))))
                AttachFacts.scene_with_box_wf L0 H1 W0 (NoDup_singleton _) H2
                box_is_placed H3 H4 H5 H6 H7).
  destruct T as (σ' & nd' & E & L & C & A).
  assert (Cu : class_ node_u = CUnion) by reflexivity.
  rewrite Cu in E, C.
  exists σ', nd'.
  split; [exact E|]. split; [exact L|]. split; [exact C|].
  unfold accumulated in A. rewrite C in A.
  injection A as A. exact A.
Defined.
End FoldFacts.

Module CheckFacts.
Import Reference Examples CheckScenes.
#[local] Open Scope Z_scope.






End CheckFacts.

(** * Where the code departs from its specification, on concrete scenes *)
Module Divergences.
Import Reference Examples.
#[local] Open Scope Z_scope.

(** C2 on the code: a union [u] moved by 5 along x is given the same
    unparented box [a] twice in one [add].  The first [a] is attached as
    it is and keeps its world pose (the identity).  The second is attached
    as a copy, but the copy is taken from the world transform cached while
    [a] had no parent yet: its local transform is the translation by -10
    and its world pose the translation by -5, not the world pose of [a]. *)
Theorem add_same_child_twice_displaces_copy :
  (run (b ← Box 2 2 2 None;
        u ← Union_init 5%nat [b] None;
        tx 5%nat u 5;;
        a ← Box 2 2 2 None;
        before ← _get_world_transform 5%nat a;
        Union_add 5%nat u [a; a];;
        nd_u ← get_node u;
        attached ← get_node 3%nat;
        world_a ← _get_world_transform 5%nat a;
        world_attached ← _get_world_transform 5%nat 3%nat;
        mret (u, a, before, _children nd_u, world_a, _parent attached,
              _local_transform attached, world_attached))).1
  = Ok (1%nat, 2%nat, identity, [0; 2; 3]%nat, identity, Some 1%nat,
        translation_matrix (-10) 0 0, translation_matrix (-5) 0 0).
Proof. vm_compute. reflexivity. Qed.

(** C9 on the code: a Difference [d] moved by 5 along x is copied.  The
    copy's local transform is the world transform of [d], but its
    [_bodies] are copies of the placed bodies of [d], not of its
    [_bodies], so the copy is placed with the translation applied twice.
    The copy of a Union, which copies [_body], is placed where the Union
    is. *)
Theorem difference_copy_takes_placed_bodies :
  (run (b ← Box 2 2 2 None;
        d ← Difference_init 5%nat [b] None;
        tx 5%nat d 5;;
        c ← copy 5%nat d;
        nd_d ← get_node d;
        nd_c ← get_node c;
        placed_d ← bodies 5%nat d;
        placed_c ← bodies 5%nat c;
        mret (_bodies nd_d, _bodies nd_c, _local_transform nd_c,
              placed_d, placed_c))).1
  = Ok (Some [Transformed box222 identity],
        Some [Transformed (Transformed box222 identity) (translation_matrix 5 0 0)],
        translation_matrix 5 0 0,
        [Transformed (Transformed box222 identity) (translation_matrix 5 0 0)],
        [Transformed
           (Transformed (Transformed box222 identity) (translation_matrix 5 0 0))
           (translation_matrix 5 0 0)])
  ∧ (run (b ← Box 2 2 2 None;
          u ← Union_init 5%nat [b] None;
          tx 5%nat u 5;;
          c ← copy 5%nat u;
          placed_u ← bodies 5%nat u;
          placed_c ← bodies 5%nat c;
          mret (placed_u, placed_c))).1
    = Ok ([Transformed (Transformed box222 identity) (translation_matrix 5 0 0)],
          [Transformed (Transformed box222 identity) (translation_matrix 5 0 0)]).
Proof. vm_compute. split; reflexivity. Qed.


(** C8 on the code: a Union [u] of a Rect is moved by 5 along z, so its
    plane is z = 5.  [add] composes the local transform of the child with
    the inverse of the world transform of [u] before the check, and sets
    the parent after it, so the check reads the plane of [u] in world
    coordinates and the plane of the child in the frame of [u].  A Rect at
    z = 10 is read at z = 5 and accepted, although its plane is not
    coplanar with the plane of [u], before the call and after it; a Rect
    at z = 5, coplanar with the plane of [u], is read at z = 0 and
    refused. *)
Theorem union_add_compares_planes_across_frames :
  (run (r1 ← Rect 2 2 None;
        u ← Union_init 5%nat [r1] None;
        tz 5%nat u 5;;
        r2 ← Rect 2 2 None;
        tz 5%nat r2 10;;
        plane_u ← get_plane 5%nat u;
        plane_r2 ← get_plane 5%nat r2;
        added ← Union_add 5%nat u [r2];
        nd_u ← get_node u;
        nd_r2 ← get_node r2;
        plane_u' ← get_plane 5%nat u;
        plane_r2' ← get_plane 5%nat r2;
        mret (plane_u, plane_r2, added, _children nd_u, _parent nd_r2,
              plane_u', plane_r2'))).1
  = Ok (Some ((0, 0, 5), (0, 0, 1)), Some ((0, 0, 10), (0, 0, 1)), 1%nat,
        [0; 2]%nat, Some 1%nat,
        Some ((0, 0, 5), (0, 0, 1)), Some ((0, 0, 10), (0, 0, 1)))
  ∧ (run (r1 ← Rect 2 2 None;
          u ← Union_init 5%nat [r1] None;
          tz 5%nat u 5;;
          r2 ← Rect 2 2 None;
          tz 5%nat r2 5;;
          plane_u ← get_plane 5%nat u;
          plane_r2 ← get_plane 5%nat r2;
          mret (plane_u, plane_r2))).1
    = Ok (Some ((0, 0, 5), (0, 0, 1)), Some ((0, 0, 5), (0, 0, 1)))
  ∧ (run (r1 ← Rect 2 2 None;
          u ← Union_init 5%nat [r1] None;
          tz 5%nat u 5;;
          r2 ← Rect 2 2 None;
          tz 5%nat r2 5;;
          Union_add 5%nat u [r2])).1
    = Raise union_non_coplanar.
Proof. vm_compute. split_and!; reflexivity. Qed.
End Divergences.
